(** * Monte-Carlo tree search agents of ginkgo_rl (agents/mcts.py)

    A shallow embedding of [BaseMCTSAgent], [RandomMCTSAgent], [MCTSAgent]
    and [MCBSAgent].  The agent object is a record threaded through a state
    and exception monad; every call the agent makes on a collaborator (the
    simulated environment, the nodes of the search tree) is recorded in the
    list of events of the run, in the order of the calls.

    Conventions of the model:
    - Python floats that the agent computes with (rewards, log likelihoods,
      [c_puct]) are integers: arithmetic is exact, rounding is not modelled.
    - Outputs of the policy network are an abstract type [Prob].
    - Logging is not modelled: the model is of agents with [verbose = 0],
      where no [if self.verbose > ...] branch runs. *)

From Stdlib Require Import ZArith Lia.
From stdpp Require Import base tactics option list strings sorting.

#[local] Set Warnings "-register-all".
Local Open Scope Z_scope.

Abbreviation action := Z (only parsing).
Abbreviation reward := Z (only parsing).

(** ** Sorting as Python's [sorted] does it: stable insertion.
    [before y x] says that [y] has to come strictly before [x]. *)

Fixpoint insert_by {A} (before : A -> A -> bool) (x : A) (l : list A) : list A :=
  match l with
  | [] => [x]
  | y :: l' => if before y x then y :: insert_by before x l' else x :: y :: l'
  end.

Definition sorted_by {A} (before : A -> A -> bool) (l : list A) : list A :=
  foldr (insert_by before) [] l.

(** [l[:k]] for a Python integer [k]. *)
Definition slice_to {A} (k : Z) (l : list A) : list A :=
  if 0 <=? k then take (Z.to_nat k) l
  else take (Z.to_nat (Z.of_nat (length l) + k)) l.

(** ** The search tree (ginkgo_rl/utils/mcts.py, not part of the sources) *)

Module MCTSNode.

(** Modelled from the spec: the class [MCTSNode] of ginkgo_rl/utils/mcts.py
    is missing.  A node stores the visit count [n], the sum [q] of the
    returns backed up through it, their maximum [q_max] (initially the lower
    reward bound), the immediate reward [q_step] of the action leading to it
    (unused at the root), the [terminal] flag, the beam marker [in_beam], and
    its children keyed by action, in insertion order.  The [path] of a node
    is the list of actions leading to it from the root. *)
Inductive t : Type :=
  Node {
    n : Z;
    q : reward;
    q_max : reward;
    q_step : reward;
    terminal : bool;
    in_beam : bool;
    reward_min : reward;
    reward_max : reward;
    children : list (action * t)
  }.

(** Modelled from the spec: [MCTSNode(parent, path, reward_min, reward_max, q_step)],
    a node without visits and without children. *)
Definition fresh (rmin rmax : reward) (qstep : reward) : t :=
  {| n := 0; q := 0; q_max := rmin; q_step := qstep; terminal := false;
     in_beam := false; reward_min := rmin; reward_max := rmax; children := [] |}.

Definition with_children (kids : list (action * t)) (nd : t) : t :=
  {| n := n nd; q := q nd; q_max := q_max nd; q_step := q_step nd;
     terminal := terminal nd; in_beam := in_beam nd;
     reward_min := reward_min nd; reward_max := reward_max nd; children := kids |}.

(** [node.children.keys()] *)
Definition keys (nd : t) : list action := (children nd).*1.

(** [node.children[a]] *)
Fixpoint assoc (a : action) (kids : list (action * t)) : option t :=
  match kids with
  | [] => None
  | (b, c) :: kids' => if decide (a = b) then Some c else assoc a kids'
  end.

Definition child (a : action) (nd : t) : option t := assoc a (children nd).

(** The node reached from [nd] along [p]. *)
Fixpoint get (p : list action) (nd : t) : option t :=
  match p with
  | [] => Some nd
  | a :: p' => match child a nd with Some c => get p' c | None => None end
  end.

Fixpoint assoc_update (a : action) (f : t -> t) (kids : list (action * t)) : list (action * t) :=
  match kids with
  | [] => []
  | (b, c) :: kids' =>
      if decide (a = b) then (b, f c) :: kids' else (b, c) :: assoc_update a f kids'
  end.

(** A method that mutates the node at [p], seen from the root. *)
Fixpoint update (p : list action) (f : t -> t) (nd : t) : t :=
  match p with
  | [] => f nd
  | a :: p' => with_children (assoc_update a (update p' f) (children nd)) nd
  end.

(** Modelled from the spec: [node.set_terminal(terminal)]. *)
Definition set_terminal (b : bool) (nd : t) : t :=
  {| n := n nd; q := q nd; q_max := q_max nd; q_step := q_step nd;
     terminal := b; in_beam := in_beam nd;
     reward_min := reward_min nd; reward_max := reward_max nd; children := children nd |}.

(** [node.in_beam = True] *)
Definition set_in_beam (b : bool) (nd : t) : t :=
  {| n := n nd; q := q nd; q_max := q_max nd; q_step := q_step nd;
     terminal := terminal nd; in_beam := b;
     reward_min := reward_min nd; reward_max := reward_max nd; children := children nd |}.

(** Modelled from the spec: one backup at one node: increment [n], add to
    [q], raise [q_max] if exceeded. *)
Definition bump (r : reward) (nd : t) : t :=
  {| n := n nd + 1; q := q nd + r;
     q_max := if q_max nd <? r then r else q_max nd;
     q_step := q_step nd;
     terminal := terminal nd; in_beam := in_beam nd;
     reward_min := reward_min nd; reward_max := reward_max nd; children := children nd |}.

(** Modelled from the spec: [node.give_reward(r, backup=True)] for the node
    at [p]: the backup goes through every node from that node up to the
    root. *)
Fixpoint give_reward (r : reward) (p : list action) (nd : t) : t :=
  match p with
  | [] => bump r nd
  | a :: p' => bump r (with_children (assoc_update a (give_reward r p') (children nd)) nd)
  end.

(** Modelled from the spec: [node.expand(actions, step_rewards)] attaches a
    child per action, with its immediate reward as [q_step]; an action that
    is a child already is left alone. *)
Fixpoint expand_kids (rmin rmax : reward) (new : list (action * reward))
    (kids : list (action * t)) : list (action * t) :=
  match new with
  | [] => kids
  | (a, r) :: new' =>
      expand_kids rmin rmax new'
        (if decide (a ∈ kids.*1) then kids else kids ++ [(a, fresh rmin rmax r)])
  end.

Definition expand (actions : list action) (step_rewards : list reward) (nd : t) : t :=
  with_children
    (expand_kids (reward_min nd) (reward_max nd) (zip actions step_rewards) (children nd)) nd.

(** [node.children_q_steps()] *)
Definition children_q_steps (nd : t) : list reward := q_step <$> (children nd).*2.

(** [len(node)] *)
Definition len (nd : t) : Z := Z.of_nat (length (children nd)).

(** Modelled from the spec: the child with the highest score, ties broken by
    the lowest action identifier; no result without children. *)
Definition better (score : t -> Z) (x y : action * t) : bool :=
  (score y.2 <? score x.2) || ((score y.2 =? score x.2) && (x.1 <? y.1)).

Fixpoint argmax_from (score : t -> Z) (best : action * t) (kids : list (action * t)) : action * t :=
  match kids with
  | [] => best
  | x :: kids' => argmax_from score (if better score x best then x else best) kids'
  end.

Definition argmax (score : t -> Z) (kids : list (action * t)) : option action :=
  match kids with
  | [] => None
  | x :: kids' => Some (argmax_from score x kids').1
  end.

(** Modelled from the spec: [node.select_best(mode="max")], argmax of
    [q_max]. *)
Definition select_best (nd : t) : option action := argmax q_max (children nd).

(** Modelled from the spec: [node.select_greedy()], the child with the
    highest immediate step reward. *)
Definition select_greedy (nd : t) : option action := argmax q_step (children nd).

(** Modelled from the spec: [node.count_beam_children()], the number of
    children that carry the beam marker. *)
Definition count_beam_children (nd : t) : Z :=
  Z.of_nat (length (filter (λ x, in_beam x.2 = true) (children nd))).

(** Modelled from the spec: [node.select_beam_search(beam_size,
    exclude_beam_tagged=True)], up to [beam_size] children that do not carry
    the beam marker, by highest step reward, then lowest action id. *)
Definition select_beam_search (beam_size : Z) (nd : t) : list action :=
  (take (Z.to_nat beam_size)
     (sorted_by (better q_step)
        (filter (λ x, in_beam x.2 = false) (children nd)))).*1.

End MCTSNode.

(** ** Python values and exceptions *)

Inductive exn :=
  | TypeError | KeyError | NameError | IndexError | AssertionError
  | ZeroDivisionError | RuntimeError | NotImplementedError | ValueError
  | EnvError.

(** What [_evaluate_policy] can return. *)
Inductive pyval (P : Type) :=
  | PyNone
  | PyScalar (p : P)
  | PyTensor (ps : list P).
Arguments PyNone {P}.
Arguments PyScalar {P} p.
Arguments PyTensor {P} ps.

(** ** Collaborators of the agents *)

Record Collaborators := {
  Env : Type;
  Obs : Type;
  Internal : Type;
  Prob : Type;
  (** [env.state], [None] before the first reset *)
  env_state : Env -> option Obs;
  (** [env.step(action)]: the environment after the step and
      [(state, reward, done)]; [None] when the environment raises *)
  env_step : Env -> action -> option (Env * (Obs * reward * bool));
  get_internal_state : Env -> Internal;
  set_internal_state : Env -> Internal -> Env;
  (** [env.reset_at_episode_end = False] *)
  no_reset_at_episode_end : Env -> Env;
  (** [env._compute_log_likelihood(env.unwrap_action(action))] *)
  compute_log_likelihood : Env -> action -> reward;
  (** [np.all(np.isclose(a, b))] *)
  isclose : Obs -> Obs -> bool;
  (** [Agent._find_legal_actions], [Agent._tensorize] *)
  find_legal_actions : Obs -> list action;
  tensorize : Obs -> Obs;
  (** [softmax(actor(batch_states)).flatten()] on the rows of the batch *)
  actor : list (action * option reward * Obs) -> list Prob;
  (** [1. / k] and [torch.log] *)
  uniform : Z -> Prob;
  log : Prob -> Prob;
  (** [node.select_puct(policy_probs, mode, c_puct)]; [None] when it raises *)
  select_puct : MCTSNode.t -> pyval Prob -> string -> Z -> option action
}.

Inductive AgentClass := BaseMCTSAgent | RandomMCTSAgent | MCTSAgent | MCBSAgent.

(** Calls on the collaborators, as a run makes them. *)
Inductive event :=
  | EvSetInternalState
  | EvStep (a : action)
  | EvSetTerminal (p : list action) (b : bool)
  | EvExpand (p : list action) (actions : list action)
  | EvGiveReward (p : list action) (r : reward)
  | EvSelectBeam (p : list action) (chosen : list action)
  | EvKeep (next_beam beam : list (reward * list action)).

Inductive res (A : Type) :=
  | Ok (a : A)
  | Raise (e : exn)
  | OutOfFuel.
Arguments Ok {A} a.
Arguments Raise {A} e.
Arguments OutOfFuel {A}.

Section Agents.

Variable C : Collaborators.

Record Agent := {
  cls : AgentClass;
  env : Env C;
  sim_env : Env C;
  n_mc_target : Z;
  n_mc_min : Z;
  n_mc_max : Z;
  mcts_mode : string;
  c_puct : Z;
  reward_range : reward * reward;
  log_likelihood_feature : bool;
  beam_size : Z;
  mcts_head : MCTSNode.t;
  episode_reward : reward
}.

Definition with_sim_env (e : Env C) (s : Agent) : Agent :=
  {| cls := cls s; env := env s; sim_env := e;
     n_mc_target := n_mc_target s; n_mc_min := n_mc_min s; n_mc_max := n_mc_max s;
     mcts_mode := mcts_mode s; c_puct := c_puct s; reward_range := reward_range s;
     log_likelihood_feature := log_likelihood_feature s; beam_size := beam_size s;
     mcts_head := mcts_head s; episode_reward := episode_reward s |}.

Definition with_mcts_head (t : MCTSNode.t) (s : Agent) : Agent :=
  {| cls := cls s; env := env s; sim_env := sim_env s;
     n_mc_target := n_mc_target s; n_mc_min := n_mc_min s; n_mc_max := n_mc_max s;
     mcts_mode := mcts_mode s; c_puct := c_puct s; reward_range := reward_range s;
     log_likelihood_feature := log_likelihood_feature s; beam_size := beam_size s;
     mcts_head := t; episode_reward := episode_reward s |}.

(** *** The monad: agent state, exceptions, events *)

Record Outcome (A : Type) := {
  result : res A;
  final : Agent;
  events : list event
}.
Arguments result {A} o.
Arguments final {A} o.
Arguments events {A} o.

Definition M (A : Type) : Type := Agent -> Outcome A.

#[global] Instance M_ret : MRet M :=
  λ A a s, {| result := Ok a; final := s; events := [] |}.

#[global] Instance M_bind : MBind M :=
  λ A B f m s,
    let o := m s in
    match result o with
    | Ok a =>
        let o' := f a (final o) in
        {| result := result o'; final := final o'; events := events o ++ events o' |}
    | Raise e => {| result := Raise e; final := final o; events := events o |}
    | OutOfFuel => {| result := OutOfFuel; final := final o; events := events o |}
    end.

Definition raise {A} (e : exn) : M A :=
  λ s, {| result := Raise e; final := s; events := [] |}.

Definition out_of_fuel {A} : M A :=
  λ s, {| result := OutOfFuel; final := s; events := [] |}.

Definition get_agent : M Agent :=
  λ s, {| result := Ok s; final := s; events := [] |}.

Definition modify (f : Agent -> Agent) : M unit :=
  λ s, {| result := Ok tt; final := f s; events := [] |}.

Definition emit (ev : event) : M unit :=
  λ s, {| result := Ok tt; final := s; events := [ev] |}.

(** A Python call that raises [e] when the model has no value for it. *)
Definition or_raise {A} (e : exn) (o : option A) : M A :=
  match o with Some a => mret a | None => raise e end.

(** *** Node methods, called on the node with path [p] of the tree *)

Definition the_node (p : list action) : M MCTSNode.t :=
  s ← get_agent; or_raise KeyError (MCTSNode.get p (mcts_head s)).

Definition node_set_terminal (p : list action) (b : bool) : M unit :=
  emit (EvSetTerminal p b);;
  modify (λ s, with_mcts_head (MCTSNode.update p (MCTSNode.set_terminal b) (mcts_head s)) s).

Definition node_expand (p : list action) (actions : list action) (step_rewards : list reward) : M unit :=
  emit (EvExpand p actions);;
  modify (λ s, with_mcts_head (MCTSNode.update p (MCTSNode.expand actions step_rewards) (mcts_head s)) s).

Definition node_give_reward (p : list action) (r : reward) : M unit :=
  emit (EvGiveReward p r);;
  modify (λ s, with_mcts_head (MCTSNode.give_reward r p (mcts_head s)) s).

Definition node_set_in_beam (p : list action) : M unit :=
  modify (λ s, with_mcts_head (MCTSNode.update p (MCTSNode.set_in_beam true) (mcts_head s)) s).

(** *** BaseMCTSAgent *)

(** [self.sim_env.state is None or not np.all(np.isclose(self.sim_env.state,
    self.env.state))]; comparing an array with [None] raises. *)
Definition sim_env_diverged : M bool :=
  s ← get_agent;
  match env_state C (sim_env s) with
  | None => mret true
  | Some sim_state =>
      match env_state C (env s) with
      | None => raise TypeError
      | Some real_state => mret (negb (isclose C sim_state real_state))
      end
  end.

(** [self.sim_env.set_internal_state(self.env.get_internal_state())] *)
Definition resync : M unit :=
  emit EvSetInternalState;;
  modify (λ s, with_sim_env (set_internal_state C (sim_env s) (get_internal_state C (env s))) s).

(** [self.sim_env.step(action)] *)
Definition sim_step (a : action) : M (Obs C * reward * bool) :=
  emit (EvStep a);;
  s ← get_agent;
  match env_step C (sim_env s) a with
  | None => raise EnvError
  | Some (e', out) => modify (with_sim_env e');; mret out
  end.

(** The [for action in path] loop of [_parse_path], with its [break]. *)
Fixpoint follow_path (path : list action) (state : Obs C) (total_reward : reward)
    : M (Obs C * reward * bool) :=
  match path with
  | [] => mret (state, total_reward, false)
  | action :: path' =>
      '(state, reward, done) ← sim_step action;
      let total_reward := total_reward + reward in
      if done : bool then mret (state, total_reward, true)
      else follow_path path' state total_reward
  end.

(** [_parse_path]: the state, the total reward and the terminal flag of the
    replay of [path] on the simulated environment. *)
Definition _parse_path (state : Obs C) (path : list action) : M (Obs C * reward * bool) :=
  diverged ← sim_env_diverged;
  (if diverged : bool then resync else mret tt);;
  '(state, total_reward, terminal) ← follow_path path state 0;
  mret (tensorize C state, total_reward, terminal).

(** [_parse_action]: the log likelihood of [a] in the simulated environment.
    For another value of [from_which_env] than ["real"] and ["sim"] the
    source evaluates [ValueError(mode)] with an unbound name [mode]. *)
Definition _parse_action (a : action) (from_which_env : string) : M reward :=
  (if decide (from_which_env = "real") then
     diverged ← sim_env_diverged;
     if diverged : bool then resync else mret tt
   else if decide (from_which_env = "sim") then mret tt
   else raise NameError);;
  s ← get_agent;
  mret (compute_log_likelihood C (sim_env s) a).

(** [_init_episode]: a new root and no reward so far. *)
Definition _init_episode : M unit :=
  modify (λ s,
    {| cls := cls s; env := env s; sim_env := sim_env s;
       n_mc_target := n_mc_target s; n_mc_min := n_mc_min s; n_mc_max := n_mc_max s;
       mcts_mode := mcts_mode s; c_puct := c_puct s; reward_range := reward_range s;
       log_likelihood_feature := log_likelihood_feature s; beam_size := beam_size s;
       mcts_head := MCTSNode.fresh (reward_range s).1 (reward_range s).2 0;
       episode_reward := 0 |}).

(** [_evaluate_policy] of [RandomMCTSAgent]: its signature has no
    [step_rewards], so a call that passes this keyword raises; with an
    [action] the probability is computed and dropped, and the method returns
    [None]. *)
Definition Random_evaluate_policy (legal_actions : list action)
    (step_rewards : option (list reward)) (a : option action) : M (pyval (Prob C)) :=
  match step_rewards with
  | Some _ => raise TypeError
  | None =>
      let k := Z.of_nat (length legal_actions) in
      if decide (k = 0) then raise ZeroDivisionError
      else
        match a with
        | Some _ => mret PyNone
        | None => mret (PyTensor (replicate (length legal_actions) (uniform C k)))
        end
  end.

(** [np.clip(x, lo, hi)] *)
Definition clip (x lo hi : reward) : reward := Z.min (Z.max x lo) hi.

(** The [for action, log_likelihood in zip(legal_actions, step_rewards)]
    loop of [MCTSAgent._batch_state]. *)
Fixpoint batch_rows (state : Obs C) (rows : list (action * option reward))
    : M (list (action * option reward * Obs C)) :=
  match rows with
  | [] => mret []
  | (a, log_likelihood) :: rows' =>
      s ← get_agent;
      row ← (if log_likelihood_feature s then
               log_likelihood ← match log_likelihood with
                                | Some l => mret l
                                | None => _parse_action a "real"
                                end;
               mret (a, Some (clip log_likelihood (reward_range s).1 (reward_range s).2), state)
             else mret (a, None, state));
      rest ← batch_rows state rows';
      mret (row :: rest)
  end.

(** [MCTSAgent._batch_state]; [torch.cat] of an empty list raises. *)
Definition _batch_state (state : Obs C) (legal_actions : list action)
    (step_rewards : option (list reward)) : M (list (action * option reward * Obs C)) :=
  let step_rewards :=
    match step_rewards with
    | Some rs => Some <$> rs
    | None => (λ _, None) <$> legal_actions
    end in
  batch_states ← batch_rows state (zip legal_actions step_rewards);
  if decide (batch_states = []) then raise RuntimeError else mret batch_states.

(** [legal_actions.index(action)] *)
Fixpoint index_of (a : action) (l : list action) : option nat :=
  match l with
  | [] => None
  | b :: l' => if decide (a = b) then Some 0%nat else S <$> index_of a l'
  end.

(** [_evaluate_policy] of [MCTSAgent]: the probabilities of the legal
    actions, or with an [action] (asserted to be legal) its probability. *)
Definition MCTSAgent_evaluate_policy (state : Obs C) (legal_actions : list action)
    (step_rewards : option (list reward)) (a : option action) : M (pyval (Prob C)) :=
  batch_states ← _batch_state state legal_actions step_rewards;
  let probs := actor C batch_states in
  match a with
  | Some a =>
      match index_of a legal_actions with
      | None => raise AssertionError
      | Some i => p ← or_raise IndexError (probs !! i); mret (PyScalar p)
      end
  | None => mret (PyTensor probs)
  end.

(** Dispatch of [self._evaluate_policy] on the class of the agent. *)
Definition _evaluate_policy (state : Obs C) (legal_actions : list action)
    (step_rewards : option (list reward)) (a : option action) : M (pyval (Prob C)) :=
  s ← get_agent;
  match cls s with
  | BaseMCTSAgent => raise NotImplementedError
  | RandomMCTSAgent => Random_evaluate_policy legal_actions step_rewards a
  | MCTSAgent | MCBSAgent => MCTSAgent_evaluate_policy state legal_actions step_rewards a
  end.

(** [torch.log] *)
Definition torch_log (v : pyval (Prob C)) : M (pyval (Prob C)) :=
  match v with
  | PyNone => raise TypeError
  | PyScalar p => mret (PyScalar (log C p))
  | PyTensor ps => mret (PyTensor (log C <$> ps))
  end.

(** [if not node.children: ... node.expand(actions, step_rewards=step_rewards)] *)
Definition expand_node (p : list action) (this_state : Obs C) : M unit :=
  let actions := find_legal_actions C this_state in
  step_rewards ← mapM (λ a, _parse_action a "sim") actions;
  node_expand p actions step_rewards.

(** The [for _ in range(max_steps)] loop of [_mcts]: the node where the
    descent stops and the total reward of the last replay. *)
Fixpoint mcts_descend (max_steps : nat) (state : Obs C) (node : list action)
    (total_reward : reward) : M (list action * reward) :=
  match max_steps with
  | O => mret (node, total_reward)
  | S max_steps' =>
      '(this_state, total_reward, terminal) ← _parse_path state node;
      node_set_terminal node terminal;;
      if terminal : bool then mret (node, total_reward)
      else
        nd ← the_node node;
        (if decide (MCTSNode.children nd = []) then expand_node node this_state else mret tt);;
        nd ← the_node node;
        policy_probs ← _evaluate_policy this_state (MCTSNode.keys nd)
                         (Some (MCTSNode.children_q_steps nd)) None;
        s ← get_agent;
        a ← or_raise ValueError (select_puct C nd policy_probs (mcts_mode s) (c_puct s));
        _ ← or_raise KeyError (MCTSNode.child a nd);
        mcts_descend max_steps' state (node ++ [a]) total_reward
  end.

(** One iteration of [for i in range(n)] in [_mcts]. *)
Definition mcts_trajectory (max_steps : nat) (state : Obs C) : M unit :=
  '(node, total_reward) ← mcts_descend max_steps state [] 0;
  s ← get_agent;
  node_give_reward node (episode_reward s + total_reward).

(** [for i in range(n): body] *)
Fixpoint repeat_times (k : nat) (body : M unit) : M unit :=
  match k with
  | O => mret tt
  | S k' => body;; repeat_times k' body
  end.

Definition for_range (n : Z) (body : M unit) : M unit := repeat_times (Z.to_nat n) body.

(** [_mcts]: the chosen action and the [log_prob] of the info record. *)
Definition _mcts (state : Obs C) (max_steps : nat) : M (action * pyval (Prob C)) :=
  s ← get_agent;
  let n :=
    if decide (length (MCTSNode.children (mcts_head s)) = 1%nat) then 1
    else
      let n_initial_legal_actions := Z.of_nat (length (find_legal_actions C state)) in
      Z.min (Z.max (n_mc_target s * n_initial_legal_actions - MCTSNode.n (mcts_head s))
                   (n_mc_min s))
            (n_mc_max s) in
  for_range n (mcts_trajectory max_steps state);;
  s ← get_agent;
  a ← or_raise ValueError (MCTSNode.select_best (mcts_head s));
  p ← _evaluate_policy state (find_legal_actions C state)
        (Some (MCTSNode.children_q_steps (mcts_head s))) (Some a);
  log_prob ← torch_log p;
  mret (a, log_prob).

(** *** MCBSAgent *)

(** The [while not node.terminal] loop of [_greedy]; [fuel] bounds the
    number of iterations. *)
Fixpoint greedy_loop (fuel : nat) (state : Obs C) (node : list action) : M unit :=
  nd ← the_node node;
  if MCTSNode.terminal nd then mret tt
  else
    match fuel with
    | O => out_of_fuel
    | S fuel' =>
        '(this_state, total_reward, terminal) ← _parse_path state node;
        node_set_terminal node terminal;;
        nd ← the_node node;
        (if negb (MCTSNode.terminal nd) && bool_decide (MCTSNode.children nd = [])
         then expand_node node this_state else mret tt);;
        nd ← the_node node;
        (if MCTSNode.terminal nd then
           s ← get_agent; node_give_reward node (episode_reward s + total_reward)
         else mret tt);;
        nd ← the_node node;
        if negb (MCTSNode.terminal nd) then
          a ← or_raise ValueError (MCTSNode.select_greedy nd);
          _ ← or_raise KeyError (MCTSNode.child a nd);
          greedy_loop fuel' state (node ++ [a])
        else greedy_loop fuel' state node
    end.

(** [_greedy], from the root. *)
Definition _greedy (fuel : nat) (state : Obs C) : M unit := greedy_loop fuel state [].

(** The body of [for i, (_, node) in enumerate(beam)] in [_beam_search]
    after the replay of the path of the node: expansion, backup and
    selection; it returns the entries it appends to [next_beam]. *)
Definition beam_process (beam_size : Z) (node : list action) (this_state : Obs C)
    (total_reward : reward) : M (list (reward * list action)) :=
  nd ← the_node node;
  (if negb (MCTSNode.terminal nd) && bool_decide (MCTSNode.children nd = [])
   then expand_node node this_state else mret tt);;
  nd ← the_node node;
  (if MCTSNode.terminal nd then
     s ← get_agent; node_give_reward node (episode_reward s + total_reward)
   else mret tt);;
  nd ← the_node node;
  let n_beam_children := MCTSNode.count_beam_children nd in
  if Z.min beam_size (MCTSNode.len nd) <=? n_beam_children then mret []
  else
    let chosen := MCTSNode.select_beam_search beam_size nd in
    emit (EvSelectBeam node chosen);;
    pushed ← mapM (λ a, c ← or_raise KeyError (MCTSNode.child a nd);
                        mret (total_reward + MCTSNode.q_step c, node ++ [a])) chosen;
    node_set_in_beam node;;
    mret pushed.

(** The body of [for i, (_, node) in enumerate(beam)] in [_beam_search]. *)
Definition beam_visit (state : Obs C) (beam_size : Z) (node : list action)
    : M (list (reward * list action)) :=
  '(this_state, total_reward, terminal) ← _parse_path state node;
  node_set_terminal node terminal;;
  beam_process beam_size node this_state total_reward.

Fixpoint beam_round (state : Obs C) (beam_size : Z) (beam : list (reward * list action))
    (next_beam : list (reward * list action)) : M (list (reward * list action)) :=
  match beam with
  | [] => mret next_beam
  | (_, node) :: beam' =>
      pushed ← beam_visit state beam_size node;
      beam_round state beam_size beam' (next_beam ++ pushed)
  end.

(** [sorted(next_beam, key=lambda x: x[0], reverse=True)[:beam_size]] *)
Definition keep_top (beam_size : Z) (next_beam : list (reward * list action))
    : list (reward * list action) :=
  slice_to beam_size (sorted_by (λ y x : reward * list action, x.1 <? y.1) next_beam).

(** The [while beam or next_beam] loop of [_beam_search]; it returns the
    two frontiers it stops with. *)
Fixpoint beam_loop (fuel : nat) (state : Obs C) (beam_size : Z)
    (beam next_beam : list (reward * list action))
    : M (list (reward * list action) * list (reward * list action)) :=
  if bool_decide (beam = []) && bool_decide (next_beam = []) then mret (beam, next_beam)
  else
    match fuel with
    | O => out_of_fuel
    | S fuel' =>
        next_beam ← beam_round state beam_size beam next_beam;
        let beam := keep_top beam_size next_beam in
        emit (EvKeep next_beam beam);;
        beam_loop fuel' state beam_size beam []
    end.

(** [_beam_search], from the beam that holds the root. *)
Definition _beam_search (fuel : nat) (state : Obs C) (beam_size : Z) : M unit :=
  s ← get_agent;
  beam_loop fuel state beam_size [(episode_reward s, [])] [];;
  mret tt.

(** [_predict], by class. *)
Definition _predict (fuel : nat) (state : Obs C) (max_steps : nat)
    : M (action * pyval (Prob C)) :=
  s ← get_agent;
  match cls s with
  | MCBSAgent =>
      _greedy fuel state;;
      _beam_search fuel state (beam_size s);;
      _mcts state max_steps
  | _ => _mcts state max_steps
  end.

(** *** Construction and configuration *)

Record Config := {
  cfg_n_mc_target : Z;
  cfg_n_mc_min : Z;
  cfg_n_mc_max : Z;
  cfg_mcts_mode : string;
  cfg_c_puct : Z;
  cfg_reward_range : reward * reward;
  cfg_log_likelihood_feature : bool;
  cfg_beam_size : Z
}.

(** The keyword defaults of the constructors. *)
Definition default_config : Config :=
  {| cfg_n_mc_target := 5; cfg_n_mc_min := 5; cfg_n_mc_max := 100;
     cfg_mcts_mode := "mean"; cfg_c_puct := 1; cfg_reward_range := (-200, 0);
     cfg_log_likelihood_feature := true; cfg_beam_size := 10 |}.

(** [__init__] of the four classes: the parameters are stored, the
    simulated environment is a deep copy of the environment, and the episode
    is initialised.  [Agent.__init__] of agents/base.py is missing; it gets
    none of the parameters below. *)
Definition __init__ (k : AgentClass) (e : Env C) (cfg : Config) : res Agent :=
  let s :=
    {| cls := k; env := e; sim_env := no_reset_at_episode_end C e;
       n_mc_target := cfg_n_mc_target cfg; n_mc_min := cfg_n_mc_min cfg;
       n_mc_max := cfg_n_mc_max cfg; mcts_mode := cfg_mcts_mode cfg;
       c_puct := cfg_c_puct cfg; reward_range := cfg_reward_range cfg;
       log_likelihood_feature := cfg_log_likelihood_feature cfg;
       beam_size := cfg_beam_size cfg;
       mcts_head := MCTSNode.fresh 0 0 0; episode_reward := 0 |} in
  let o := _init_episode s in
  match result o with
  | Ok _ => Ok (final o)
  | Raise e => Raise e
  | OutOfFuel => OutOfFuel
  end.

(** [set_precision] *)
Definition set_precision (n_mc_target' n_mc_min' n_mc_max' : Z) (mcts_mode' : string)
    (c_puct' : Z) : M unit :=
  modify (λ s,
    {| cls := cls s; env := env s; sim_env := sim_env s;
       n_mc_target := n_mc_target'; n_mc_min := n_mc_min'; n_mc_max := n_mc_max';
       mcts_mode := mcts_mode'; c_puct := c_puct'; reward_range := reward_range s;
       log_likelihood_feature := log_likelihood_feature s; beam_size := beam_size s;
       mcts_head := mcts_head s; episode_reward := episode_reward s |}).

(** [set_env]: the environment is replaced, the simulated environment is a
    deep copy of the new one, and the episode is initialised. *)
Definition set_env (e : Env C) : M unit :=
  modify (λ s,
    {| cls := cls s; env := e; sim_env := no_reset_at_episode_end C e;
       n_mc_target := n_mc_target s; n_mc_min := n_mc_min s; n_mc_max := n_mc_max s;
       mcts_mode := mcts_mode s; c_puct := c_puct s; reward_range := reward_range s;
       log_likelihood_feature := log_likelihood_feature s; beam_size := beam_size s;
       mcts_head := mcts_head s; episode_reward := episode_reward s |});;
  _init_episode.

(** *** The update after a step of the environment *)

(** [self.episode_reward += next_reward] *)
Definition add_episode_reward (next_reward : reward) (s : Agent) : Agent :=
  {| cls := cls s; env := env s; sim_env := sim_env s;
     n_mc_target := n_mc_target s; n_mc_min := n_mc_min s; n_mc_max := n_mc_max s;
     mcts_mode := mcts_mode s; c_puct := c_puct s; reward_range := reward_range s;
     log_likelihood_feature := log_likelihood_feature s; beam_size := beam_size s;
     mcts_head := mcts_head s; episode_reward := episode_reward s + next_reward |}.

Section Training.

(** The training loop belongs to agents/base.py, which is missing.  Modelled
    from their use in [update] and in [MCTSAgent._train]: the memory
    [self.history] of the steps of the episode, with its methods [store] and
    [clear], and what [MCTSAgent._train] makes of the memory: the loss
    [-torch.sum(torch.stack(rollout["log_prob"]))] that it returns after the
    gradient step, or the exception that one of its calls raises.  The
    gradient step changes the weights of the policy network, which are not
    part of the agent record: [actor] is the network during one decision. *)
Variable History : Type.
Variable history_store : History -> pyval (Prob C) -> reward -> History.
Variable history_clear : History -> History.
Variable rollout_loss : History -> res reward.

(** The agent with the flag [self.training] and the memory [self.history]. *)
Record Learner := {
  agent : Agent;
  training : bool;
  history : History
}.

(** [_train], by class. *)
Definition _train (l : Learner) : res reward :=
  match cls (agent l) with
  | BaseMCTSAgent => Raise NotImplementedError
  | RandomMCTSAgent => Ok 0
  | MCTSAgent | MCBSAgent => rollout_loss (history l)
  end.

(** [update]: the result, the returned loss or the exception raised, and
    the agent after the call.  [log_prob] is [kwargs["log_prob"]], [None]
    when the caller does not pass this keyword.  The tree of the model holds
    the paths of the nodes relative to its root, so that [prune], which makes
    the paths of the retained subtree start at the new root, changes
    nothing. *)
Definition update (rew : reward) (a : action) (done : bool) (next_reward : reward)
    (log_prob : option (pyval (Prob C))) (l : Learner) : res reward * Learner :=
  let o :=
    (modify (add_episode_reward next_reward);;
     if done then _init_episode
     else
       s ← get_agent;
       child ← or_raise KeyError (MCTSNode.child a (mcts_head s));
       modify (with_mcts_head child)) (agent l) in
  let l := {| agent := final o; training := training l; history := history l |} in
  match result o with
  | Raise e => (Raise e, l)
  | OutOfFuel => (OutOfFuel, l)
  | Ok _ =>
      if training l then
        match log_prob with
        | None => (Raise KeyError, l)
        | Some log_prob =>
            let l := {| agent := agent l; training := training l;
                        history := history_store (history l) log_prob rew |} in
            if done then
              match _train l with
              | Ok loss =>
                  (Ok loss, {| agent := agent l; training := training l;
                               history := history_clear (history l) |})
              | Raise e => (Raise e, l)
              | OutOfFuel => (OutOfFuel, l)
              end
            else (Ok 0, l)
        end
      else (Ok 0, l)
  end.

End Training.

End Agents.

Arguments cls {C} a.
Arguments env {C} a.
Arguments sim_env {C} a.
Arguments n_mc_target {C} a.
Arguments n_mc_min {C} a.
Arguments n_mc_max {C} a.
Arguments mcts_mode {C} a.
Arguments c_puct {C} a.
Arguments reward_range {C} a.
Arguments log_likelihood_feature {C} a.
Arguments beam_size {C} a.
Arguments mcts_head {C} a.
Arguments episode_reward {C} a.
Arguments result {C A} o.
Arguments final {C A} o.
Arguments events {C A} o.
Arguments agent {C History} l.
Arguments training {C History} l.
Arguments history {C History} l.

(** ** What the properties of the runs talk about *)

(** [P] holds of every node of the tree. *)
Inductive all_nodes (P : MCTSNode.t -> Prop) : MCTSNode.t -> Prop :=
  | all_nodes_intro (nd : MCTSNode.t) :
      P nd ->
      Forall (λ x, all_nodes P x.2) (MCTSNode.children nd) ->
      all_nodes P nd.

(** A property of a node that does not look into its children. *)
Definition local (P : MCTSNode.t -> Prop) : Prop :=
  ∀ nd kids, P nd -> kids.*1 = (MCTSNode.children nd).*1 -> P (MCTSNode.with_children kids nd).

(** The children of a node have different actions, as the keys of a
    dictionary have. *)
Definition well_keyed (nd : MCTSNode.t) : Prop := NoDup (MCTSNode.keys nd).

(** Neither the maximum return of the node nor its lower reward bound, with
    which the maximum of a new child starts, exceeds [B]. *)
Definition below (B : reward) (nd : MCTSNode.t) : Prop :=
  MCTSNode.q_max nd <= B ∧ MCTSNode.reward_min nd <= B.

(** The node is not marked terminal. *)
Definition unfinished (nd : MCTSNode.t) : Prop := MCTSNode.terminal nd = false.

(** The nodes that a run processes: each processing of a node replays its
    path and then calls [set_terminal] on it. *)
Definition visited (evs : list event) : list (list action) :=
  omap (λ ev, match ev with EvSetTerminal p _ => Some p | _ => None end) evs.




(** What the choice of a child by [score] looks at. *)
Definition view (score : MCTSNode.t -> Z) (x : action * MCTSNode.t) : action * Z :=
  (x.1, score x.2).

(** Along the path [p] of the tree [t] every node before the last is not
    marked terminal, and the next action of the path is the one that
    [select_greedy] returns for it. *)
Definition greedy_path (t : MCTSNode.t) (p : list action) : Prop :=
  ∀ p' a, p' ++ [a] `prefix_of` p ->
    ∃ nd, MCTSNode.get p' t = Some nd
          ∧ MCTSNode.terminal nd = false
          ∧ MCTSNode.select_greedy nd = Some a.

(** The action [a] leads to a child of [nd] with the highest immediate
    step reward among the children of [nd]. *)
Definition highest_step_reward (nd : MCTSNode.t) (a : action) : Prop :=
  ∃ c, (a, c) ∈ MCTSNode.children nd
       ∧ ∀ x, x ∈ MCTSNode.children nd -> MCTSNode.q_step x.2 <= MCTSNode.q_step c.

(** The return [R] has been backed up along the path [p] of [t]: the maximum
    of every node on the path is at least [R], and it is [R] when before the
    search, in the tree [t0], no maximum and no lower reward bound exceeded
    [R]. *)
Definition backed_up (t0 t : MCTSNode.t) (p : list action) (R : reward) : Prop :=
  ∀ p', p' `prefix_of` p ->
    ∃ nd, MCTSNode.get p' t = Some nd
          ∧ R <= MCTSNode.q_max nd
          ∧ ∀ B, all_nodes (below B) t0 -> B <= R -> MCTSNode.q_max nd = R.

(** The calls on the simulated environment. *)
Definition sim_event (ev : event) : Prop :=
  ev = EvSetInternalState ∨ ∃ a, ev = EvStep a.

(** The backups of a run: its calls of [give_reward], with node and return.
    Every simulation pass of [_mcts] ends with one. *)
Definition backups (evs : list event) : list (list action * reward) :=
  omap (λ ev, match ev with EvGiveReward p r => Some (p, r) | _ => None end) evs.

Definition passes (evs : list event) : nat := length (backups evs).

Section Specs.

Variable C : Collaborators.

(** The real environment is the one of before the run. *)
Definition env_kept (s : Agent C) (evs : list event) (s' : Agent C) : Prop :=
  env s' = env s.

(** The run has no backup. *)
Definition no_backup (s : Agent C) (evs : list event) (s' : Agent C) : Prop :=
  backups evs = [].

(** The number of trajectories that [_mcts] computes when the root does not
    have exactly one child. *)
Definition mcts_budget (state : Obs C) (s : Agent C) : Z :=
  Z.min
    (Z.max (n_mc_target s * Z.of_nat (length (find_legal_actions C state))
            - MCTSNode.n (mcts_head s))
           (n_mc_min s))
    (n_mc_max s).

(** The steps of a path, one after the other, each on the environment that
    the step before it left, with what each step returned. *)
Inductive steps_to : Env C -> list action -> Env C -> list (Obs C * reward * bool) -> Prop :=
  | steps_nil (e : Env C) : steps_to e [] e []
  | steps_cons (e : Env C) (a : action) (e1 : Env C) (out : Obs C * reward * bool)
      (acts : list action) (e' : Env C) (outs : list (Obs C * reward * bool)) :
      env_step C e a = Some (e1, out) ->
      steps_to e1 acts e' outs ->
      steps_to e (a :: acts) e' (out :: outs).

Definition not_done (out : Obs C * reward * bool) : Prop := out.2 = false.

(** The replay stops at the first step that reports done, with the flag
    set; without such a step every action is applied and the flag is not
    set. *)
Definition stops_at_done (outs : list (Obs C * reward * bool)) (rest : list action)
    (terminal : bool) : Prop :=
  if terminal then
    ∃ outs0 out, outs = outs0 ++ [out] ∧ out.2 = true ∧ Forall not_done outs0
  else rest = [] ∧ Forall not_done outs.

(** The replay of [path] from the environment [e0] and the state [state]:
    the actions [applied], the environment [e'] they leave, and the result
    [x = (state, total_reward, terminal)]. *)
Definition replayed (e0 : Env C) (state : Obs C) (path : list action)
    (applied : list action) (e' : Env C) (x : Obs C * reward * bool) : Prop :=
  ∃ outs rest,
    path = applied ++ rest
    ∧ steps_to e0 applied e' outs
    ∧ stops_at_done outs rest x.2
    ∧ x.1.2 = foldl (λ total out, total + out.1.2) 0 outs
    ∧ x.1.1 = tensorize C (default state ((λ out, out.1.1) <$> last outs)).

(** No event of the run is [set_terminal(True)] on the root. *)
Definition root_kept_open (s : Agent C) (evs : list event) (s' : Agent C) : Prop :=
  Forall (λ ev, ev ≠ EvSetTerminal [] true) evs.

(** The class of the agent is the one of before the run. *)
Definition cls_kept (s : Agent C) (evs : list event) (s' : Agent C) : Prop :=
  cls s' = cls s.

(** A run keeps the keys of the children of every node different. *)
Definition keys_kept (s : Agent C) (evs : list event) (s' : Agent C) : Prop :=
  all_nodes well_keyed (mcts_head s) -> all_nodes well_keyed (mcts_head s').

(** A run processes no node. *)
Definition no_visit (s : Agent C) (evs : list event) (s' : Agent C) : Prop :=
  visited evs = [].

(** Whether a step of the path [p], taken from the environment [e], reports
    done. *)
Fixpoint reports_done (e : Env C) (p : list action) : bool :=
  match p with
  | [] => false
  | a :: p' =>
      match env_step C e a with
      | Some (e', (_, _, done)) => done || reports_done e' p'
      | None => false
      end
  end.

(** What [follow_path] returns, from the running total [total]. *)
Definition followed (e0 : Env C) (state : Obs C) (total : reward) (path : list action)
    (applied : list action) (e' : Env C) (x : Obs C * reward * bool) : Prop :=
  ∃ outs rest,
    path = applied ++ rest
    ∧ steps_to e0 applied e' outs
    ∧ stops_at_done outs rest x.2
    ∧ x.1.2 = foldl (λ total out, total + out.1.2) total outs
    ∧ x.1.1 = default state ((λ out, out.1.1) <$> last outs).

(** [I s evs s'] holds of every run of [m]: of the agent before it, its
    events and the agent after it, whether the run returns, raises or runs
    out of fuel. *)
Definition inv (I : Agent C -> list event -> Agent C -> Prop) {A} (m : M C A) : Prop :=
  ∀ s, I s (events (m s)) (final (m s)).

(** Whether the replay of the path [p] from the environment [e] fails: a
    step raises before a step has reported done. *)
Fixpoint step_fails (e : Env C) (p : list action) : bool :=
  match p with
  | [] => false
  | a :: p' =>
      match env_step C e a with
      | Some (e', (_, _, done)) => if done then false else step_fails e' p'
      | None => true
      end
  end.

(** The simulated environment from which [_parse_path] replays a path. *)
Definition replay_start (s : Agent C) (real : Obs C) : Env C :=
  if match env_state C (sim_env s) with
     | None => true
     | Some sim_state => negb (isclose C sim_state real)
     end
  then set_internal_state C (sim_env s) (get_internal_state C (env s))
  else sim_env s.

(** A run changes the simulated environment and the tree, and nothing else
    of the agent. *)
Definition search_state_only (s : Agent C) (evs : list event) (s' : Agent C) : Prop :=
  ∃ e t, s' = with_mcts_head C t (with_sim_env C e s).

(** The parameters of an agent, as a configuration. *)
Definition config_of (s : Agent C) : Config :=
  {| cfg_n_mc_target := n_mc_target s; cfg_n_mc_min := n_mc_min s;
     cfg_n_mc_max := n_mc_max s; cfg_mcts_mode := mcts_mode s;
     cfg_c_puct := c_puct s; cfg_reward_range := reward_range s;
     cfg_log_likelihood_feature := log_likelihood_feature s;
     cfg_beam_size := beam_size s |}.

(** The statistics of the root after a run are the ones of before with the
    returns that the run has backed up: each return is one more visit, is
    added to the sum, and raises the maximum that it exceeds. *)
Definition root_counts_backups (s : Agent C) (evs : list event) (s' : Agent C) : Prop :=
  let returns := (backups evs).*2 in
  MCTSNode.n (mcts_head s') = MCTSNode.n (mcts_head s) + Z.of_nat (length returns)
  ∧ MCTSNode.q (mcts_head s') = MCTSNode.q (mcts_head s) + foldr Z.add 0 returns
  ∧ MCTSNode.q_max (mcts_head s') = foldl Z.max (MCTSNode.q_max (mcts_head s)) returns.

(** The nodes from [node] down to [node ++ q], without the last one. *)
Definition descent (node q : list action) : list (list action) :=
  (λ i, node ++ take i q) <$> seq 0 (length q).

(** The paths that [_greedy] can take from the agent [s]: each action of the
    path is, at its node, the key of a child that the tree of [s] has
    already, or a legal action of the state that a replay of the path to the
    node returned. *)
Definition greedy_route (s : Agent C) (state : Obs C) (p : list action) : Prop :=
  ∀ p' a, p' ++ [a] `prefix_of` p ->
    (∃ nd, MCTSNode.get p' (mcts_head s) = Some nd ∧ a ∈ MCTSNode.keys nd)
    ∨ ∃ s' st total,
        env s' = env s
        ∧ result (_parse_path C state p' s') = Ok (st, total, false)
        ∧ a ∈ find_legal_actions C st.

(** Every replay of a path that [_greedy] can take from [s] returns; it
    reports done when the path has [H] actions or more, and the state that
    it returns has a legal action when it does not report done. *)
Definition episodes_end_within (H : nat) (s : Agent C) (state : Obs C) : Prop :=
  ∀ s' p, env s' = env s -> greedy_route s state p ->
    ∃ st total dn,
      result (_parse_path C state p s') = Ok (st, total, dn)
      ∧ ((H ≤ length p)%nat -> dn = true)
      ∧ (dn = false -> find_legal_actions C st ≠ []).

End Specs.

(** The tree [t'] has every node of [t], with the same step reward, at
    least its visits and its maximum, and its children before the new
    ones. *)
Definition grows (t t' : MCTSNode.t) : Prop :=
  ∀ p nd, MCTSNode.get p t = Some nd ->
    ∃ nd', MCTSNode.get p t' = Some nd'
           ∧ MCTSNode.q_step nd' = MCTSNode.q_step nd
           ∧ MCTSNode.n nd <= MCTSNode.n nd'
           ∧ MCTSNode.q_max nd <= MCTSNode.q_max nd'
           ∧ MCTSNode.keys nd `prefix_of` MCTSNode.keys nd'.

(** ** Concrete collaborators, to run the agents on

    An environment that counts its steps: the state is the number of steps
    taken, an episode is done in the states that [finished] holds of, the step reward of action
    [a] is [-(a + 1)], and [legal] lists the legal actions of a state.  The
    policy network returns the action of each row, and [select_puct] picks
    the first child. *)
Definition counter_env (finished : Z -> bool) (legal : Z -> list action) : Collaborators :=
  {| Env := Z; Obs := Z; Internal := Z; Prob := Z;
     env_state := Some;
     env_step := λ e a, Some (e + 1, (e + 1, - (a + 1), finished (e + 1)));
     get_internal_state := id;
     set_internal_state := λ _ i, i;
     no_reset_at_episode_end := id;
     compute_log_likelihood := λ _ a, - (a + 1);
     isclose := Z.eqb;
     find_legal_actions := legal;
     tensorize := id;
     actor := λ rows, (λ r, r.1.1) <$> rows;
     uniform := id;
     log := id;
     select_puct := λ nd _ _ _, head (MCTSNode.keys nd) |}.

(** Episodes of two steps, three legal actions everywhere. *)
Definition two_steps : Collaborators := counter_env (Z.leb 2) (λ _, [0; 1; 2]).

(** An agent of class [k] as its constructor leaves it. *)
Definition new_agent (C : Collaborators) (k : AgentClass) (e : Env C) (cfg : Config) : Agent C :=
  {| cls := k; env := e; sim_env := no_reset_at_episode_end C e;
     n_mc_target := cfg_n_mc_target cfg; n_mc_min := cfg_n_mc_min cfg;
     n_mc_max := cfg_n_mc_max cfg; mcts_mode := cfg_mcts_mode cfg;
     c_puct := cfg_c_puct cfg; reward_range := cfg_reward_range cfg;
     log_likelihood_feature := cfg_log_likelihood_feature cfg;
     beam_size := cfg_beam_size cfg;
     mcts_head := MCTSNode.fresh (cfg_reward_range cfg).1 (cfg_reward_range cfg).2 0;
     episode_reward := 0 |}.

Definition two_steps_agent (k : AgentClass) : Agent two_steps :=
  new_agent two_steps k (0 : Z) default_config.

(** Episodes of two steps with a single legal action, and an agent whose
    root has been expanded by a first decision. *)
Definition one_action : Collaborators := counter_env (Z.leb 2) (λ _, [0]).

Definition one_action_agent : Agent one_action :=
  final (_mcts one_action (0 : Z) 1000 (new_agent one_action MCTSAgent (0 : Z) default_config)).

(** Episodes that never end, three legal actions everywhere. *)
Definition endless : Collaborators := counter_env (λ _, false) (λ _, [0; 1; 2]).

(** Episodes of two steps in which no state has a legal action. *)
Definition dead_end : Collaborators := counter_env (Z.leb 2) (λ _, []).

(** The configurations that the specification asks the constructors to
    accept: a known aggregation mode, positive and ordered budget bounds, a
    positive exploration constant, a closed reward interval, a beam of at
    least one node. *)
Definition valid_config (cfg : Config) : Prop :=
  (cfg_mcts_mode cfg = "mean" ∨ cfg_mcts_mode cfg = "max")
  ∧ 0 < cfg_n_mc_min cfg
  ∧ cfg_n_mc_min cfg <= cfg_n_mc_max cfg
  ∧ 0 < cfg_c_puct cfg
  ∧ (cfg_reward_range cfg).1 <= (cfg_reward_range cfg).2
  ∧ 1 <= cfg_beam_size cfg.

(** A configuration with an unknown mode, [n_mc_min > n_mc_max], a negative
    [c_puct] and an empty beam. *)
Definition bad_config : Config :=
  {| cfg_n_mc_target := 5; cfg_n_mc_min := 10; cfg_n_mc_max := 5;
     cfg_mcts_mode := "median"; cfg_c_puct := -1; cfg_reward_range := (-200, 0);
     cfg_log_likelihood_feature := true; cfg_beam_size := 0 |}.


(** An environment that counts its steps and never reports done, whose
    steps raise from the second one on. *)
Definition fragile : Collaborators :=
  {| Env := Z; Obs := Z; Internal := Z; Prob := Z;
     env_state := Some;
     env_step := λ e a, if e <? 1 then Some (e + 1, (e + 1, - (a + 1), false)) else None;
     get_internal_state := id;
     set_internal_state := λ _ i, i;
     no_reset_at_episode_end := id;
     compute_log_likelihood := λ _ a, - (a + 1);
     isclose := Z.eqb;
     find_legal_actions := λ _, [0; 1; 2];
     tensorize := id;
     actor := λ rows, (λ r, r.1.1) <$> rows;
     uniform := id;
     log := id;
     select_puct := λ nd _ _ _, head (MCTSNode.keys nd) |}.

(** A memory for the training loop: the stored steps in a list, and as the
    loss of an episode [-sum(log_probs)] of the log-probabilities stored,
    which have to be scalars. *)
Definition steps_memory : Type := list (pyval Z * reward).

Definition steps_store (h : steps_memory) (log_prob : pyval Z) (r : reward) : steps_memory :=
  h ++ [(log_prob, r)].

Definition steps_clear (h : steps_memory) : steps_memory := [].

Definition steps_loss (h : steps_memory) : res reward :=
  match mapM (λ x : pyval Z * reward, match x.1 with PyScalar p => Some p | _ => None end) h with
  | Some ps => Ok (- foldr Z.add 0 ps)
  | None => Raise TypeError
  end.

(** An agent in training mode with one step in its memory. *)
Definition training_agent : Learner two_steps steps_memory :=
  {| agent := two_steps_agent MCTSAgent; training := true;
     history := [(PyScalar (-1), -1)] |}.

(** An agent in evaluation mode whose root has been expanded by a first
    decision. *)
Definition playing_agent : Learner one_action steps_memory :=
  {| agent := one_action_agent; training := false; history := [] |}.


(** ** Reasoning about runs *)

Section Runs.

Variable C : Collaborators.
#[local] Abbreviation M := (M C).

Lemma bind_run {A B} (m : M A) (f : A -> M B) (s : Agent C) :
  (m ≫= f) s =
    match result (m s) with
    | Ok a =>
        {| result := result (f a (final (m s)));
           final := final (f a (final (m s)));
           events := events (m s) ++ events (f a (final (m s))) |}
    | Raise e => {| result := Raise e; final := final (m s); events := events (m s) |}
    | OutOfFuel => {| result := OutOfFuel; final := final (m s); events := events (m s) |}
    end.
Proof. reflexivity. Qed.

Lemma bind_Ok {A B} (m : M A) (f : A -> M B) (s : Agent C) (b : B) :
  result ((m ≫= f) s) = Ok b ->
  ∃ a, result (m s) = Ok a ∧ result (f a (final (m s))) = Ok b
       ∧ final ((m ≫= f) s) = final (f a (final (m s)))
       ∧ events ((m ≫= f) s) = events (m s) ++ events (f a (final (m s))).
Proof.
  rewrite bind_run. destruct (result (m s)) as [a| |] eqn:E; simpl; try discriminate.
  intros H. exists a. by rewrite H.
Qed.

Lemma bind_Ok_intro {A B} (m : M A) (f : A -> M B) (s : Agent C) (a : A) :
  result (m s) = Ok a ->
  result ((m ≫= f) s) = result (f a (final (m s)))
  ∧ final ((m ≫= f) s) = final (f a (final (m s)))
  ∧ events ((m ≫= f) s) = events (m s) ++ events (f a (final (m s))).
Proof. intros E. rewrite bind_run, E. done. Qed.

(** The replay of the empty path takes no step. *)
Lemma parse_path_nil (state : Obs C) (s : Agent C) (x : Obs C * reward * bool) :
  result (_parse_path C state [] s) = Ok x -> x = (tensorize C state, 0, false).
Proof.
  unfold _parse_path. intros H.
  apply bind_Ok in H as (d & _ & H & _).
  apply bind_Ok in H as (u & _ & H & _).
  rewrite bind_run in H. unfold mret, M_ret in H. cbn in H. by injection H as <-.
Qed.

(** *** Replay of a path *)

Lemma with_sim_env_same (s : Agent C) : with_sim_env C (sim_env s) s = s.
Proof. by destruct s. Qed.

Lemma sim_step_run (a : action) (s : Agent C) :
  sim_step C a s =
    match env_step C (sim_env s) a with
    | Some (e1, out) => {| result := Ok out; final := with_sim_env C e1 s; events := [EvStep a] |}
    | None => {| result := Raise EnvError; final := s; events := [EvStep a] |}
    end.
Proof.
  unfold sim_step. rewrite !bind_run. cbn.
  destruct (env_step C (sim_env s) a) as [[e1 out]|]; reflexivity.
Qed.

Lemma follow_path_cons (a : action) (path : list action) (state : Obs C) (total : reward)
    (s : Agent C) :
  follow_path C (a :: path) state total s =
    match env_step C (sim_env s) a with
    | Some (e1, (st, r, done)) =>
        if done then
          {| result := Ok (st, total + r, true); final := with_sim_env C e1 s;
             events := [EvStep a] |}
        else
          let o := follow_path C path st (total + r) (with_sim_env C e1 s) in
          {| result := result o; final := final o; events := EvStep a :: events o |}
    | None => {| result := Raise EnvError; final := s; events := [EvStep a] |}
    end.
Proof.
  cbn [follow_path]. rewrite bind_run, sim_step_run.
  destruct (env_step C (sim_env s) a) as [[e1 [[st r] [|]]]|]; reflexivity.
Qed.

Lemma steps_to_outs_nil (e e' : Env C) (acts : list action) :
  steps_to C e acts e' [] -> acts = [] ∧ e' = e.
Proof. by inversion 1. Qed.

Lemma last_obs_cons (out : Obs C * reward * bool) (outs : list (Obs C * reward * bool))
    (state : Obs C) :
  default state ((λ o, o.1.1) <$> last (out :: outs))
  = default out.1.1 ((λ o, o.1.1) <$> last outs).
Proof.
  revert out state. induction outs as [|o outs IH]; intros out state; [done|].
  change (last (out :: o :: outs)) with (last (o :: outs)).
  by rewrite (IH o state), (IH o out.1.1).
Qed.

Lemma follow_path_sound (path : list action) (state : Obs C) (total : reward) (s : Agent C)
    (applied : list action) (x : Obs C * reward * bool) :
  result (follow_path C path state total s) = Ok x ->
  events (follow_path C path state total s) = EvStep <$> applied ->
  final (follow_path C path state total s)
    = with_sim_env C (sim_env (final (follow_path C path state total s))) s
  ∧ followed C (sim_env s) state total path applied
      (sim_env (final (follow_path C path state total s))) x.
Proof.
  revert state total s applied.
  induction path as [|a path IH]; intros state total s applied.
  - cbn. intros [= <-] Happ. destruct applied; [|done].
    split; [by rewrite with_sim_env_same|].
    exists [], []. repeat split; try done. constructor.
  - rewrite follow_path_cons.
    destruct (env_step C (sim_env s) a) as [[e1 [[st r] dn]]|] eqn:Hstep; [|done].
    destruct dn.
    + cbn. intros [= <-] Happ.
      destruct applied as [|a' [|? ?]]; try done. injection Happ as <-.
      split; [done|].
      exists [(st, r, true)], path. repeat split; try done.
      * econstructor; [exact Hstep | constructor].
      * by exists [], (st, r, true).
    + cbn. intros Hres Happ.
      destruct applied as [|a' applied]; [done|]. injection Happ as <- Happ.
      destruct (IH st (total + r) _ applied Hres Happ) as (Hfin & outs & rest & -> & Hsteps & Hstop & Htot & Hst).
      split; [by rewrite Hfin at 1|].
      cbn [sim_env with_sim_env] in Hsteps.
      exists ((st, r, false) :: outs), rest. repeat split; try done.
      * econstructor; [exact Hstep | exact Hsteps].
      * unfold stops_at_done in *. destruct (x.2).
        -- destruct Hstop as (outs0 & out & -> & Hd & Hnd).
           exists ((st, r, false) :: outs0), out. repeat split; try done.
           by constructor.
        -- destruct Hstop as [-> Hnd]. split; [done|]. by constructor.
      * by rewrite last_obs_cons.
Qed.

Lemma follow_path_complete (path : list action) (state : Obs C) (total : reward) (s : Agent C)
    (applied : list action) (e' : Env C) (x : Obs C * reward * bool) :
  followed C (sim_env s) state total path applied e' x ->
  result (follow_path C path state total s) = Ok x
  ∧ final (follow_path C path state total s) = with_sim_env C e' s
  ∧ events (follow_path C path state total s) = EvStep <$> applied.
Proof.
  intros (outs & rest & -> & Hsteps & Hstop & Htot & Hst).
  remember (sim_env s) as e0 eqn:He0.
  revert state total s He0 Htot Hst.
  induction Hsteps as [e|e a e1 [[st r] dn] acts e' outs Hstep Hsteps IH];
    intros state total s He0 Htot Hst.
  - unfold stops_at_done in Hstop. destruct x as [[xs xt] [|]]; cbn in *.
    + destruct Hstop as (outs0 & out & Hnil & _). by destruct outs0.
    + destruct Hstop as [-> _]. subst. by rewrite with_sim_env_same.
  - cbn [app]. rewrite follow_path_cons. subst e. rewrite Hstep.
    unfold stops_at_done in Hstop. destruct dn.
    + destruct x as [[xs xt] [|]]; cbn in *.
      * destruct Hstop as (outs0 & out & Heq & Hd & Hnd).
        destruct outs0 as [|o outs0].
        -- injection Heq as <- ->.
           destruct (steps_to_outs_nil _ _ _ Hsteps) as [-> ->]. by subst.
        -- injection Heq as <- _. by inversion Hnd.
      * destruct Hstop as [_ Hnd]. by inversion Hnd.
    + cbn zeta.
      assert (stops_at_done C outs rest x.2) as Hstop'.
      { unfold stops_at_done. destruct (x.2).
        - destruct Hstop as (outs0 & out & Heq & Hd & Hnd).
          destruct outs0 as [|o outs0].
          + injection Heq as <- _. done.
          + injection Heq as <- ->. exists outs0, out. by inversion Hnd.
        - destruct Hstop as [-> Hnd]. by inversion Hnd. }
      destruct (IH Hstop' st (total + r) (with_sim_env C e1 s)) as (Hr & Hf & He); try done.
      { by rewrite Hst, last_obs_cons. }
      cbn. by rewrite Hr, Hf, He.
Qed.

Lemma sim_env_diverged_run (s : Agent C) (real : Obs C) :
  env_state C (env s) = Some real ->
  sim_env_diverged C s =
    {| result := Ok (match env_state C (sim_env s) with
                     | None => true
                     | Some sim_state => negb (isclose C sim_state real)
                     end);
       final := s; events := [] |}.
Proof.
  intros Hreal. unfold sim_env_diverged. rewrite bind_run. cbn. rewrite Hreal.
  by destruct (env_state C (sim_env s)).
Qed.

Lemma parse_path_run (state : Obs C) (path : list action) (s : Agent C) (real : Obs C) :
  env_state C (env s) = Some real ->
  let diverged :=
    match env_state C (sim_env s) with
    | None => true
    | Some sim_state => negb (isclose C sim_state real)
    end in
  let s0 :=
    if diverged
    then with_sim_env C (set_internal_state C (sim_env s) (get_internal_state C (env s))) s
    else s in
  let o := follow_path C path state 0 s0 in
  _parse_path C state path s =
    {| result := match result o with
                 | Ok (st, total, terminal) => Ok (tensorize C st, total, terminal)
                 | Raise e => Raise e
                 | OutOfFuel => OutOfFuel
                 end;
       final := final o;
       events := (if diverged then [EvSetInternalState] else []) ++ events o |}.
Proof.
  intros Hreal. cbn zeta. unfold _parse_path.
  rewrite bind_run, (sim_env_diverged_run s real Hreal). cbn [result final events].
  set (d := match env_state C (sim_env s) with None => true | Some _ => _ end).
  set (s0 := if d then _ else s).
  assert ((if d then resync C else mret ()) s
          = {| result := Ok (); final := s0;
               events := if d then [EvSetInternalState] else [] |}) as Hsync.
  { subst s0. by destruct d. }
  rewrite bind_run, Hsync. cbn [result final events].
  rewrite bind_run.
  destruct (result (follow_path C path state 0 s0)) as [[[st total] terminal]| |];
    cbn; by rewrite ?app_nil_r.
Qed.

(** *** Invariants of every outcome of a run *)

Section Invariant.

(** [I s evs s'] relates the agent before a run to the events and the
    agent after it, whether the run returns, raises or runs out of fuel. *)
Variable I : Agent C -> list event -> Agent C -> Prop.
Hypothesis I_refl : ∀ s, I s [] s.
Hypothesis I_trans : ∀ s evs s' evs' s'', I s evs s' -> I s' evs' s'' -> I s (evs ++ evs') s''.

#[local] Abbreviation inv := (inv C I).

Lemma inv_ret {A} (a : A) : inv (mret a).
Proof. intros s. apply I_refl. Qed.

Lemma inv_raise {A} (e : exn) : inv (raise C e : M A).
Proof. intros s. apply I_refl. Qed.

Lemma inv_out_of_fuel {A} : inv (out_of_fuel C : M A).
Proof. intros s. apply I_refl. Qed.

Lemma inv_get_agent : inv (get_agent C).
Proof. intros s. apply I_refl. Qed.

Lemma inv_or_raise {A} (e : exn) (o : option A) : inv (or_raise C e o).
Proof. destruct o; [apply inv_ret | apply inv_raise]. Qed.

Lemma inv_bind {A B} (m : M A) (f : A -> M B) :
  inv m -> (∀ a, inv (f a)) -> inv (m ≫= f).
Proof.
  intros Hm Hf s. rewrite bind_run. specialize (Hm s).
  destruct (result (m s)) as [a| |]; simpl; try done.
  eapply I_trans; [exact Hm | apply Hf].
Qed.

Lemma inv_mapM {A B} (f : A -> M B) (l : list A) :
  (∀ a, inv (f a)) -> inv (mapM f l).
Proof.
  intros Hf. induction l as [|a l IH]; simpl; [apply inv_ret|].
  apply inv_bind; [apply Hf|]. intros b.
  apply inv_bind; [apply IH|]. intros bs. apply inv_ret.
Qed.

Lemma inv_repeat_times (k : nat) (body : M unit) : inv body -> inv (repeat_times C k body).
Proof.
  intros Hb. induction k as [|k IH]; simpl; [apply inv_ret|].
  apply inv_bind; [apply Hb | intros _; apply IH].
Qed.

Lemma inv_modify (f : Agent C -> Agent C) : (∀ s, I s [] (f s)) -> inv (modify C f).
Proof. intros Hf s. apply Hf. Qed.

(** The invariants of interest hold whatever happens to the simulated
    environment, and for the changes that the node methods make to the tree;
    [E] are the events they allow. *)
Variable E : event -> Prop.
Hypothesis I_emit : ∀ s ev, E ev -> I s [ev] s.
Hypothesis I_sim_env : ∀ s e, I s [] (with_sim_env C e s).
Hypothesis I_set_terminal : ∀ s p b,
  I s [] (with_mcts_head C (MCTSNode.update p (MCTSNode.set_terminal b) (mcts_head s)) s).
Hypothesis I_expand : ∀ s p actions rs,
  I s [] (with_mcts_head C (MCTSNode.update p (MCTSNode.expand actions rs) (mcts_head s)) s).
Hypothesis I_in_beam : ∀ s p,
  I s [] (with_mcts_head C (MCTSNode.update p (MCTSNode.set_in_beam true) (mcts_head s)) s).
Hypothesis I_give : ∀ s r p,
  I s [] (with_mcts_head C (MCTSNode.give_reward r p (mcts_head s)) s).

Lemma inv_emit (ev : event) : E ev -> inv (emit C ev).
Proof. intros Hev s. by apply I_emit. Qed.

Ltac inv_go :=
  repeat first
    [ match goal with
      | |- inv (mret _) => apply inv_ret
      | |- inv (raise _ _) => apply inv_raise
      | |- inv (out_of_fuel _) => apply inv_out_of_fuel
      | |- inv (get_agent _) => apply inv_get_agent
      | |- inv (or_raise _ _ _) => apply inv_or_raise
      | |- inv (modify _ _) =>
          apply inv_modify; intros ?;
          first [apply I_sim_env | apply I_set_terminal | apply I_expand
                | apply I_in_beam | apply I_give]
      | |- inv (mbind _ _) => apply inv_bind; [|intros ?]
      | |- inv (mapM _ _) => apply inv_mapM; intros ?
      | |- inv (match ?x with _ => _ end) => destruct x
      end
    | progress cbn beta iota zeta ].

Lemma inv_sim_env_diverged : inv (sim_env_diverged C).
Proof. unfold sim_env_diverged. inv_go. Qed.

Lemma inv_resync : E EvSetInternalState -> inv (resync C).
Proof. intros H. unfold resync. inv_go. by apply inv_emit. Qed.

Lemma inv_sim_step (a : action) : E (EvStep a) -> inv (sim_step C a).
Proof. intros H. unfold sim_step. inv_go. by apply inv_emit. Qed.

Lemma inv_follow_path (path : list action) (state : Obs C) (total : reward) :
  (∀ a, E (EvStep a)) -> inv (follow_path C path state total).
Proof.
  intros H. revert state total.
  induction path as [|a path IH]; intros state total; cbn [follow_path]; inv_go.
  - by apply inv_sim_step.
  - apply IH.
Qed.

Lemma inv_parse_path (state : Obs C) (path : list action) :
  E EvSetInternalState -> (∀ a, E (EvStep a)) -> inv (_parse_path C state path).
Proof.
  intros H1 H2. unfold _parse_path. inv_go.
  - apply inv_sim_env_diverged.
  - by apply inv_resync.
  - by apply inv_follow_path.
Qed.

Lemma inv_parse_action (a : action) (from_which_env : string) :
  E EvSetInternalState -> inv (_parse_action C a from_which_env).
Proof.
  intros H. unfold _parse_action. inv_go.
  - apply inv_sim_env_diverged.
  - by apply inv_resync.
Qed.

Lemma inv_parse_action_sim (a : action) : inv (_parse_action C a "sim").
Proof.
  unfold _parse_action.
  destruct (decide ("sim" = "real")) as [?|_]; [done|].
  destruct (decide ("sim" = "sim")) as [_|?]; [|done].
  inv_go.
Qed.

Lemma inv_batch_rows (state : Obs C) (rows : list (action * option reward)) :
  E EvSetInternalState -> inv (batch_rows C state rows).
Proof.
  intros H. induction rows as [|[a l] rows IH]; cbn [batch_rows]; inv_go; try apply IH.
  by apply inv_parse_action.
Qed.

Lemma inv_batch_rows_given (state : Obs C) (legal_actions : list action) (rs : list reward) :
  inv (batch_rows C state (zip legal_actions (Some <$> rs))).
Proof.
  revert rs. induction legal_actions as [|a l IH]; intros [|r rs];
    cbn [batch_rows zip zip_with fmap list_fmap]; inv_go; apply IH.
Qed.

(** With [step_rewards] given, as in every call of [_mcts], the policy is
    evaluated without a call on a collaborator. *)
Lemma inv_evaluate_policy (state : Obs C) (legal_actions : list action)
    (rs : list reward) (a : option action) :
  inv (_evaluate_policy C state legal_actions (Some rs) a).
Proof.
  unfold _evaluate_policy, MCTSAgent_evaluate_policy, _batch_state, Random_evaluate_policy.
  inv_go; apply inv_batch_rows_given.
Qed.

Lemma inv_torch_log (v : pyval (Prob C)) : inv (torch_log C v).
Proof. unfold torch_log. inv_go. Qed.

Lemma inv_the_node (p : list action) : inv (the_node C p).
Proof. unfold the_node. inv_go. Qed.

Lemma inv_node_set_terminal (p : list action) (b : bool) :
  E (EvSetTerminal p b) -> inv (node_set_terminal C p b).
Proof. intros H. unfold node_set_terminal. inv_go. by apply inv_emit. Qed.

Lemma inv_node_give_reward (p : list action) (r : reward) :
  E (EvGiveReward p r) -> inv (node_give_reward C p r).
Proof. intros H. unfold node_give_reward. inv_go. by apply inv_emit. Qed.

Lemma inv_node_set_in_beam (p : list action) : inv (node_set_in_beam C p).
Proof. unfold node_set_in_beam. inv_go. Qed.

Lemma inv_expand_node (p : list action) (this_state : Obs C) :
  (∀ acts, E (EvExpand p acts)) -> inv (expand_node C p this_state).
Proof.
  intros H. unfold expand_node, node_expand. inv_go.
  - apply inv_parse_action_sim.
  - by apply inv_emit.
Qed.

Lemma inv_bind_post {A B} (Q : A -> Prop) (m : M A) (f : A -> M B) :
  (∀ s a, result (m s) = Ok a -> Q a) ->
  inv m -> (∀ a, Q a -> inv (f a)) -> inv (m ≫= f).
Proof.
  intros HQ Hm Hf s. rewrite bind_run. specialize (Hm s). specialize (HQ s).
  destruct (result (m s)) as [a| |]; simpl; try done.
  eapply I_trans; [exact Hm | by apply Hf, HQ].
Qed.

(** The events of the traversals.  The flag passed to [set_terminal] at
    the root is always [False]. *)
Hypothesis E_sync : E EvSetInternalState.
Hypothesis E_step : ∀ a, E (EvStep a).
Hypothesis E_term : ∀ p b, (p = [] -> b = false) -> E (EvSetTerminal p b).
Hypothesis E_expand : ∀ p acts, E (EvExpand p acts).

(** Replay of the path of a node, then [node.set_terminal(terminal)]. *)
Ltac inv_visit node :=
  apply inv_bind_post with (Q := λ x : Obs C * reward * bool, node = [] -> x.2 = false);
  [ let H := fresh in intros ? ? H ->; by rewrite (parse_path_nil _ _ _ H)
  | by apply inv_parse_path
  | let Hq := fresh in
    intros [[this_state total] terminal] Hq; cbn in Hq;
    apply inv_bind; [by apply inv_node_set_terminal, E_term | intros _] ].

Lemma inv_mcts_descend (max_steps : nat) (state : Obs C) (node : list action)
    (total_reward : reward) :
  inv (mcts_descend C max_steps state node total_reward).
Proof.
  revert node total_reward.
  induction max_steps as [|k IH]; intros node total_reward; cbn [mcts_descend];
    [apply inv_ret|].
  inv_visit node.
  destruct terminal; [apply inv_ret|].
  apply inv_bind; [apply inv_the_node|]. intros nd.
  apply inv_bind.
  { destruct (decide _); [by apply inv_expand_node | apply inv_ret]. }
  intros _. apply inv_bind; [apply inv_the_node|]. intros nd'.
  apply inv_bind; [apply inv_evaluate_policy|]. intros probs.
  apply inv_bind; [apply inv_get_agent|]. intros s'.
  apply inv_bind; [apply inv_or_raise|]. intros a.
  apply inv_bind; [apply inv_or_raise|]. intros _.
  apply IH.
Qed.

Hypothesis E_give : ∀ p r, E (EvGiveReward p r).

Lemma inv_mcts_trajectory (max_steps : nat) (state : Obs C) :
  inv (mcts_trajectory C max_steps state).
Proof.
  unfold mcts_trajectory.
  apply inv_bind; [apply inv_mcts_descend|]. intros [node total].
  apply inv_bind; [apply inv_get_agent|]. intros s.
  by apply inv_node_give_reward.
Qed.

Lemma inv_mcts (state : Obs C) (max_steps : nat) : inv (_mcts C state max_steps).
Proof.
  unfold _mcts, for_range.
  apply inv_bind; [apply inv_get_agent|]. intros s.
  apply inv_bind; [apply inv_repeat_times, inv_mcts_trajectory|]. intros _.
  apply inv_bind; [apply inv_get_agent|]. intros s'.
  apply inv_bind; [apply inv_or_raise|]. intros a.
  apply inv_bind; [apply inv_evaluate_policy|]. intros v.
  apply inv_bind; [apply inv_torch_log|]. intros lp. apply inv_ret.
Qed.

Lemma inv_greedy_loop (fuel : nat) (state : Obs C) (node : list action) :
  inv (greedy_loop C fuel state node).
Proof.
  revert node. induction fuel as [|fuel IH]; intros node; cbn [greedy_loop].
  { apply inv_bind; [apply inv_the_node|]. intros nd.
    destruct (MCTSNode.terminal nd); [apply inv_ret | apply inv_out_of_fuel]. }
  apply inv_bind; [apply inv_the_node|]. intros nd.
  destruct (MCTSNode.terminal nd); [apply inv_ret|].
  inv_visit node.
  apply inv_bind; [apply inv_the_node|]. intros nd1.
  apply inv_bind.
  { destruct (_ && _); [by apply inv_expand_node | apply inv_ret]. }
  intros _. apply inv_bind; [apply inv_the_node|]. intros nd2.
  apply inv_bind.
  { destruct (MCTSNode.terminal nd2); [|apply inv_ret].
    apply inv_bind; [apply inv_get_agent|]. intros s.
    by apply inv_node_give_reward. }
  intros _. apply inv_bind; [apply inv_the_node|]. intros nd3.
  destruct (negb _); [|apply IH].
  apply inv_bind; [apply inv_or_raise|]. intros a.
  apply inv_bind; [apply inv_or_raise|]. intros _. apply IH.
Qed.

Lemma inv_greedy (fuel : nat) (state : Obs C) : inv (_greedy C fuel state).
Proof. apply inv_greedy_loop. Qed.

Section Beam.

(** The selections of a beam search of width [bs], and what it keeps. *)
Variable bs : Z.
Hypothesis E_select : ∀ p nd, E (EvSelectBeam p (MCTSNode.select_beam_search bs nd)).
Hypothesis E_keep : ∀ next_beam, E (EvKeep next_beam (keep_top bs next_beam)).

Lemma inv_beam_process (node : list action) (this_state : Obs C) (total : reward) :
  inv (beam_process C bs node this_state total).
Proof.
  unfold beam_process.
  apply inv_bind; [apply inv_the_node|]. intros nd1.
  apply inv_bind.
  { destruct (_ && _); [by apply inv_expand_node | apply inv_ret]. }
  intros _. apply inv_bind; [apply inv_the_node|]. intros nd2.
  apply inv_bind.
  { destruct (MCTSNode.terminal nd2); [|apply inv_ret].
    apply inv_bind; [apply inv_get_agent|]. intros s.
    by apply inv_node_give_reward. }
  intros _. apply inv_bind; [apply inv_the_node|]. intros nd3.
  cbn zeta. destruct (_ <=? _); [apply inv_ret|].
  apply inv_bind; [by apply inv_emit|]. intros _.
  apply inv_bind.
  { apply inv_mapM. intros a. apply inv_bind; [apply inv_or_raise|].
    intros c. apply inv_ret. }
  intros pushed. apply inv_bind; [apply inv_node_set_in_beam|]. intros _.
  apply inv_ret.
Qed.

Lemma inv_beam_visit (state : Obs C) (node : list action) :
  inv (beam_visit C state bs node).
Proof. unfold beam_visit. inv_visit node. apply inv_beam_process. Qed.

Lemma inv_beam_round (state : Obs C) (beam next_beam : list (reward * list action)) :
  inv (beam_round C state bs beam next_beam).
Proof.
  revert next_beam. induction beam as [|[r node] beam IH]; intros next_beam;
    cbn [beam_round]; [apply inv_ret|].
  apply inv_bind; [apply inv_beam_visit|]. intros pushed. apply IH.
Qed.

Lemma inv_beam_loop (fuel : nat) (state : Obs C)
    (beam next_beam : list (reward * list action)) :
  inv (beam_loop C fuel state bs beam next_beam).
Proof.
  revert beam next_beam. induction fuel as [|fuel IH]; intros beam next_beam;
    cbn [beam_loop]; destruct (_ && _); try apply inv_ret; [apply inv_out_of_fuel|].
  apply inv_bind; [apply inv_beam_round|]. intros nb. cbn zeta.
  apply inv_bind; [by apply inv_emit|]. intros _. apply IH.
Qed.

Lemma inv_beam_search (fuel : nat) (state : Obs C) :
  inv (_beam_search C fuel state bs).
Proof.
  unfold _beam_search.
  apply inv_bind; [apply inv_get_agent|]. intros s.
  apply inv_bind; [apply inv_beam_loop|]. intros _. apply inv_ret.
Qed.

End Beam.

Lemma inv_predict (fuel : nat) (state : Obs C) (max_steps : nat) :
  (∀ bs p nd, E (EvSelectBeam p (MCTSNode.select_beam_search bs nd))) ->
  (∀ bs next_beam, E (EvKeep next_beam (keep_top bs next_beam))) ->
  inv (_predict C fuel state max_steps).
Proof.
  intros E_select E_keep. unfold _predict.
  apply inv_bind; [apply inv_get_agent|]. intros s.
  destruct (cls s); try apply inv_mcts.
  apply inv_bind; [apply inv_greedy|]. intros _.
  apply inv_bind; [by apply inv_beam_search|]. intros _.
  apply inv_mcts.
Qed.

End Invariant.

(** *** The real environment *)

Ltac frame_env lem :=
  intros s; apply (lem (env_kept C)) with (E := λ _, True);
  unfold env_kept; try done; congruence.

Lemma parse_path_env (state : Obs C) (path : list action) (s : Agent C) :
  env (final (_parse_path C state path s)) = env s.
Proof. revert s. frame_env inv_parse_path. Qed.

Lemma mcts_env (state : Obs C) (max_steps : nat) (s : Agent C) :
  env (final (_mcts C state max_steps s)) = env s.
Proof. revert s. frame_env inv_mcts. Qed.

Lemma greedy_env (fuel : nat) (state : Obs C) (s : Agent C) :
  env (final (_greedy C fuel state s)) = env s.
Proof. revert s. frame_env inv_greedy. Qed.

Lemma beam_search_env (fuel : nat) (state : Obs C) (bs : Z) (s : Agent C) :
  env (final (_beam_search C fuel state bs s)) = env s.
Proof. revert s. frame_env inv_beam_search. Qed.

Lemma predict_env (fuel : nat) (state : Obs C) (max_steps : nat) (s : Agent C) :
  env (final (_predict C fuel state max_steps s)) = env s.
Proof. revert s. frame_env inv_predict. Qed.

(** *** Counting the passes of [_mcts] *)

Lemma backups_app (evs evs' : list event) : backups (evs ++ evs') = backups evs ++ backups evs'.
Proof. apply omap_app. Qed.

Ltac quiet lem :=
  intros s; apply (lem (no_backup C)) with (E := λ ev, backups [ev] = []);
  unfold no_backup; try done;
  [ by intros ? evs ? evs' ? H1 H2; rewrite backups_app, H1, H2 ].

Lemma mcts_descend_no_backup (max_steps : nat) (state : Obs C) (node : list action)
    (total : reward) (s : Agent C) :
  backups (events (mcts_descend C max_steps state node total s)) = [].
Proof. revert s. quiet inv_mcts_descend. Qed.

Lemma evaluate_policy_no_backup (state : Obs C) (l : list action) (rs : list reward)
    (a : option action) (s : Agent C) :
  backups (events (_evaluate_policy C state l (Some rs) a s)) = [].
Proof.
  revert s. apply (inv_evaluate_policy (no_backup C)); unfold no_backup; [done|].
  by intros ? evs ? evs' ? H1 H2; rewrite backups_app, H1, H2.
Qed.

Lemma torch_log_events (v : pyval (Prob C)) (s : Agent C) : events (torch_log C v s) = [].
Proof. by destruct v. Qed.

Lemma or_raise_events {A} (e : exn) (o : option A) (s : Agent C) : events (or_raise C e o s) = [].
Proof. by destruct o. Qed.

Lemma mcts_trajectory_passes (max_steps : nat) (state : Obs C) (s : Agent C) :
  result (mcts_trajectory C max_steps state s) = Ok () ->
  passes (events (mcts_trajectory C max_steps state s)) = 1%nat.
Proof.
  unfold mcts_trajectory, passes. intros H.
  apply bind_Ok in H as ([node total] & _ & H & _ & ->).
  rewrite backups_app, mcts_descend_no_backup. cbn beta iota in *.
  apply bind_Ok in H as (s' & _ & H & _ & ->). done.
Qed.

Lemma repeat_times_passes (k : nat) (body : M unit) (s : Agent C) :
  (∀ s', result (body s') = Ok () -> passes (events (body s')) = 1%nat) ->
  result (repeat_times C k body s) = Ok () ->
  passes (events (repeat_times C k body s)) = k.
Proof.
  intros Hbody. revert s. induction k as [|k IH]; intros s; cbn [repeat_times]; [done|].
  intros H. apply bind_Ok in H as ([] & Hb & H & _ & ->).
  unfold passes in *. rewrite backups_app, length_app, Hbody, IH; done.
Qed.

Lemma mcts_passes (state : Obs C) (max_steps : nat) (s : Agent C) (r : action * pyval (Prob C)) :
  result (_mcts C state max_steps s) = Ok r ->
  passes (events (_mcts C state max_steps s)) =
    Z.to_nat (if decide (length (MCTSNode.children (mcts_head s)) = 1%nat) then 1
              else mcts_budget C state s).
Proof.
  unfold _mcts, for_range. intros H.
  apply bind_Ok in H as (s0 & Hs0 & H & _ & ->). injection Hs0 as <-.
  apply bind_Ok in H as ([] & Hloop & H & _ & ->).
  apply bind_Ok in H as (s1 & _ & H & _ & ->).
  apply bind_Ok in H as (a & _ & H & _ & ->).
  apply bind_Ok in H as (v & _ & H & _ & ->).
  apply bind_Ok in H as (lp & _ & H & _ & ->).
  unfold passes. rewrite !backups_app, evaluate_policy_no_backup, torch_log_events,
    or_raise_events. cbn [events get_agent backups omap app mret M_ret].
  rewrite !app_nil_r.
  apply (repeat_times_passes _ _ _ (mcts_trajectory_passes max_steps state) Hloop).
Qed.

(** *** The root is never marked terminal *)

Ltac root_open lem :=
  intros s; apply (lem (root_kept_open C)) with (E := λ ev, ev ≠ EvSetTerminal [] true);
  unfold root_kept_open;
  solve [ done | intros; by apply Forall_nil | intros; by apply Forall_app
        | intros; by apply Forall_singleton
        | intros p b Hb [= -> ->]; by specialize (Hb eq_refl) ].

Lemma mcts_trajectory_root_open (max_steps : nat) (state : Obs C) (s : Agent C) :
  Forall (λ ev, ev ≠ EvSetTerminal [] true) (events (mcts_trajectory C max_steps state s)).
Proof. revert s. root_open inv_mcts_trajectory. Qed.

Lemma greedy_root_open (fuel : nat) (state : Obs C) (s : Agent C) :
  Forall (λ ev, ev ≠ EvSetTerminal [] true) (events (_greedy C fuel state s)).
Proof. revert s. root_open inv_greedy. Qed.

Lemma beam_search_root_open (fuel : nat) (state : Obs C) (bs : Z) (s : Agent C) :
  Forall (λ ev, ev ≠ EvSetTerminal [] true) (events (_beam_search C fuel state bs s)).
Proof. revert s. root_open inv_beam_search. Qed.

Lemma bind_events_prefix {A B} (m : M A) (f : A -> M B) (s : Agent C) :
  events (m s) `prefix_of` events ((m ≫= f) s).
Proof.
  rewrite bind_run. destruct (result (m s)); cbn; [by apply prefix_app_r | done | done].
Qed.

Lemma parse_path_nil_run (state : Obs C) (s : Agent C) (real : Obs C) :
  env_state C (env s) = Some real ->
  result (_parse_path C state [] s) = Ok (tensorize C state, 0, false)
  ∧ ∀ a, EvStep a ∉ events (_parse_path C state [] s).
Proof.
  intros Hreal. rewrite (parse_path_run state [] s real Hreal). cbn.
  split; [done|]. intros a. rewrite app_nil_r.
  destruct (match env_state C (sim_env s) with None => true | Some _ => _ end);
    [by intros [=]%list_elem_of_singleton | apply not_elem_of_nil].
Qed.

(** A traversal that starts at the root replays the empty path and calls
    [set_terminal(False)] on the root. *)
Lemma visit_root_marks {B} (state : Obs C) (s : Agent C) (real : Obs C)
    (k : Obs C -> reward -> bool -> M B) :
  env_state C (env s) = Some real ->
  EvSetTerminal [] false
  ∈ events (('(this_state, total_reward, terminal) ← _parse_path C state [];
             node_set_terminal C [] terminal;; k this_state total_reward terminal) s).
Proof.
  intros Hreal.
  destruct (parse_path_nil_run state s real Hreal) as [Hres _].
  destruct (bind_Ok_intro (_parse_path C state [])
              (λ '(this_state, total_reward, terminal),
                 node_set_terminal C [] terminal;; k this_state total_reward terminal)
              s _ Hres) as (_ & _ & ->).
  apply elem_of_app. right. cbn beta iota.
  eapply elem_of_prefix; [|apply bind_events_prefix].
  unfold node_set_terminal. eapply elem_of_prefix; [|apply bind_events_prefix].
  cbn. apply elem_of_cons. by left.
Qed.

Lemma mcts_trajectory_marks_root (max_steps : nat) (state : Obs C) (s : Agent C) (real : Obs C) :
  env_state C (env s) = Some real ->
  EvSetTerminal [] false ∈ events (mcts_trajectory C (S max_steps) state s).
Proof.
  intros Hreal. unfold mcts_trajectory.
  eapply elem_of_prefix; [|apply bind_events_prefix].
  cbn [mcts_descend]. by eapply visit_root_marks.
Qed.

Lemma the_node_root (s : Agent C) :
  the_node C [] s = {| result := Ok (mcts_head s); final := s; events := [] |}.
Proof. reflexivity. Qed.

Lemma greedy_marks_root (fuel : nat) (state : Obs C) (s : Agent C) (real : Obs C) :
  env_state C (env s) = Some real ->
  MCTSNode.terminal (mcts_head s) = false ->
  EvSetTerminal [] false ∈ events (_greedy C (S fuel) state s).
Proof.
  intros Hreal Hopen. unfold _greedy. cbn [greedy_loop].
  rewrite bind_run, the_node_root. cbn [result final events app]. rewrite Hopen.
  by eapply visit_root_marks.
Qed.

Lemma beam_search_marks_root (fuel : nat) (state : Obs C) (bs : Z) (s : Agent C) (real : Obs C) :
  env_state C (env s) = Some real ->
  EvSetTerminal [] false ∈ events (_beam_search C (S fuel) state bs s).
Proof.
  intros Hreal. unfold _beam_search. rewrite bind_run. cbn [get_agent result final events app].
  eapply elem_of_prefix; [|apply bind_events_prefix].
  cbn [beam_loop]. cbn [bool_decide decide_rel andb].
  replace (bool_decide ([(episode_reward s, [])] = [])) with false
    by (symmetry; by apply bool_decide_eq_false).
  cbn [andb].
  eapply elem_of_prefix; [|apply bind_events_prefix].
  cbn [beam_round].
  eapply elem_of_prefix; [|apply bind_events_prefix].
  unfold beam_visit. by eapply visit_root_marks.
Qed.

End Runs.

(** ** The random agent *)

Section RandomAgent.

Variable C : Collaborators.

Lemma for_range_cls (n : Z) (max_steps : nat) (state : Obs C) (s : Agent C) :
  cls (final (for_range C n (mcts_trajectory C max_steps state) s)) = cls s.
Proof.
  revert s. unfold for_range. apply (inv_repeat_times C (cls_kept C)); unfold cls_kept.
  - done.
  - intros; congruence.
  - apply (inv_mcts_trajectory C (cls_kept C)) with (E := λ _, True);
      unfold cls_kept; try done. intros; congruence.
Qed.

Lemma or_raise_final {A} (e : exn) (o : option A) (s : Agent C) :
  final (or_raise C e o s) = s.
Proof. by destruct o. Qed.

Lemma Random_evaluate_policy_raises (state : Obs C) (l : list action) (rs : list reward)
    (a : option action) (s : Agent C) :
  cls s = RandomMCTSAgent ->
  result (_evaluate_policy C state l (Some rs) a s) = Raise TypeError.
Proof. intros Hcls. unfold _evaluate_policy. rewrite bind_run. cbn. by rewrite Hcls. Qed.

Lemma Random_mcts_never_returns (state : Obs C) (max_steps : nat) (s : Agent C)
    (r : action * pyval (Prob C)) :
  cls s = RandomMCTSAgent -> result (_mcts C state max_steps s) ≠ Ok r.
Proof.
  intros Hcls H. unfold _mcts in H.
  apply bind_Ok in H as (s0 & Hs0 & H & _). injection Hs0 as <-.
  apply bind_Ok in H as ([] & _ & H & _).
  cbn [get_agent final] in H.
  match type of H with
  | context [final (for_range C ?n ?body s)] =>
      assert (cls (final (for_range C n body s)) = RandomMCTSAgent) as Hcls1
        by (by rewrite for_range_cls);
      set (s1 := final (for_range C n body s)) in *
  end.
  apply bind_Ok in H as (s1' & Hs1 & H & _). injection Hs1 as <-.
  apply bind_Ok in H as (a & _ & H & _).
  cbn [final get_agent] in H. rewrite or_raise_final in H.
  apply bind_Ok in H as (v & Hv & _).
  by rewrite Random_evaluate_policy_raises in Hv.
Qed.

End RandomAgent.


(** ** The tree *)

Lemma assoc_update_same (a : action) (f : MCTSNode.t -> MCTSNode.t)
    (kids : list (action * MCTSNode.t)) :
  MCTSNode.assoc a (MCTSNode.assoc_update a f kids) = f <$> MCTSNode.assoc a kids.
Proof.
  induction kids as [|[b c] kids IH]; [done|]. cbn.
  destruct (decide (a = b)) as [->|Hne]; cbn.
  - by rewrite decide_True.
  - by rewrite decide_False.
Qed.

Lemma assoc_update_other (a b : action) (f : MCTSNode.t -> MCTSNode.t)
    (kids : list (action * MCTSNode.t)) :
  a ≠ b -> MCTSNode.assoc b (MCTSNode.assoc_update a f kids) = MCTSNode.assoc b kids.
Proof.
  intros Hab. induction kids as [|[b' c] kids IH]; [done|]. cbn.
  destruct (decide (a = b')) as [->|Hne]; cbn.
  - by rewrite !decide_False by done.
  - destruct (decide (b = b')); [done | exact IH].
Qed.

Lemma assoc_update_keys (a : action) (f : MCTSNode.t -> MCTSNode.t)
    (kids : list (action * MCTSNode.t)) :
  (MCTSNode.assoc_update a f kids).*1 = kids.*1.
Proof.
  induction kids as [|[b c] kids IH]; [done|]. cbn.
  destruct (decide (a = b)); cbn; [done | by rewrite IH].
Qed.

Lemma get_update_same (p : list action) (f : MCTSNode.t -> MCTSNode.t) (t : MCTSNode.t) :
  MCTSNode.get p (MCTSNode.update p f t) = f <$> MCTSNode.get p t.
Proof.
  revert t. induction p as [|a p IH]; intros t; [done|].
  cbn. unfold MCTSNode.child. cbn. rewrite assoc_update_same.
  destruct (MCTSNode.assoc a (MCTSNode.children t)) as [c|]; cbn; [apply IH | done].
Qed.

Lemma expand_none (nd : MCTSNode.t) : MCTSNode.children (MCTSNode.expand [] [] nd) = MCTSNode.children nd.
Proof. done. Qed.

(** ** Properties of all nodes of a tree *)

Section AllNodes.

Variable P : MCTSNode.t -> Prop.

Lemma all_nodes_here (t : MCTSNode.t) : all_nodes P t -> P t.
Proof. by inversion 1. Qed.

Lemma all_nodes_children (t : MCTSNode.t) :
  all_nodes P t -> Forall (λ x, all_nodes P x.2) (MCTSNode.children t).
Proof. by inversion 1. Qed.

Lemma assoc_elem_of (a : action) (kids : list (action * MCTSNode.t)) (c : MCTSNode.t) :
  MCTSNode.assoc a kids = Some c -> (a, c) ∈ kids.
Proof.
  induction kids as [|[b c'] kids IH]; [done|]. cbn.
  destruct (decide (a = b)) as [->|Hne].
  - intros [= ->]. apply elem_of_cons. by left.
  - intros H. apply elem_of_cons. right. by apply IH.
Qed.

Lemma all_nodes_child (a : action) (t c : MCTSNode.t) :
  all_nodes P t -> MCTSNode.child a t = Some c -> all_nodes P c.
Proof.
  intros Ht Hc. apply all_nodes_children in Ht.
  apply assoc_elem_of in Hc.
  by apply (proj1 (Forall_forall _ _) Ht (a, c)).
Qed.

Lemma all_nodes_get (p : list action) (t nd : MCTSNode.t) :
  all_nodes P t -> MCTSNode.get p t = Some nd -> all_nodes P nd.
Proof.
  revert t. induction p as [|a p IH]; intros t Ht; cbn.
  - by intros [= <-].
  - destruct (MCTSNode.child a t) as [c|] eqn:Hc; [|done].
    apply IH. by eapply all_nodes_child.
Qed.

Lemma all_nodes_same_children (nd nd' : MCTSNode.t) :
  all_nodes P nd -> P nd' -> MCTSNode.children nd' = MCTSNode.children nd -> all_nodes P nd'.
Proof.
  intros Hnd HP Hkids. constructor; [done|]. rewrite Hkids. by apply all_nodes_children.
Qed.

Lemma all_nodes_assoc_update (a : action) (g : MCTSNode.t -> MCTSNode.t)
    (kids : list (action * MCTSNode.t)) :
  (∀ c, all_nodes P c -> all_nodes P (g c)) ->
  Forall (λ x, all_nodes P x.2) kids ->
  Forall (λ x, all_nodes P x.2) (MCTSNode.assoc_update a g kids).
Proof.
  intros Hg. induction 1 as [|[b c] kids Hc Hkids IH]; [constructor|]. cbn.
  destruct (decide (a = b)); constructor; try done. by apply Hg.
Qed.

Hypothesis P_local : local P.

Lemma all_nodes_update (p : list action) (f : MCTSNode.t -> MCTSNode.t) (t : MCTSNode.t) :
  (∀ nd, all_nodes P nd -> all_nodes P (f nd)) ->
  all_nodes P t -> all_nodes P (MCTSNode.update p f t).
Proof.
  intros Hf. revert t. induction p as [|a p IH]; intros t Ht; cbn; [by apply Hf|].
  constructor.
  - apply P_local; [by apply all_nodes_here|]. cbn. apply assoc_update_keys.
  - cbn. apply all_nodes_assoc_update; [exact IH | by apply all_nodes_children].
Qed.

Lemma all_nodes_give_reward (r : reward) (p : list action) (t : MCTSNode.t) :
  (∀ nd, P nd -> P (MCTSNode.bump r nd)) ->
  all_nodes P t -> all_nodes P (MCTSNode.give_reward r p t).
Proof.
  intros Hb. revert t. induction p as [|a p IH]; intros t Ht; cbn [MCTSNode.give_reward].
  - constructor; [by apply Hb, all_nodes_here | cbn; by apply all_nodes_children].
  - constructor.
    + apply Hb, P_local; [by apply all_nodes_here|]. cbn. apply assoc_update_keys.
    + cbn. apply all_nodes_assoc_update; [exact IH | by apply all_nodes_children].
Qed.

Lemma all_nodes_expand_kids (rmin rmax : reward) (new : list (action * reward))
    (kids : list (action * MCTSNode.t)) :
  (∀ r, P (MCTSNode.fresh rmin rmax r)) ->
  Forall (λ x, all_nodes P x.2) kids ->
  Forall (λ x, all_nodes P x.2) (MCTSNode.expand_kids rmin rmax new kids).
Proof.
  intros Hfresh. revert kids. induction new as [|[a r] new IH]; intros kids Hkids; [done|].
  cbn. apply IH. destruct (decide _); [done|].
  apply Forall_app. split; [done|]. apply Forall_singleton. cbn.
  constructor; [apply Hfresh | constructor].
Qed.

Lemma all_nodes_expand (actions : list action) (rs : list reward) (nd : MCTSNode.t) :
  (∀ r, P (MCTSNode.fresh (MCTSNode.reward_min nd) (MCTSNode.reward_max nd) r)) ->
  P (MCTSNode.expand actions rs nd) ->
  all_nodes P nd -> all_nodes P (MCTSNode.expand actions rs nd).
Proof.
  intros Hfresh HP Hnd. constructor; [done|]. cbn.
  apply all_nodes_expand_kids; [done | by apply all_nodes_children].
Qed.

End AllNodes.

Lemma get_update_prefix (p q : list action) (f : MCTSNode.t -> MCTSNode.t) (t : MCTSNode.t) :
  MCTSNode.get p (MCTSNode.update (p ++ q) f t) = MCTSNode.update q f <$> MCTSNode.get p t.
Proof.
  revert t. induction p as [|a p IH]; intros t; [done|].
  cbn. unfold MCTSNode.child. cbn. rewrite assoc_update_same.
  destruct (MCTSNode.assoc a (MCTSNode.children t)) as [c|]; cbn; [apply IH | done].
Qed.

Lemma get_give_reward_prefix (r : reward) (p q : list action) (t : MCTSNode.t) :
  MCTSNode.get p (MCTSNode.give_reward r (p ++ q) t)
  = MCTSNode.give_reward r q <$> MCTSNode.get p t.
Proof.
  revert t. induction p as [|a p IH]; intros t; [done|].
  cbn. unfold MCTSNode.child. cbn. rewrite assoc_update_same.
  destruct (MCTSNode.assoc a (MCTSNode.children t)) as [c|]; cbn; [apply IH | done].
Qed.

Lemma get_give_reward_same (r : reward) (p : list action) (t : MCTSNode.t) :
  MCTSNode.get p (MCTSNode.give_reward r p t) = MCTSNode.bump r <$> MCTSNode.get p t.
Proof.
  pose proof (get_give_reward_prefix r p [] t) as H. by rewrite app_nil_r in H.
Qed.

Lemma expand_kids_keys_NoDup (rmin rmax : reward) (new : list (action * reward))
    (kids : list (action * MCTSNode.t)) :
  NoDup kids.*1 -> NoDup (MCTSNode.expand_kids rmin rmax new kids).*1.
Proof.
  revert kids. induction new as [|[a r] new IH]; intros kids Hkids; [done|].
  cbn. apply IH. destruct (decide (a ∈ kids.*1)) as [Hin|Hnin]; [done|].
  rewrite fmap_app. apply NoDup_app. split; [done|]. split.
  - intros b Hb [->|[]%elem_of_nil]%elem_of_cons. done.
  - apply NoDup_singleton.
Qed.

Lemma well_keyed_local : local well_keyed.
Proof. intros nd kids Hnd Hkeys. unfold well_keyed, MCTSNode.keys in *. cbn. by rewrite Hkeys. Qed.

Lemma below_local (B : reward) : local (below B).
Proof. by intros nd kids Hnd _. Qed.

Lemma unfinished_local : local unfinished.
Proof. by intros nd kids Hnd _. Qed.

(** ** Sorting and selection *)











(** ** The greedy choice *)

Section Argmax.

Variable score : MCTSNode.t -> Z.

Lemma better_view (x y x' y' : action * MCTSNode.t) :
  view score x = view score x' -> view score y = view score y' ->
  MCTSNode.better score x y = MCTSNode.better score x' y'.
Proof. unfold view, MCTSNode.better. intros [= -> ->] [= -> ->]. done. Qed.

Lemma argmax_from_view (best best' : action * MCTSNode.t) (kids kids' : list (action * MCTSNode.t)) :
  view score best = view score best' -> view score <$> kids = view score <$> kids' ->
  view score (MCTSNode.argmax_from score best kids) = view score (MCTSNode.argmax_from score best' kids').
Proof.
  revert best best' kids'. induction kids as [|x kids IH]; intros best best' [|x' kids'] Hb Hk;
    try done.
  assert (view score x = view score x' ∧ view score <$> kids = view score <$> kids') as [Hx Hk']
    by (cbn in Hk; split; congruence).
  cbn. apply IH; [|done].
  rewrite (better_view x best x' best' Hx Hb). by destruct (MCTSNode.better _ _ _).
Qed.

Lemma argmax_view (kids kids' : list (action * MCTSNode.t)) :
  view score <$> kids = view score <$> kids' -> MCTSNode.argmax score kids = MCTSNode.argmax score kids'.
Proof.
  destruct kids as [|x kids], kids' as [|x' kids']; try done.
  intros Hk.
  assert (view score x = view score x' ∧ view score <$> kids = view score <$> kids') as [Hx Hk']
    by (cbn in Hk; split; congruence).
  cbn. f_equal.
  pose proof (argmax_from_view x x' kids kids' Hx Hk') as Hv.
  unfold view in Hv. congruence.
Qed.

Lemma argmax_from_elem_of (best : action * MCTSNode.t) (kids : list (action * MCTSNode.t)) :
  MCTSNode.argmax_from score best kids ∈ best :: kids.
Proof.
  revert best. induction kids as [|x kids IH]; intros best; cbn.
  - apply elem_of_cons. by left.
  - specialize (IH (if MCTSNode.better score x best then x else best)).
    apply elem_of_cons in IH as [->|IH].
    + destruct (MCTSNode.better _ _ _); rewrite !elem_of_cons; auto.
    + rewrite !elem_of_cons; auto.
Qed.

Lemma argmax_from_highest (best : action * MCTSNode.t) (kids : list (action * MCTSNode.t))
    (x : action * MCTSNode.t) :
  x ∈ best :: kids -> score x.2 <= score (MCTSNode.argmax_from score best kids).2.
Proof.
  revert best x. induction kids as [|y kids IH]; intros best x Hx; cbn.
  - apply list_elem_of_singleton in Hx as ->. lia.
  - set (b := if MCTSNode.better score y best then y else best).
    assert (score best.2 <= score b.2 ∧ score y.2 <= score b.2) as [Hb Hy].
    { subst b. unfold MCTSNode.better.
      destruct (Z.ltb_spec (score best.2) (score y.2)); cbn; [lia|].
      destruct (Z.eqb_spec (score best.2) (score y.2)); cbn; [destruct (_ <? _); lia | lia]. }
    pose proof (IH b b ltac:(apply elem_of_cons; by left)) as Hbest.
    apply elem_of_cons in Hx as [->|Hx]; [lia|].
    apply elem_of_cons in Hx as [->|Hx]; [lia|].
    apply IH. apply elem_of_cons. by right.
Qed.

End Argmax.

Lemma select_greedy_highest (nd : MCTSNode.t) (a : action) :
  MCTSNode.select_greedy nd = Some a -> highest_step_reward nd a.
Proof.
  unfold MCTSNode.select_greedy, MCTSNode.argmax, highest_step_reward.
  destruct (MCTSNode.children nd) as [|x kids]; [done|]. intros [= <-].
  exists (MCTSNode.argmax_from MCTSNode.q_step x kids).2. split.
  - rewrite <- surjective_pairing. apply argmax_from_elem_of.
  - intros y Hy. by apply argmax_from_highest.
Qed.

Lemma select_greedy_child (nd : MCTSNode.t) (a : action) :
  MCTSNode.select_greedy nd = Some a -> is_Some (MCTSNode.child a nd).
Proof.
  intros (c & Hc & _)%select_greedy_highest. unfold MCTSNode.child.
  induction (MCTSNode.children nd) as [|[b c'] kids IH]; [by apply elem_of_nil in Hc|].
  cbn. destruct (decide (a = b)); [done|].
  apply IH. apply elem_of_cons in Hc as [[= -> ->]|Hc]; done.
Qed.

Lemma select_greedy_is_Some (nd : MCTSNode.t) :
  MCTSNode.children nd ≠ [] -> is_Some (MCTSNode.select_greedy nd).
Proof.
  unfold MCTSNode.select_greedy, MCTSNode.argmax.
  by destruct (MCTSNode.children nd).
Qed.

(** ** What a change below a node leaves of it *)

Lemma q_step_update (p : list action) (f : MCTSNode.t -> MCTSNode.t) (c : MCTSNode.t) :
  (∀ nd, MCTSNode.q_step (f nd) = MCTSNode.q_step nd) ->
  MCTSNode.q_step (MCTSNode.update p f c) = MCTSNode.q_step c.
Proof. intros Hf. destruct p; [apply Hf | done]. Qed.

Lemma q_step_give_reward (r : reward) (p : list action) (c : MCTSNode.t) :
  MCTSNode.q_step (MCTSNode.give_reward r p c) = MCTSNode.q_step c.
Proof. by destruct p. Qed.

Lemma assoc_update_view (a : action) (g : MCTSNode.t -> MCTSNode.t)
    (kids : list (action * MCTSNode.t)) :
  (∀ c, MCTSNode.q_step (g c) = MCTSNode.q_step c) ->
  view MCTSNode.q_step <$> MCTSNode.assoc_update a g kids = view MCTSNode.q_step <$> kids.
Proof.
  intros Hg. induction kids as [|[b c] kids IH]; [done|]. cbn.
  destruct (decide (a = b)); cbn; [|by rewrite IH].
  unfold view at 1 3. cbn. by rewrite Hg.
Qed.

Lemma select_greedy_update (a : action) (q : list action) (f : MCTSNode.t -> MCTSNode.t)
    (nd : MCTSNode.t) :
  (∀ c, MCTSNode.q_step (f c) = MCTSNode.q_step c) ->
  MCTSNode.select_greedy (MCTSNode.update (a :: q) f nd) = MCTSNode.select_greedy nd.
Proof.
  intros Hf. unfold MCTSNode.select_greedy. cbn.
  apply argmax_view, assoc_update_view. intros c. by apply q_step_update.
Qed.

Lemma select_greedy_give_reward (r : reward) (a : action) (q : list action) (nd : MCTSNode.t) :
  MCTSNode.select_greedy (MCTSNode.give_reward r (a :: q) nd) = MCTSNode.select_greedy nd.
Proof.
  unfold MCTSNode.select_greedy. cbn.
  apply argmax_view, assoc_update_view. intros c. apply q_step_give_reward.
Qed.

Lemma get_prefix_is_Some (p q : list action) (t : MCTSNode.t) :
  is_Some (MCTSNode.get (p ++ q) t) -> is_Some (MCTSNode.get p t).
Proof.
  revert t. induction p as [|a p IH]; intros t; [done|]. cbn.
  destruct (MCTSNode.child a t); [apply IH | done].
Qed.

Lemma prefix_snoc_inv {A} (l node : list A) (a : A) :
  l `prefix_of` node ++ [a] -> l `prefix_of` node ∨ l = node ++ [a].
Proof.
  intros [k Hk]. destruct k as [|x k _] using rev_ind.
  - right. by rewrite app_nil_r in Hk.
  - left. rewrite app_assoc in Hk. apply app_inj_tail in Hk as [-> _]. by exists k.
Qed.

Lemma greedy_path_update (node : list action) (f : MCTSNode.t -> MCTSNode.t) (t : MCTSNode.t) :
  (∀ c, MCTSNode.q_step (f c) = MCTSNode.q_step c) ->
  greedy_path t node -> greedy_path (MCTSNode.update node f t) node.
Proof.
  intros Hf Hpath p' a Hpre.
  destruct (Hpath p' a Hpre) as (nd & Hnd & Hterm & Hsel).
  destruct Hpre as [q ->]. rewrite <- app_assoc. cbn [app].
  rewrite get_update_prefix, Hnd. cbn [fmap option_fmap option_map].
  eexists. split; [done|]. split; [exact Hterm|]. by rewrite select_greedy_update.
Qed.

Lemma greedy_path_give_reward (r : reward) (node : list action) (t : MCTSNode.t) :
  greedy_path t node -> greedy_path (MCTSNode.give_reward r node t) node.
Proof.
  intros Hpath p' a Hpre.
  destruct (Hpath p' a Hpre) as (nd & Hnd & Hterm & Hsel).
  destruct Hpre as [q ->]. rewrite <- app_assoc. cbn [app].
  rewrite get_give_reward_prefix, Hnd. cbn [fmap option_fmap option_map].
  eexists. split; [done|]. split; [exact Hterm|]. by rewrite select_greedy_give_reward.
Qed.

Lemma greedy_path_snoc (node : list action) (a : action) (t nd : MCTSNode.t) :
  greedy_path t node ->
  MCTSNode.get node t = Some nd ->
  MCTSNode.terminal nd = false ->
  MCTSNode.select_greedy nd = Some a ->
  greedy_path t (node ++ [a]).
Proof.
  intros Hpath Hnd Hterm Hsel p' a' Hpre.
  apply prefix_snoc_inv in Hpre as [Hpre|Heq]; [by apply Hpath|].
  apply app_inj_tail in Heq as [-> ->]. by exists nd.
Qed.

(** ** Trees without terminal marks, and with bounded maxima *)

Lemma all_nodes_set_terminal (P : MCTSNode.t -> Prop) (p : list action) (b : bool) (t : MCTSNode.t) :
  local P ->
  (∀ nd, P nd -> P (MCTSNode.set_terminal b nd)) ->
  all_nodes P t -> all_nodes P (MCTSNode.update p (MCTSNode.set_terminal b) t).
Proof.
  intros HP Hb. apply all_nodes_update; [done|]. intros nd Hnd.
  eapply all_nodes_same_children; [exact Hnd | by apply Hb, all_nodes_here | done].
Qed.

Lemma below_set_terminal (B : reward) (p : list action) (b : bool) (t : MCTSNode.t) :
  all_nodes (below B) t -> all_nodes (below B) (MCTSNode.update p (MCTSNode.set_terminal b) t).
Proof. apply all_nodes_set_terminal; [apply below_local | done]. Qed.

Lemma unfinished_set_terminal (p : list action) (t : MCTSNode.t) :
  all_nodes unfinished t ->
  all_nodes unfinished (MCTSNode.update p (MCTSNode.set_terminal false) t).
Proof. apply all_nodes_set_terminal; [apply unfinished_local | done]. Qed.

Lemma below_expand (B : reward) (p : list action) (actions : list action) (rs : list reward)
    (t : MCTSNode.t) :
  all_nodes (below B) t -> all_nodes (below B) (MCTSNode.update p (MCTSNode.expand actions rs) t).
Proof.
  apply all_nodes_update; [apply below_local|]. intros nd Hnd.
  pose proof (all_nodes_here _ _ Hnd) as [Hq Hmin].
  apply all_nodes_expand; [|by split|done].
  intros r. by split.
Qed.

Lemma unfinished_expand (p : list action) (actions : list action) (rs : list reward)
    (t : MCTSNode.t) :
  all_nodes unfinished t ->
  all_nodes unfinished (MCTSNode.update p (MCTSNode.expand actions rs) t).
Proof.
  apply all_nodes_update; [apply unfinished_local|]. intros nd Hnd.
  pose proof (all_nodes_here _ _ Hnd) as Hhere.
  by apply all_nodes_expand.
Qed.

(** ** The runs of the node methods *)

Section Steps.

Variable C : Collaborators.

Lemma the_node_run (p : list action) (s : Agent C) :
  the_node C p s =
    {| result := match MCTSNode.get p (mcts_head s) with
                 | Some nd => Ok nd
                 | None => Raise KeyError
                 end;
       final := s; events := [] |}.
Proof.
  unfold the_node. rewrite bind_run. cbn.
  by destruct (MCTSNode.get p (mcts_head s)).
Qed.

Lemma node_set_terminal_run (p : list action) (b : bool) (s : Agent C) :
  node_set_terminal C p b s =
    {| result := Ok ();
       final := with_mcts_head C (MCTSNode.update p (MCTSNode.set_terminal b) (mcts_head s)) s;
       events := [EvSetTerminal p b] |}.
Proof. reflexivity. Qed.

Lemma node_give_reward_run (p : list action) (r : reward) (s : Agent C) :
  node_give_reward C p r s =
    {| result := Ok ();
       final := with_mcts_head C (MCTSNode.give_reward r p (mcts_head s)) s;
       events := [EvGiveReward p r] |}.
Proof. reflexivity. Qed.

Lemma node_set_in_beam_run (p : list action) (s : Agent C) :
  node_set_in_beam C p s =
    {| result := Ok ();
       final := with_mcts_head C (MCTSNode.update p (MCTSNode.set_in_beam true) (mcts_head s)) s;
       events := [] |}.
Proof. reflexivity. Qed.

Lemma parse_action_sim_run (a : action) (s : Agent C) :
  _parse_action C a "sim" s =
    {| result := Ok (compute_log_likelihood C (sim_env s) a); final := s; events := [] |}.
Proof. reflexivity. Qed.

Lemma step_rewards_run (actions : list action) (s : Agent C) :
  mapM (λ a, _parse_action C a "sim") actions s =
    {| result := Ok (compute_log_likelihood C (sim_env s) <$> actions);
       final := s; events := [] |}.
Proof.
  induction actions as [|a actions IH]; [done|].
  cbn [mapM]. rewrite bind_run, parse_action_sim_run. cbn [result final events].
  rewrite bind_run, IH. reflexivity.
Qed.

Lemma expand_node_run (p : list action) (this_state : Obs C) (s : Agent C) :
  expand_node C p this_state s =
    {| result := Ok ();
       final :=
         with_mcts_head C
           (MCTSNode.update p
              (MCTSNode.expand (find_legal_actions C this_state)
                 (compute_log_likelihood C (sim_env s) <$> find_legal_actions C this_state))
              (mcts_head s)) s;
       events := [EvExpand p (find_legal_actions C this_state)] |}.
Proof.
  unfold expand_node. rewrite bind_run, step_rewards_run. reflexivity.
Qed.

(** A replay changes the simulated environment and nothing else. *)
Lemma parse_path_final (state : Obs C) (path : list action) (s : Agent C) :
  ∃ e, final (_parse_path C state path s) = with_sim_env C e s.
Proof.
  revert s. apply (inv_parse_path C (λ s _ s', ∃ e, s' = with_sim_env C e s))
    with (E := λ _, True); try done.
  - intros s. exists (sim_env s). by rewrite with_sim_env_same.
  - intros s _ s' _ s'' [e ->] [e' ->]. by exists e'.
  - intros s ev _. exists (sim_env s). by rewrite with_sim_env_same.
  - intros s e. by exists e.
Qed.

Lemma parse_path_head (state : Obs C) (path : list action) (s : Agent C) :
  mcts_head (final (_parse_path C state path s)) = mcts_head s.
Proof. by destruct (parse_path_final state path s) as [e ->]. Qed.

Lemma parse_path_sim_events (state : Obs C) (path : list action) (s : Agent C) :
  Forall sim_event (events (_parse_path C state path s)).
Proof.
  revert s. apply (inv_parse_path C (λ _ evs _, Forall sim_event evs))
    with (E := sim_event); try done.
  - by intros; apply Forall_app.
  - by intros; apply Forall_singleton.
  - by left.
  - intros a. right. by exists a.
Qed.

(** The policy cannot be evaluated on an empty list of actions. *)
Lemma evaluate_policy_no_action (state : Obs C) (rs : list reward) (a : option action)
    (s : Agent C) :
  ∃ e, _evaluate_policy C state [] (Some rs) a s
       = {| result := Raise e; final := s; events := [] |}
     ∧ e ∈ [NotImplementedError; TypeError; RuntimeError].
Proof.
  unfold _evaluate_policy. rewrite bind_run. cbn [get_agent result final events app].
  destruct (cls s).
  - exists NotImplementedError. split; [done|]. rewrite !elem_of_cons; auto.
  - exists TypeError. split; [done|]. rewrite !elem_of_cons; auto.
  - exists RuntimeError. split; [done|]. rewrite !elem_of_cons; auto.
  - exists RuntimeError. split; [done|]. rewrite !elem_of_cons; auto.
Qed.

End Steps.


(** ** A node without legal actions *)

Section NoLegalAction.

Variable C : Collaborators.

Lemma descend_no_legal_action (k : nat) (state : Obs C) (p : list action) (total : reward)
    (s : Agent C) (this_state : Obs C) (tot : reward) (nd : MCTSNode.t) :
  result (_parse_path C state p s) = Ok (this_state, tot, false) ->
  MCTSNode.get p (mcts_head s) = Some nd ->
  MCTSNode.children nd = [] ->
  find_legal_actions C this_state = [] ->
  ∃ e, result (mcts_descend C (S k) state p total s) = Raise e
       ∧ e ∈ [NotImplementedError; TypeError; RuntimeError]
       ∧ (EvSetTerminal p true ∉ events (mcts_descend C (S k) state p total s))
       ∧ (MCTSNode.terminal
            <$> MCTSNode.get p (mcts_head (final (mcts_descend C (S k) state p total s))))
         = Some false.
Proof.
  intros Hres Hget Hkids Hlegal. cbn [mcts_descend].
  destruct (bind_Ok_intro C (_parse_path C state p) 
              (λ '(this_state, total_reward, terminal),
                 node_set_terminal C p terminal;;
                 (if terminal : bool then mret (p, total_reward)
                  else
                    nd ← the_node C p;
                    (if decide (MCTSNode.children nd = []) then expand_node C p this_state
                     else mret ());;
                    nd ← the_node C p;
                    policy_probs ← _evaluate_policy C this_state (MCTSNode.keys nd)
                                     (Some (MCTSNode.children_q_steps nd)) None;
                    s ← get_agent C;
                    a ← or_raise C ValueError
                          (select_puct C nd policy_probs (mcts_mode s) (c_puct s));
                    _ ← or_raise C KeyError (MCTSNode.child a nd);
                    mcts_descend C k state (p ++ [a]) total_reward))
              s _ Hres) as (Hr & Hf & He).
  rewrite Hr, Hf, He. clear Hr Hf He. cbn beta iota.
  pose proof (parse_path_head C state p s) as Hhead.
  pose proof (parse_path_sim_events C state p s) as Hsim.
  remember (final (_parse_path C state p s)) as s1 eqn:Hs1. clear Hs1.
  rewrite bind_run, node_set_terminal_run. cbn [result final events].
  rewrite bind_run, the_node_run. cbn [result final events mcts_head with_mcts_head].
  rewrite get_update_same, Hhead, Hget. cbn [fmap option_fmap option_map].
  rewrite bind_run.
  rewrite (decide_True (P := MCTSNode.children (MCTSNode.set_terminal false nd) = []))
    by exact Hkids.
  rewrite expand_node_run. cbn [result final events mcts_head with_mcts_head].
  rewrite bind_run, the_node_run. cbn [result final events mcts_head with_mcts_head].
  rewrite !get_update_same, Hget. cbn [fmap option_fmap option_map].
  rewrite Hlegal. cbn [fmap list_fmap].
  rewrite bind_run.
  assert (MCTSNode.keys (MCTSNode.expand [] [] (MCTSNode.set_terminal false nd)) = []) as Hkeys.
  { unfold MCTSNode.keys. cbn. by rewrite Hkids. }
  rewrite Hkeys.
  match goal with
  | |- context [_evaluate_policy C ?st [] (Some ?rs) None ?s2] =>
      destruct (evaluate_policy_no_action C st rs None s2) as (e & Hrun & He)
  end.
  rewrite Hrun. cbn [result final events mcts_head with_mcts_head].
  exists e. split; [done|]. split; [done|]. split.
  - intros Hin. rewrite ?elem_of_app, ?elem_of_cons, ?elem_of_nil in Hin.
    repeat match type of Hin with _ ∨ _ => destruct Hin as [Hin|Hin] end;
      try discriminate Hin; try done.
    destruct (proj1 (Forall_forall _ _) Hsim _ Hin) as [[=]|[a [=]]].
  - rewrite !get_update_same, Hget. done.
Qed.

End NoLegalAction.


(** ** Beam search *)

Section BeamSearch.

Variable C : Collaborators.

Lemma visited_app (evs evs' : list event) : visited (evs ++ evs') = visited evs ++ visited evs'.
Proof. apply omap_app. Qed.

Lemma well_keyed_set_terminal (p : list action) (b : bool) (t : MCTSNode.t) :
  all_nodes well_keyed t -> all_nodes well_keyed (MCTSNode.update p (MCTSNode.set_terminal b) t).
Proof.
  apply all_nodes_update; [apply well_keyed_local|]. intros nd Hnd.
  eapply all_nodes_same_children; [exact Hnd | by apply all_nodes_here in Hnd | done].
Qed.

Lemma well_keyed_set_in_beam (p : list action) (b : bool) (t : MCTSNode.t) :
  all_nodes well_keyed t -> all_nodes well_keyed (MCTSNode.update p (MCTSNode.set_in_beam b) t).
Proof.
  apply all_nodes_update; [apply well_keyed_local|]. intros nd Hnd.
  eapply all_nodes_same_children; [exact Hnd | by apply all_nodes_here in Hnd | done].
Qed.

Lemma well_keyed_expand (p : list action) (actions : list action) (rs : list reward)
    (t : MCTSNode.t) :
  all_nodes well_keyed t ->
  all_nodes well_keyed (MCTSNode.update p (MCTSNode.expand actions rs) t).
Proof.
  apply all_nodes_update; [apply well_keyed_local|]. intros nd Hnd.
  apply all_nodes_expand; [|  |done].
  - intros r. apply NoDup_nil_2.
  - apply expand_kids_keys_NoDup. by apply all_nodes_here in Hnd.
Qed.

Lemma well_keyed_give_reward (r : reward) (p : list action) (t : MCTSNode.t) :
  all_nodes well_keyed t -> all_nodes well_keyed (MCTSNode.give_reward r p t).
Proof. apply all_nodes_give_reward; [apply well_keyed_local | done]. Qed.

Ltac keys lem :=
  apply (lem C (keys_kept C)) with (E := λ _, True); unfold keys_kept; try done;
  cbn [mcts_head with_mcts_head];
  solve [ intros; eauto
        | intros; by apply well_keyed_set_terminal
        | intros; by apply well_keyed_expand
        | intros; by apply well_keyed_set_in_beam
        | intros; by apply well_keyed_give_reward ].

Lemma beam_process_keys (bs : Z) (node : list action) (this_state : Obs C) (total : reward)
    (s : Agent C) :
  all_nodes well_keyed (mcts_head s) ->
  all_nodes well_keyed (mcts_head (final (beam_process C bs node this_state total s))).
Proof. revert s. keys inv_beam_process. Qed.




Lemma parse_path_no_visit (state : Obs C) (path : list action) (s : Agent C) :
  visited (events (_parse_path C state path s)) = [].
Proof.
  revert s. apply (inv_parse_path C (no_visit C)) with (E := λ ev, visited [ev] = []);
    unfold no_visit; try done.
  by intros ? evs ? evs' ? H1 H2; rewrite visited_app, H1, H2.
Qed.















End BeamSearch.


(** ** Greedy expansion *)

Section Greedy.

Variable C : Collaborators.

Lemma follow_path_reports (p : list action) (state : Obs C) (total : reward) (s : Agent C) :
  (∀ e a, is_Some (env_step C e a)) ->
  ∃ st tot, result (follow_path C p state total s) = Ok (st, tot, reports_done C (sim_env s) p).
Proof.
  intros Hstep. revert state total s.
  induction p as [|a p IH]; intros state total s; [by eexists _, _|].
  rewrite follow_path_cons. cbn [reports_done].
  destruct (Hstep (sim_env s) a) as [[e1 [[st r] dn]] ->].
  destruct dn; cbn; [by eexists _, _|].
  destruct (IH st (total + r) (with_sim_env C e1 s)) as (st' & tot' & ->).
  by eexists _, _.
Qed.

Lemma parse_path_reports (state : Obs C) (p : list action) (s : Agent C) (real : Obs C) :
  env_state C (env s) = Some real ->
  (∀ e a, is_Some (env_step C e a)) ->
  ∃ st total e0, result (_parse_path C state p s) = Ok (st, total, reports_done C e0 p).
Proof.
  intros Hreal Hstep. rewrite (parse_path_run C state p s real Hreal). cbn zeta.
  match goal with
  | |- context [follow_path C p state 0 ?s0] =>
      destruct (follow_path_reports p state 0 s0 Hstep) as (st & tot & ->)
  end.
  by eexists _, _, _.
Qed.

Lemma greedy_loop_done (fuel : nat) (state : Obs C) (node : list action) (s : Agent C)
    (nd : MCTSNode.t) :
  MCTSNode.get node (mcts_head s) = Some nd ->
  MCTSNode.terminal nd = true ->
  greedy_loop C fuel state node s = {| result := Ok (); final := s; events := [] |}.
Proof.
  intros Hget Hterm.
  destruct fuel; cbn [greedy_loop]; rewrite bind_run, the_node_run, Hget;
    cbn [result final events]; by rewrite Hterm.
Qed.

(** What [expand] attaches is a new node for an action of the list. *)
Lemma expand_kids_elem_of (rmin rmax : reward) (new : list (action * reward))
    (kids : list (action * MCTSNode.t)) (x : action * MCTSNode.t) :
  x ∈ MCTSNode.expand_kids rmin rmax new kids ->
  x ∈ kids ∨ ∃ r, (x.1, r) ∈ new ∧ x.2 = MCTSNode.fresh rmin rmax r.
Proof.
  revert kids. induction new as [|[a r] new IH]; intros kids; [by left|]. cbn.
  intros [Hin|(r' & Hr' & Hx)]%IH.
  - destruct (decide _); [by left|].
    apply elem_of_app in Hin as [Hin|Hx%list_elem_of_singleton]; [by left|].
    subst x. right. exists r. split; [apply elem_of_cons; by left | done].
  - right. exists r'. split; [apply elem_of_cons; by right | done].
Qed.

Lemma expand_child_new (actions : list action) (rs : list reward) (nd c : MCTSNode.t)
    (a : action) :
  MCTSNode.children nd = [] ->
  MCTSNode.child a (MCTSNode.expand actions rs nd) = Some c ->
  a ∈ actions ∧ MCTSNode.children c = [] ∧ MCTSNode.terminal c = false.
Proof.
  intros Hkids Hc. unfold MCTSNode.child in Hc. cbn in Hc. rewrite Hkids in Hc.
  apply assoc_elem_of, expand_kids_elem_of in Hc as [[]%elem_of_nil|(r & Hin & Hc)].
  cbn in Hin, Hc. subst c. split; [|done]. by apply elem_of_zip_l in Hin.
Qed.

Lemma expand_kids_length (rmin rmax : reward) (new : list (action * reward))
    (kids : list (action * MCTSNode.t)) :
  (length kids ≤ length (MCTSNode.expand_kids rmin rmax new kids))%nat.
Proof.
  revert kids. induction new as [|[a r] new IH]; intros kids; [done|]. cbn.
  etrans; [|apply IH]. destruct (decide _); [done|]. rewrite length_app. lia.
Qed.

Lemma expand_nonempty (actions : list action) (f : action -> reward) (nd : MCTSNode.t) :
  actions ≠ [] -> MCTSNode.children (MCTSNode.expand actions (f <$> actions) nd) ≠ [].
Proof.
  destruct actions as [|a actions]; [done|]. intros _ Hnil.
  apply (f_equal length) in Hnil. cbn in Hnil.
  match type of Hnil with
  | length (MCTSNode.expand_kids ?rmin ?rmax ?new ?kids) = _ =>
      pose proof (expand_kids_length rmin rmax new kids) as Hlen;
      assert (0 < length kids)%nat as Hpos
  end.
  { destruct (decide _) as [Hin|_]; [|rewrite length_app; cbn; lia].
    destruct (MCTSNode.children nd); [by apply elem_of_nil in Hin | cbn; lia]. }
  lia.
Qed.

Lemma parse_path_no_backup (state : Obs C) (path : list action) (s : Agent C) :
  backups (events (_parse_path C state path s)) = [].
Proof.
  revert s. apply (inv_parse_path C (no_backup C)) with (E := λ ev, backups [ev] = []);
    unfold no_backup; try done.
  by intros ? evs ? evs' ? H1 H2; rewrite backups_app, H1, H2.
Qed.

Lemma descent_cons (node : list action) (a : action) (q : list action) :
  descent node (a :: q) = node :: descent (node ++ [a]) q.
Proof.
  unfold descent. cbn [length seq fmap list_fmap take]. rewrite app_nil_r. f_equal.
  rewrite <- fmap_S_seq, <- list_fmap_compose. apply list_fmap_ext.
  intros i j _. cbn. by rewrite <- app_assoc.
Qed.

(** An iteration of the loop of [_greedy] at a node that is not marked
    terminal replays the path of the node first. *)
Lemma greedy_loop_replays (fuel : nat) (state : Obs C) (node : list action) (s : Agent C)
    (nd : MCTSNode.t) :
  MCTSNode.get node (mcts_head s) = Some nd ->
  MCTSNode.terminal nd = false ->
  result (greedy_loop C fuel state node s) = Ok () ->
  ∃ fuel' st total dn,
    fuel = S fuel' ∧ result (_parse_path C state node s) = Ok (st, total, dn).
Proof.
  intros Hget Hterm H. destruct fuel as [|fuel'].
  - cbn [greedy_loop] in H. rewrite bind_run, the_node_run, Hget in H.
    cbn [result final events] in H. by rewrite Hterm in H.
  - cbn [greedy_loop] in H. rewrite bind_run, the_node_run, Hget in H.
    cbn [result final events] in H. rewrite Hterm in H.
    apply bind_Ok in H as ([[st total] dn] & Hx & _). by exists fuel', st, total, dn.
Qed.

(** The iteration of the loop of [_greedy] at a node that the replay finds
    terminal: the node is marked, the return is backed up, the loop ends. *)
Lemma greedy_step_terminal (fuel : nat) (state : Obs C) (node : list action) (s : Agent C)
    (nd : MCTSNode.t) (st : Obs C) (total : reward) :
  MCTSNode.get node (mcts_head s) = Some nd ->
  MCTSNode.terminal nd = false ->
  result (_parse_path C state node s) = Ok (st, total, true) ->
  result (greedy_loop C (S fuel) state node s) = Ok ()
  ∧ mcts_head (final (greedy_loop C (S fuel) state node s))
    = MCTSNode.give_reward (episode_reward s + total) node
        (MCTSNode.update node (MCTSNode.set_terminal true) (mcts_head s))
  ∧ backups (events (greedy_loop C (S fuel) state node s))
    = [(node, episode_reward s + total)]
  ∧ visited (events (greedy_loop C (S fuel) state node s)) = [node].
Proof.
  intros Hget Hterm Hres.
  destruct (parse_path_final C state node s) as [e He].
  pose proof (parse_path_no_backup state node s) as Hquiet.
  pose proof (parse_path_no_visit C state node s) as Hvis.
  cbn [greedy_loop]. rewrite bind_run, the_node_run, Hget. cbn [result final events].
  rewrite Hterm. rewrite bind_run, Hres. cbn [result final events]. cbn beta iota.
  rewrite He.
  rewrite bind_run, node_set_terminal_run.
  cbn [result final events mcts_head with_mcts_head with_sim_env].
  rewrite bind_run, the_node_run. cbn [result final events mcts_head with_mcts_head].
  rewrite get_update_same, Hget. cbn [fmap option_fmap option_map].
  cbn [MCTSNode.terminal MCTSNode.set_terminal negb andb].
  rewrite bind_run. cbn [mret M_ret result final events].
  rewrite bind_run, the_node_run. cbn [result final events mcts_head with_mcts_head].
  rewrite get_update_same, Hget. cbn [fmap option_fmap option_map].
  cbn [MCTSNode.terminal MCTSNode.set_terminal].
  rewrite bind_run. rewrite (bind_run C (get_agent C)).
  cbn [get_agent result final events app episode_reward with_mcts_head with_sim_env].
  rewrite node_give_reward_run.
  cbn [result final events mcts_head with_mcts_head episode_reward with_sim_env].
  rewrite bind_run, the_node_run. cbn [result final events mcts_head with_mcts_head].
  rewrite get_give_reward_same, get_update_same, Hget. cbn [fmap option_fmap option_map].
  cbn [MCTSNode.terminal MCTSNode.bump MCTSNode.set_terminal negb].
  erewrite greedy_loop_done; cycle 1.
  { cbn [mcts_head with_mcts_head].
    rewrite get_give_reward_same, get_update_same, Hget. reflexivity. }
  { reflexivity. }
  cbn [result final events mcts_head with_mcts_head].
  split; [done|]. split; [done|]. split.
  - rewrite !backups_app, Hquiet. reflexivity.
  - rewrite !visited_app, Hvis. reflexivity.
Qed.

(** The iteration of the loop of [_greedy] at a node that the replay finds
    not terminal: the node is expanded if it has no children, and the loop
    goes on at the child that [select_greedy] returns, which is a child that
    the node had, or a new one for a legal action. *)
Lemma greedy_step_descend (fuel : nat) (state : Obs C) (node : list action) (s : Agent C)
    (nd : MCTSNode.t) (st : Obs C) (total : reward) :
  MCTSNode.get node (mcts_head s) = Some nd ->
  MCTSNode.terminal nd = false ->
  result (_parse_path C state node s) = Ok (st, total, false) ->
  (MCTSNode.children nd = [] -> find_legal_actions C st ≠ []) ->
  ∃ a s3 nd3 c,
    greedy_loop C (S fuel) state node s
    = {| result := result (greedy_loop C fuel state (node ++ [a]) s3);
         final := final (greedy_loop C fuel state (node ++ [a]) s3);
         events := events (_parse_path C state node s) ++ EvSetTerminal node false
                     :: (if bool_decide (MCTSNode.children nd = [])
                         then [EvExpand node (find_legal_actions C st)] else [])
                     ++ events (greedy_loop C fuel state (node ++ [a]) s3) |}
    ∧ env s3 = env s
    ∧ episode_reward s3 = episode_reward s
    ∧ (mcts_head s3 = MCTSNode.update node (MCTSNode.set_terminal false) (mcts_head s)
       ∨ ∃ rs, mcts_head s3
               = MCTSNode.update node (MCTSNode.expand (find_legal_actions C st) rs)
                   (MCTSNode.update node (MCTSNode.set_terminal false) (mcts_head s)))
    ∧ MCTSNode.get node (mcts_head s3) = Some nd3
    ∧ MCTSNode.terminal nd3 = false
    ∧ MCTSNode.select_greedy nd3 = Some a
    ∧ MCTSNode.child a nd3 = Some c
    ∧ (MCTSNode.child a nd = Some c
       ∨ (a ∈ find_legal_actions C st
          ∧ MCTSNode.children c = [] ∧ MCTSNode.terminal c = false)).
Proof.
  intros Hget Hterm Hres Hlegal.
  destruct (parse_path_final C state node s) as [e He].
  cbn [greedy_loop]. rewrite bind_run, the_node_run, Hget. cbn [result final events].
  rewrite Hterm. rewrite bind_run, Hres. cbn [result final events]. cbn beta iota.
  rewrite He.
  rewrite bind_run, node_set_terminal_run.
  cbn [result final events mcts_head with_mcts_head with_sim_env].
  rewrite bind_run, the_node_run. cbn [result final events mcts_head with_mcts_head].
  rewrite get_update_same, Hget. cbn [fmap option_fmap option_map].
  cbn [MCTSNode.terminal MCTSNode.children MCTSNode.set_terminal negb andb].
  rewrite bind_run.
  destruct (bool_decide (MCTSNode.children nd = [])) eqn:Hkids.
  - apply bool_decide_eq_true in Hkids.
    rewrite expand_node_run.
    cbn [result final events mcts_head with_mcts_head sim_env with_sim_env].
    set (rs := compute_log_likelihood C e <$> find_legal_actions C st).
    set (nd3 := MCTSNode.expand (find_legal_actions C st) rs (MCTSNode.set_terminal false nd)).
    assert (MCTSNode.children nd3 ≠ []) as Hnd3 by (by apply expand_nonempty, Hlegal).
    destruct (select_greedy_is_Some nd3 Hnd3) as [a Ha].
    destruct (select_greedy_child nd3 a Ha) as [c Hc].
    rewrite bind_run, the_node_run. cbn [result final events mcts_head with_mcts_head].
    rewrite !get_update_same, Hget. cbn [fmap option_fmap option_map]. fold nd3.
    change (MCTSNode.terminal nd3) with false. cbn [negb].
    rewrite bind_run. cbn [mret M_ret result final events].
    rewrite bind_run, the_node_run. cbn [result final events mcts_head with_mcts_head].
    rewrite !get_update_same, Hget. cbn [fmap option_fmap option_map]. fold nd3.
    change (MCTSNode.terminal nd3) with false. cbn [negb].
    rewrite bind_run, Ha. cbn [or_raise mret M_ret result final events].
    rewrite bind_run, Hc. cbn [or_raise mret M_ret result final events].
    eexists a, _, nd3, c. split.
    { f_equal; cbn [app]; by rewrite ?app_nil_r. }
    cbn [env episode_reward mcts_head with_mcts_head with_sim_env].
    split; [done|]. split; [done|]. split; [right; by exists rs|].
    split; [by rewrite !get_update_same, Hget|]. split; [done|]. split; [done|].
    split; [done|]. right. by apply (expand_child_new _ rs (MCTSNode.set_terminal false nd)).
  - apply bool_decide_eq_false in Hkids.
    set (nd3 := MCTSNode.set_terminal false nd).
    assert (MCTSNode.children nd3 ≠ []) as Hnd3 by done.
    destruct (select_greedy_is_Some nd3 Hnd3) as [a Ha].
    destruct (select_greedy_child nd3 a Ha) as [c Hc].
    cbn [mret M_ret result final events].
    rewrite bind_run, the_node_run. cbn [result final events mcts_head with_mcts_head].
    rewrite !get_update_same, Hget. cbn [fmap option_fmap option_map]. fold nd3.
    change (MCTSNode.terminal nd3) with false. cbn [negb].
    rewrite bind_run. cbn [mret M_ret result final events].
    rewrite bind_run, the_node_run. cbn [result final events mcts_head with_mcts_head].
    rewrite !get_update_same, Hget. cbn [fmap option_fmap option_map]. fold nd3.
    change (MCTSNode.terminal nd3) with false. cbn [negb].
    rewrite bind_run, Ha. cbn [or_raise mret M_ret result final events].
    rewrite bind_run, Hc. cbn [or_raise mret M_ret result final events].
    eexists a, _, nd3, c. split.
    { f_equal; cbn [app]; by rewrite ?app_nil_r. }
    cbn [env episode_reward mcts_head with_mcts_head with_sim_env].
    split; [done|]. split; [done|]. split; [by left|].
    split; [by rewrite !get_update_same, Hget|]. split; [done|]. split; [done|].
    split; [done|]. by left.
Qed.

(** The iteration of the loop of [_greedy] at a node without children whose
    state has no legal action: nothing is attached, and the selection of a
    child raises. *)
Lemma greedy_step_stuck (fuel : nat) (state : Obs C) (node : list action) (s : Agent C)
    (nd : MCTSNode.t) (st : Obs C) (total : reward) :
  MCTSNode.get node (mcts_head s) = Some nd ->
  MCTSNode.terminal nd = false ->
  result (_parse_path C state node s) = Ok (st, total, false) ->
  MCTSNode.children nd = [] ->
  find_legal_actions C st = [] ->
  result (greedy_loop C (S fuel) state node s) = Raise ValueError.
Proof.
  intros Hget Hterm Hres Hkids Hlegal.
  destruct (parse_path_final C state node s) as [e He].
  cbn [greedy_loop]. rewrite bind_run, the_node_run, Hget. cbn [result final events].
  rewrite Hterm. rewrite bind_run, Hres. cbn [result final events]. cbn beta iota.
  rewrite He.
  rewrite bind_run, node_set_terminal_run.
  cbn [result final events mcts_head with_mcts_head with_sim_env].
  rewrite bind_run, the_node_run. cbn [result final events mcts_head with_mcts_head].
  rewrite get_update_same, Hget. cbn [fmap option_fmap option_map].
  cbn [MCTSNode.terminal MCTSNode.children MCTSNode.set_terminal negb andb].
  rewrite bind_run. rewrite bool_decide_eq_true_2 by done.
  rewrite expand_node_run, Hlegal.
  cbn [result final events mcts_head with_mcts_head sim_env with_sim_env fmap list_fmap].
  set (nd3 := MCTSNode.expand [] [] (MCTSNode.set_terminal false nd)).
  assert (MCTSNode.select_greedy nd3 = None) as Hnone.
  { unfold MCTSNode.select_greedy, nd3. cbn. by rewrite Hkids. }
  rewrite bind_run, the_node_run. cbn [result final events mcts_head with_mcts_head].
  rewrite !get_update_same, Hget. cbn [fmap option_fmap option_map]. fold nd3.
  change (MCTSNode.terminal nd3) with false. cbn [negb].
  rewrite bind_run. cbn [mret M_ret result final events].
  rewrite bind_run, the_node_run. cbn [result final events mcts_head with_mcts_head].
  rewrite !get_update_same, Hget. cbn [fmap option_fmap option_map]. fold nd3.
  change (MCTSNode.terminal nd3) with false. cbn [negb].
  by rewrite bind_run, Hnone.
Qed.

Lemma get_app (p q : list action) (t : MCTSNode.t) :
  MCTSNode.get (p ++ q) t = MCTSNode.get p t ≫= MCTSNode.get q.
Proof.
  revert t. induction p as [|a p IH]; intros t; [done|]. cbn.
  destruct (MCTSNode.child a t); [apply IH | done].
Qed.

Lemma get_snoc (p : list action) (a : action) (t nd : MCTSNode.t) :
  MCTSNode.get p t = Some nd -> MCTSNode.get (p ++ [a]) t = MCTSNode.child a nd.
Proof. intros H. rewrite get_app, H. cbn. by destruct (MCTSNode.child a nd). Qed.

Lemma q_max_set_terminal (q : list action) (b : bool) (nd : MCTSNode.t) :
  MCTSNode.q_max (MCTSNode.update q (MCTSNode.set_terminal b) nd) = MCTSNode.q_max nd.
Proof. by destruct q. Qed.

Lemma q_max_give_reward (r : reward) (q : list action) (nd : MCTSNode.t) :
  MCTSNode.q_max (MCTSNode.give_reward r q nd)
  = if MCTSNode.q_max nd <? r then r else MCTSNode.q_max nd.
Proof. by destruct q. Qed.

(** The backup at the end of the descent, seen from the nodes of the path. *)
Lemma give_reward_backed_up (t0 t : MCTSNode.t) (node : list action) (R : reward) :
  is_Some (MCTSNode.get node t) ->
  (∀ B, all_nodes (below B) t0 -> all_nodes (below B) t) ->
  backed_up t0
    (MCTSNode.give_reward R node (MCTSNode.update node (MCTSNode.set_terminal true) t))
    node R.
Proof.
  intros Hnode Hbelow p' [q ->].
  destruct (get_prefix_is_Some p' q t Hnode) as [x Hx].
  rewrite get_give_reward_prefix, get_update_prefix, Hx. cbn [fmap option_fmap option_map].
  eexists. split; [done|].
  rewrite q_max_give_reward, q_max_set_terminal. split.
  - destruct (Z.ltb_spec (MCTSNode.q_max x) R); lia.
  - intros B HB HBR.
    pose proof (all_nodes_here _ _ (all_nodes_get _ _ _ _ (Hbelow B HB) Hx)) as [Hq _].
    destruct (Z.ltb_spec (MCTSNode.q_max x) R); lia.
Qed.

(** The tree after an iteration that goes on at a child: what holds of the
    tree along the path to the node holds along the path to the child. *)
Lemma greedy_step_tree (t0 : MCTSNode.t) (node : list action) (s s3 : Agent C)
    (nd nd3 c : MCTSNode.t) (a : action) (actions : list action) :
  MCTSNode.get node (mcts_head s) = Some nd ->
  (mcts_head s3 = MCTSNode.update node (MCTSNode.set_terminal false) (mcts_head s)
   ∨ ∃ rs, mcts_head s3
           = MCTSNode.update node (MCTSNode.expand actions rs)
               (MCTSNode.update node (MCTSNode.set_terminal false) (mcts_head s))) ->
  MCTSNode.get node (mcts_head s3) = Some nd3 ->
  MCTSNode.terminal nd3 = false ->
  MCTSNode.select_greedy nd3 = Some a ->
  greedy_path (mcts_head s) node ->
  (∀ B, all_nodes (below B) t0 -> all_nodes (below B) (mcts_head s)) ->
  greedy_path (mcts_head s3) (node ++ [a])
  ∧ ∀ B, all_nodes (below B) t0 -> all_nodes (below B) (mcts_head s3).
Proof.
  intros Hnd Hhead Hnd3 Hterm3 Hsel Hpath Hbelow.
  assert (greedy_path (mcts_head s3) node
          ∧ ∀ B, all_nodes (below B) (mcts_head s) -> all_nodes (below B) (mcts_head s3))
    as (Hpath3 & Hbelow3).
  { destruct Hhead as [->|[rs ->]].
    - split; [by apply greedy_path_update|].
      intros B HB. by apply below_set_terminal.
    - split; [by apply greedy_path_update; [|apply greedy_path_update]|].
      intros B HB. by apply below_expand, below_set_terminal. }
  split; [by eapply greedy_path_snoc|].
  intros B HB. by apply Hbelow3, Hbelow.
Qed.

(** A run of the loop of [_greedy] that returns.  The node [node] at which
    it is entered is a node that the tree [t0] of before the search had, or
    a new node without children. *)
Lemma greedy_loop_path (state : Obs C) (t0 : MCTSNode.t) (fuel : nat) :
  ∀ node s nd,
    MCTSNode.get node (mcts_head s) = Some nd ->
    MCTSNode.get node t0 = Some nd
    ∨ (MCTSNode.children nd = [] ∧ MCTSNode.terminal nd = false) ->
    greedy_path (mcts_head s) node ->
    (∀ B, all_nodes (below B) t0 -> all_nodes (below B) (mcts_head s)) ->
    result (greedy_loop C fuel state node s) = Ok () ->
    ∃ q,
      greedy_path (mcts_head (final (greedy_loop C fuel state node s))) (node ++ q)
      ∧ (MCTSNode.terminal
           <$> MCTSNode.get (node ++ q) (mcts_head (final (greedy_loop C fuel state node s))))
        = Some true
      ∧ ((visited (events (greedy_loop C fuel state node s)) = descent node q ++ [node ++ q]
          ∧ ∃ s_at st total,
              env s_at = env s
              ∧ result (_parse_path C state (node ++ q) s_at) = Ok (st, total, true)
              ∧ backups (events (greedy_loop C fuel state node s))
                = [(node ++ q, episode_reward s + total)]
              ∧ backed_up t0 (mcts_head (final (greedy_loop C fuel state node s)))
                  (node ++ q) (episode_reward s + total))
         ∨ (visited (events (greedy_loop C fuel state node s)) = descent node q
            ∧ (MCTSNode.terminal <$> MCTSNode.get (node ++ q) t0) = Some true
            ∧ backups (events (greedy_loop C fuel state node s)) = [])).
Proof.
  induction fuel as [|fuel IH]; intros node s nd Hnd Horigin Hpath Hbelow Hok.
  all: destruct (MCTSNode.terminal nd) eqn:Hterm.
  1,3: rewrite (greedy_loop_done _ state node s nd Hnd Hterm); cbn [result final events];
       exists []; rewrite app_nil_r;
       (split; [done|]); (split; [by rewrite Hnd; cbn; rewrite Hterm|]);
       right; (split; [done|]); split; [|done];
       destruct Horigin as [->|[_ Hopen]]; [by cbn; rewrite Hterm | congruence].
  { destruct (greedy_loop_replays 0 state node s nd Hnd Hterm Hok) as (f & _ & _ & _ & [=] & _). }
  destruct (greedy_loop_replays (S fuel) state node s nd Hnd Hterm Hok)
    as (_ & st & total & dn & _ & Hres).
  destruct dn.
  - destruct (greedy_step_terminal fuel state node s nd st total Hnd Hterm Hres)
      as (_ & Hfin & Hback & Hvis).
    exists []. rewrite app_nil_r, Hfin.
    split; [by apply greedy_path_give_reward, greedy_path_update|].
    split; [by rewrite get_give_reward_same, get_update_same, Hnd|].
    left. split; [done|]. exists s, st, total.
    split; [done|]. split; [done|]. split; [done|].
    by apply give_reward_backed_up.
  - assert (MCTSNode.children nd = [] -> find_legal_actions C st ≠ []) as Hlegal.
    { intros Hkids Hnone.
      by rewrite (greedy_step_stuck fuel state node s nd st total Hnd Hterm Hres Hkids Hnone)
        in Hok. }
    destruct (greedy_step_descend fuel state node s nd st total Hnd Hterm Hres Hlegal)
      as (a & s3 & nd3 & c & Hrun & Henv & Hep & Hhead & Hnd3 & Hterm3 & Hsel & Hc & Hcase).
    destruct (greedy_step_tree t0 node s s3 nd nd3 c a _ Hnd Hhead Hnd3 Hterm3 Hsel Hpath Hbelow)
      as (Hpath3 & Hbelow3).
    rewrite Hrun in Hok |- *. cbn [result final events] in Hok |- *.
    destruct (IH (node ++ [a]) s3 c) as (q & H1 & H2 & H3); try done.
    { by rewrite (get_snoc node a _ nd3). }
    { destruct Hcase as [Hold|(_ & Hnew)]; [|by right].
      destruct Horigin as [Hnd0|[Hkids _]].
      - left. by rewrite (get_snoc node a _ nd).
      - unfold MCTSNode.child in Hold. by rewrite Hkids in Hold. }
    exists (a :: q).
    replace (node ++ a :: q) with ((node ++ [a]) ++ q) by (by rewrite <- app_assoc).
    split; [done|]. split; [done|].
    assert (∀ rest, visited (events (_parse_path C state node s) ++ EvSetTerminal node false
                      :: (if bool_decide (MCTSNode.children nd = [])
                          then [EvExpand node (find_legal_actions C st)] else []) ++ rest)
                    = node :: visited rest) as Hvis.
    { intros rest. rewrite visited_app, (parse_path_no_visit C). cbn [app].
      by destruct (bool_decide _). }
    assert (∀ rest, backups (events (_parse_path C state node s) ++ EvSetTerminal node false
                      :: (if bool_decide (MCTSNode.children nd = [])
                          then [EvExpand node (find_legal_actions C st)] else []) ++ rest)
                    = backups rest) as Hback.
    { intros rest. rewrite backups_app, parse_path_no_backup. cbn [app].
      by destruct (bool_decide _). }
    rewrite Hvis, Hback, descent_cons.
    destruct H3 as [(Hv & s_at & st' & total' & Hat & Hres' & Hb & Hq)|(Hv & Ht0 & Hb)].
    + left. split; [by rewrite Hv|]. exists s_at, st', total'.
      split; [congruence|]. split; [done|]. split; [by rewrite Hb, Hep|]. by rewrite <- Hep.
    + right. split; [by rewrite Hv|]. done.
Qed.

(** Where the replays of the paths that [_greedy] can take end within [H]
    actions, the loop returns, from a node at depth [d], within [H + 1 - d]
    iterations. *)
Lemma greedy_loop_returns (H : nat) (state : Obs C) (s0 : Agent C) :
  episodes_end_within C H s0 state ->
  ∀ n node s nd,
    (H ≤ length node + n)%nat ->
    env s = env s0 ->
    MCTSNode.get node (mcts_head s) = Some nd ->
    MCTSNode.get node (mcts_head s0) = Some nd
    ∨ (MCTSNode.children nd = [] ∧ MCTSNode.terminal nd = false) ->
    greedy_route C s0 state node ->
    result (greedy_loop C (S n) state node s) = Ok ().
Proof.
  intros Hend n.
  induction n as [|n IH]; intros node s nd Hlen Henv Hnd Horigin Hroute.
  all: destruct (MCTSNode.terminal nd) eqn:Hterm;
    [by rewrite (greedy_loop_done _ state node s nd Hnd Hterm)|].
  all: destruct (Hend s node Henv Hroute) as (st & total & dn & Hres & Hhor & Hlegal).
  all: destruct dn;
    [exact (proj1 (greedy_step_terminal _ state node s nd st total Hnd Hterm Hres))|].
  { assert (false = true) by (apply Hhor; lia). done. }
  destruct (greedy_step_descend (S n) state node s nd st total Hnd Hterm Hres
              (λ _, Hlegal eq_refl))
    as (a & s3 & nd3 & c & Hrun & Henv3 & _ & _ & Hnd3 & _ & _ & Hc & Hcase).
  rewrite Hrun. cbn [result].
  apply (IH (node ++ [a]) s3 c).
  - rewrite length_app. cbn. lia.
  - congruence.
  - by rewrite (get_snoc node a _ nd3).
  - destruct Hcase as [Hold|(_ & Hnew)]; [|by right].
    destruct Horigin as [Hnd0|[Hkids _]].
    + left. by rewrite (get_snoc node a _ nd).
    + unfold MCTSNode.child in Hold. by rewrite Hkids in Hold.
  - intros p' a' Hpre.
    apply prefix_snoc_inv in Hpre as [Hpre|Heq]; [by apply Hroute|].
    apply app_inj_tail in Heq as [-> ->].
    destruct Hcase as [Hold|(Hin & _)].
    + destruct Horigin as [Hnd0|[Hkids _]].
      * left. exists nd. split; [done|].
        apply assoc_elem_of in Hold. apply list_elem_of_fmap. by exists (a, c).
      * unfold MCTSNode.child in Hold. by rewrite Hkids in Hold.
    + right. exists s, st, total. by rewrite Henv.
Qed.

(** Where no step reports done, the loop of [_greedy] uses up any fuel. *)
Lemma greedy_loop_endless (state : Obs C) (real : Obs C) :
  (∀ e a, is_Some (env_step C e a)) ->
  (∀ e p, reports_done C e p = false) ->
  (∀ st, find_legal_actions C st ≠ []) ->
  ∀ fuel node s,
    env_state C (env s) = Some real ->
    all_nodes unfinished (mcts_head s) ->
    is_Some (MCTSNode.get node (mcts_head s)) ->
    result (greedy_loop C fuel state node s) = OutOfFuel.
Proof.
  intros Hstep Hnever Hlegal fuel.
  induction fuel as [|fuel IH]; intros node s Hreal Hopen [nd Hnd].
  all: pose proof (all_nodes_here _ _ (all_nodes_get _ _ _ _ Hopen Hnd)) as Hterm.
  - cbn [greedy_loop]. rewrite bind_run, the_node_run, Hnd. cbn [result final events].
    by rewrite Hterm.
  - destruct (parse_path_reports state node s real Hreal Hstep) as (st & total & e0 & Hres).
    rewrite Hnever in Hres.
    destruct (greedy_step_descend fuel state node s nd st total Hnd Hterm Hres (λ _, Hlegal st))
      as (a & s3 & nd3 & c & Hrun & Henv & _ & Hhead & Hnd3 & _ & _ & Hc & _).
    rewrite Hrun. cbn [result]. apply IH.
    + by rewrite Henv.
    + destruct Hhead as [->|[rs ->]].
      * by apply unfinished_set_terminal.
      * by apply unfinished_expand, unfinished_set_terminal.
    + rewrite (get_snoc node a _ nd3) by done. by eexists.
Qed.

End Greedy.


(** ** The properties of the search core *)

Section Claims.

Variable C : Collaborators.

(** C1: a call of [_mcts] on a root whose number of children is not one,
    when it returns, has run as many simulation passes (each ends with one
    backup) as [range(n)] has elements for
    [n = min(max(n_mc_target * len(legal actions) - root.n, n_mc_min), n_mc_max)];
    that is [n] passes when [n] is not negative.  With [n_mc_target = 5],
    three legal actions, no visit of the root, [n_mc_min = 5] and
    [n_mc_max = 100] these are 15 passes. *)
Theorem mcts_runs_budget (state : Obs C) (max_steps : nat) (s : Agent C)
    (r : action * pyval (Prob C)) :
  length (MCTSNode.children (mcts_head s)) ≠ 1%nat ->
  result (_mcts C state max_steps s) = Ok r ->
  let n :=
    Z.min (Z.max (n_mc_target s * Z.of_nat (length (find_legal_actions C state))
                  - MCTSNode.n (mcts_head s))
                 (n_mc_min s))
          (n_mc_max s) in
  passes (events (_mcts C state max_steps s)) = Z.to_nat n
  ∧ (0 <= n -> Z.of_nat (passes (events (_mcts C state max_steps s))) = n)
  ∧ (n_mc_target s = 5 -> length (find_legal_actions C state) = 3%nat ->
     MCTSNode.n (mcts_head s) = 0 -> n_mc_min s = 5 -> n_mc_max s = 100 ->
     passes (events (_mcts C state max_steps s)) = 15%nat).
Proof.
  intros Hkids Hres n.
  assert (passes (events (_mcts C state max_steps s)) = Z.to_nat n) as Hn.
  { rewrite (mcts_passes C state max_steps s r Hres).
    by destruct (decide (length (MCTSNode.children (mcts_head s)) = 1%nat)). }
  split; [exact Hn|]. split.
  - intros Hpos. rewrite Hn. lia.
  - intros Ht Hl Hv Hmin Hmax. rewrite Hn. subst n. rewrite Ht, Hl, Hv, Hmin, Hmax.
    reflexivity.
Qed.

(** C2: a call of [_mcts] on a root with exactly one child, when it
    returns, has run exactly one simulation pass, whatever the budget
    computed from the configuration would be. *)
Theorem mcts_single_child_one_pass (state : Obs C) (max_steps : nat) (s : Agent C)
    (r : action * pyval (Prob C)) :
  length (MCTSNode.children (mcts_head s)) = 1%nat ->
  result (_mcts C state max_steps s) = Ok r ->
  passes (events (_mcts C state max_steps s)) = 1%nat.
Proof.
  intros Hkids Hres. rewrite (mcts_passes C state max_steps s r Hres).
  by destruct (decide (length (MCTSNode.children (mcts_head s)) = 1%nat)).
Qed.

(** C3: [_parse_path] sets the simulated environment to the internal state
    of the real one exactly when the state of the copy is unset or not close
    to the state of the real environment; it then applies the actions of the
    path in order with the step function of the copy, stops after the first
    step that reports done, and returns the state that the last step
    returned (the given state when no step was taken), the sum of the step
    rewards and the terminal flag.  The run returns [x], leaves the copy as
    [e'] and makes the calls [applied] exactly when that is the replay of
    the path. *)
Theorem parse_path_replays (state : Obs C) (path : list action) (s : Agent C)
    (real : Obs C) (applied : list action) (e' : Env C) (x : Obs C * reward * bool) :
  env_state C (env s) = Some real ->
  let diverged :=
    match env_state C (sim_env s) with
    | None => true
    | Some sim_state => negb (isclose C sim_state real)
    end in
  let e0 :=
    if diverged then set_internal_state C (sim_env s) (get_internal_state C (env s))
    else sim_env s in
  (result (_parse_path C state path s) = Ok x
   ∧ final (_parse_path C state path s) = with_sim_env C e' s
   ∧ events (_parse_path C state path s)
     = (if diverged then [EvSetInternalState] else []) ++ (EvStep <$> applied))
  ↔ replayed C e0 state path applied e' x.
Proof.
  intros Hreal diverged e0.
  rewrite (parse_path_run C state path s real Hreal). cbn zeta.
  fold diverged.
  set (s0 := if diverged then _ else s).
  assert (sim_env s0 = e0) as He0 by (subst s0 e0; by destruct diverged).
  assert (∀ e, with_sim_env C e s0 = with_sim_env C e s) as Hs0
    by (intros e; subst s0; by destruct diverged).
  cbn [result final events]. split.
  - intros (Hres & Hfin & Hev).
    apply app_inv_head in Hev.
    destruct (result (follow_path C path state 0 s0)) as [[[st total] terminal]| |] eqn:Hr;
      try done.
    injection Hres as <-.
    destruct (follow_path_sound C path state 0 s0 applied _ Hr Hev)
      as (_ & outs & rest & Hpath & Hsteps & Hstop & Htot & Hst).
    rewrite Hfin, He0 in Hsteps. cbn [sim_env with_sim_env] in Hsteps.
    exists outs, rest. cbn in *. by subst.
  - intros (outs & rest & Hpath & Hsteps & Hstop & Htot & Hst).
    destruct x as [[xs xt] xd]. cbn in *.
    destruct (follow_path_complete C path state 0 s0 applied e'
                (default state ((λ out, out.1.1) <$> last outs), xt, xd))
      as (Hr & Hf & He).
    { rewrite He0. by exists outs, rest. }
    rewrite Hr, Hf, He, Hs0. by subst.
Qed.

(** C4: path replay, an MCTS decision, greedy expansion, beam search, and
    the decision of any agent leave the real environment as it was, whether
    they return, raise or run out of fuel: every step of a search is a step
    of the simulated copy. *)
Theorem search_keeps_real_env (state : Obs C) (path : list action) (fuel max_steps : nat)
    (bs : Z) (s : Agent C) :
  env (final (_parse_path C state path s)) = env s
  ∧ env (final (_mcts C state max_steps s)) = env s
  ∧ env (final (_greedy C fuel state s)) = env s
  ∧ env (final (_beam_search C fuel state bs s)) = env s
  ∧ env (final (_predict C fuel state max_steps s)) = env s.
Proof.
  repeat split.
  - apply parse_path_env.
  - apply mcts_env.
  - apply greedy_env.
  - apply beam_search_env.
  - apply predict_env.
Qed.

(** C10: the replay of the empty path takes no step of the environment and
    returns the total reward 0 with the terminal flag [False]; so a pass of
    [_mcts], [_greedy] (entered with a root that is not marked terminal) and
    [_beam_search] each call [set_terminal(False)] on the root and never
    [set_terminal(True)], whatever the state of the environment is. *)
Theorem empty_path_marks_root_open (state : Obs C) (s : Agent C) (real : Obs C)
    (fuel max_steps : nat) (bs : Z) :
  env_state C (env s) = Some real ->
  (result (_parse_path C state [] s) = Ok (tensorize C state, 0, false)
   ∧ ∀ a, EvStep a ∉ events (_parse_path C state [] s))
  ∧ (EvSetTerminal [] false ∈ events (mcts_trajectory C (S max_steps) state s)
     ∧ EvSetTerminal [] true ∉ events (mcts_trajectory C (S max_steps) state s))
  ∧ (MCTSNode.terminal (mcts_head s) = false ->
     EvSetTerminal [] false ∈ events (_greedy C (S fuel) state s)
     ∧ EvSetTerminal [] true ∉ events (_greedy C (S fuel) state s))
  ∧ (EvSetTerminal [] false ∈ events (_beam_search C (S fuel) state bs s)
     ∧ EvSetTerminal [] true ∉ events (_beam_search C (S fuel) state bs s)).
Proof.
  intros Hreal.
  assert (∀ evs, Forall (λ ev, ev ≠ EvSetTerminal [] true) evs ->
                 EvSetTerminal [] true ∉ evs) as Hnot.
  { intros evs Hall Hin. by apply (proj1 (Forall_forall _ _) Hall _ Hin). }
  split; [by apply (parse_path_nil_run C state s real)|].
  split; [|split].
  - split; [by apply (mcts_trajectory_marks_root C max_steps state s real)|].
    apply Hnot, mcts_trajectory_root_open.
  - intros Hopen. split; [by apply (greedy_marks_root C fuel state s real)|].
    apply Hnot, greedy_root_open.
  - split; [by apply (beam_search_marks_root C fuel state bs s real)|].
    apply Hnot, beam_search_root_open.
Qed.

(** C7: for the agents of class [RandomMCTSAgent] no decision returns an
    action with an info record.  [_mcts] passes [step_rewards] to
    [_evaluate_policy], which the method of this class does not accept, so
    the call raises; and when the method is called with an action and without
    [step_rewards] it returns [None] instead of the probability, of which
    [torch.log] cannot be taken. *)
Theorem random_agent_reports_no_log_prob (state : Obs C) (fuel max_steps : nat) (s : Agent C) :
  cls s = RandomMCTSAgent ->
  (∀ r, result (_mcts C state max_steps s) ≠ Ok r)
  ∧ (∀ r, result (_predict C fuel state max_steps s) ≠ Ok r)
  ∧ (∀ l a s' p, result (Random_evaluate_policy C l None (Some a) s') ≠ Ok (PyScalar p))
  ∧ (∀ s', result (torch_log C PyNone s') = Raise TypeError).
Proof.
  intros Hcls. split; [|split; [|split]].
  - intros r. by apply Random_mcts_never_returns.
  - intros r. unfold _predict. rewrite bind_run. cbn [get_agent result final events].
    rewrite Hcls. cbn. by apply Random_mcts_never_returns.
  - intros l a s' p. unfold Random_evaluate_policy. by destruct (decide _).
  - done.
Qed.

(** C9: the constructors and [set_precision] accept every configuration:
    the parameters are stored as they are given and no error is reported. *)
Theorem construction_accepts_every_config (k : AgentClass) (e : Env C) (cfg : Config)
    (n_mc_target' n_mc_min' n_mc_max' : Z) (mcts_mode' : string) (c_puct' : Z) (s : Agent C) :
  __init__ C k e cfg = Ok (new_agent C k e cfg)
  ∧ n_mc_min (new_agent C k e cfg) = cfg_n_mc_min cfg
  ∧ n_mc_max (new_agent C k e cfg) = cfg_n_mc_max cfg
  ∧ mcts_mode (new_agent C k e cfg) = cfg_mcts_mode cfg
  ∧ c_puct (new_agent C k e cfg) = cfg_c_puct cfg
  ∧ beam_size (new_agent C k e cfg) = cfg_beam_size cfg
  ∧ result (set_precision C n_mc_target' n_mc_min' n_mc_max' mcts_mode' c_puct' s) = Ok ()
  ∧ (let s' := final (set_precision C n_mc_target' n_mc_min' n_mc_max' mcts_mode' c_puct' s) in
     n_mc_min s' = n_mc_min' ∧ n_mc_max s' = n_mc_max' ∧ mcts_mode s' = mcts_mode'
     ∧ c_puct s' = c_puct').
Proof. by repeat split. Qed.


(** C8: a simulation pass that reaches a node without children, which the
    replay finds not terminal and whose state has no legal action, is not
    treated as terminal: [set_terminal(True)] is not called on it, its flag
    stays [False], and the evaluation of the policy on the empty list of
    actions raises, which ends the search. *)
Theorem zero_legal_actions_abort_search (k : nat) (state : Obs C) (p : list action)
    (total : reward) (s : Agent C) (this_state : Obs C) (tot : reward) (nd : MCTSNode.t) :
  result (_parse_path C state p s) = Ok (this_state, tot, false) ->
  MCTSNode.get p (mcts_head s) = Some nd ->
  MCTSNode.children nd = [] ->
  find_legal_actions C this_state = [] ->
  ∃ e, result (mcts_descend C (S k) state p total s) = Raise e
       ∧ e ∈ [NotImplementedError; TypeError; RuntimeError]
       ∧ (EvSetTerminal p true ∉ events (mcts_descend C (S k) state p total s))
       ∧ (MCTSNode.terminal
            <$> MCTSNode.get p (mcts_head (final (mcts_descend C (S k) state p total s))))
         = Some false.
Proof. apply descend_no_legal_action. Qed.




(** C5: [_greedy] need not return: its loop has no bound on the iterations
    and ends only at a node marked terminal.  A call that returns has
    processed the nodes of one path [p] from the root, one after the other:
    at every node before [p], which the replay found not terminal, the action
    taken leads to a child with the highest immediate step reward, and [p]
    is marked terminal.  Either the replay of [p] reported done: then the
    call made exactly one backup, at [p], of the return
    [R = episode_reward + total_reward] of this replay, and the maximum
    [q_max] of every node of the path is at least [R], and equal to [R] when
    no maximum and no lower reward bound of the tree exceeded [R] before.  Or
    [p] was marked terminal before the call: then the call stopped there
    without processing [p] and made no backup.  And the call returns within
    [H + 1] iterations where every replay of a path that [_greedy] can take
    returns, reports done once the path has [H] actions, and returns a state
    with a legal action when it does not report done. *)
Theorem greedy_descends_and_backs_up (state : Obs C) (s : Agent C) :
  (∀ fuel, result (_greedy C fuel state s) = Ok () ->
     ∃ p,
       (∀ p' a, p' ++ [a] `prefix_of` p ->
          ∃ nd, MCTSNode.get p' (mcts_head (final (_greedy C fuel state s))) = Some nd
                ∧ MCTSNode.terminal nd = false
                ∧ highest_step_reward nd a)
       ∧ (MCTSNode.terminal
            <$> MCTSNode.get p (mcts_head (final (_greedy C fuel state s)))) = Some true
       ∧ ((visited (events (_greedy C fuel state s)) = descent [] p ++ [p]
           ∧ ∃ s_at st total,
               env s_at = env s
               ∧ result (_parse_path C state p s_at) = Ok (st, total, true)
               ∧ backups (events (_greedy C fuel state s)) = [(p, episode_reward s + total)]
               ∧ backed_up (mcts_head s) (mcts_head (final (_greedy C fuel state s))) p
                   (episode_reward s + total))
          ∨ (visited (events (_greedy C fuel state s)) = descent [] p
             ∧ (MCTSNode.terminal <$> MCTSNode.get p (mcts_head s)) = Some true
             ∧ backups (events (_greedy C fuel state s)) = [])))
  ∧ (∀ H fuel, episodes_end_within C H s state -> (H < fuel)%nat ->
       result (_greedy C fuel state s) = Ok ()).
Proof.
  unfold _greedy. split.
  - intros fuel Hok.
    destruct (greedy_loop_path C state (mcts_head s) fuel [] s (mcts_head s))
      as (p & H1 & H2 & H3); try done.
    { by left. }
    { intros p' a Hpre. apply prefix_nil_inv in Hpre. by destruct p'. }
    cbn [app] in *. exists p. split; [|by split].
    intros p' a Hpre. destruct (H1 p' a Hpre) as (nd & Hnd & Hterm & Hsel).
    exists nd. split; [done|]. split; [done|]. by apply select_greedy_highest.
  - intros H [|n] Hend Hlt; [lia|].
    apply (greedy_loop_returns C H state s Hend n [] s (mcts_head s)); try done.
    + cbn. lia.
    + by left.
    + intros p' a Hpre. apply prefix_nil_inv in Hpre. by destruct p'.
Qed.


End Claims.

(** ** More of the replay of a path *)

Section Replay.

Variable C : Collaborators.

Lemma follow_path_done_app (p q : list action) (state : Obs C) (total : reward) (s : Agent C)
    (st : Obs C) (tot : reward) :
  result (follow_path C p state total s) = Ok (st, tot, true) ->
  follow_path C (p ++ q) state total s = follow_path C p state total s.
Proof.
  revert state total s. induction p as [|a p IH]; intros state total s; [done|].
  cbn [app]. rewrite !follow_path_cons.
  destruct (env_step C (sim_env s) a) as [[e1 [[st1 r] dn]]|]; [|done].
  destruct dn; [done|]. cbn zeta. cbn [result].
  intros H. by rewrite (IH _ _ _ H).
Qed.

Lemma follow_path_snoc (p : list action) (a : action) (state : Obs C) (total : reward)
    (s : Agent C) (st : Obs C) (tot : reward) :
  result (follow_path C p state total s) = Ok (st, tot, false) ->
  follow_path C (p ++ [a]) state total s =
    let o := follow_path C p state total s in
    match env_step C (sim_env (final o)) a with
    | Some (e1, (st1, r, done)) =>
        {| result := Ok (st1, tot + r, done); final := with_sim_env C e1 (final o);
           events := events o ++ [EvStep a] |}
    | None =>
        {| result := Raise EnvError; final := final o; events := events o ++ [EvStep a] |}
    end.
Proof.
  revert state total s. induction p as [|b p IH]; intros state total s.
  - cbn [app]. intros [= <- <-]. rewrite follow_path_cons. cbn.
    by destruct (env_step C (sim_env s) a) as [[e1 [[st1 r] [|]]]|].
  - cbn [app]. rewrite !follow_path_cons.
    destruct (env_step C (sim_env s) b) as [[e1 [[st1 r] dn]]|]; [|done].
    destruct dn; [done|]. cbn zeta. cbn [result].
    intros H. rewrite (IH _ _ _ H). cbn zeta. cbn [final events].
    by destruct (env_step C _ a) as [[e2 [[st2 r2] dn2]]|].
Qed.

Lemma follow_path_fails (p : list action) (state : Obs C) (total : reward) (s : Agent C) :
  result (follow_path C p state total s)
  = if step_fails C (sim_env s) p then Raise EnvError
    else match result (follow_path C p state total s) with
         | Ok (st, tot, terminal) => Ok (st, tot, reports_done C (sim_env s) p)
         | _ => Raise EnvError
         end.
Proof.
  revert state total s. induction p as [|a p IH]; intros state total s; [done|].
  rewrite follow_path_cons. cbn [step_fails reports_done].
  destruct (env_step C (sim_env s) a) as [[e1 [[st1 r] dn]]|]; [|done].
  destruct dn; [done|]. cbn zeta. cbn [result orb].
  rewrite (IH st1 (total + r) (with_sim_env C e1 s)) at 1. cbn [sim_env with_sim_env].
  destruct (step_fails C e1 p); [done|].
  by destruct (result (follow_path C p st1 (total + r) (with_sim_env C e1 s))) as [[[? ?] ?]| |].
Qed.

Lemma follow_path_returns (p : list action) (state : Obs C) (total : reward) (s : Agent C) :
  step_fails C (sim_env s) p = false ->
  ∃ st tot, result (follow_path C p state total s) = Ok (st, tot, reports_done C (sim_env s) p).
Proof.
  revert state total s. induction p as [|a p IH]; intros state total s; [by eexists _, _|].
  rewrite follow_path_cons. cbn [step_fails reports_done].
  destruct (env_step C (sim_env s) a) as [[e1 [[st1 r] dn]]|]; [|done].
  destruct dn; [by eexists _, _|]. cbn zeta. cbn [result orb].
  intros H. apply (IH st1 (total + r) (with_sim_env C e1 s) H).
Qed.

Lemma parse_path_start (s : Agent C) (real : Obs C) :
  sim_env
    (if match env_state C (sim_env s) with
        | None => true
        | Some sim_state => negb (isclose C sim_state real)
        end
     then with_sim_env C (set_internal_state C (sim_env s) (get_internal_state C (env s))) s
     else s)
  = replay_start C s real.
Proof. unfold replay_start. by destruct (match env_state C (sim_env s) with None => _ | _ => _ end). Qed.

(** X1: a replay changes the simulated environment and nothing else of the
    agent, and the only calls it makes are calls on the simulated
    environment, whether it returns or raises. *)
Theorem parse_path_touches_only_sim_env (state : Obs C) (path : list action) (s : Agent C) :
  (∃ e, final (_parse_path C state path s) = with_sim_env C e s)
  ∧ Forall sim_event (events (_parse_path C state path s)).
Proof. split; [apply parse_path_final | apply parse_path_sim_events]. Qed.

(** X2: with the state of the real environment set, a replay raises only
    when a step of the simulated environment raises before a step has
    reported done, and then it raises the exception of the step; otherwise it
    returns, with the terminal flag set when a step has reported done. *)
Theorem parse_path_fails_only_at_a_step (state : Obs C) (path : list action) (s : Agent C)
    (real : Obs C) :
  env_state C (env s) = Some real ->
  if step_fails C (replay_start C s real) path
  then result (_parse_path C state path s) = Raise EnvError
  else ∃ st total,
         result (_parse_path C state path s)
         = Ok (st, total, reports_done C (replay_start C s real) path).
Proof.
  intros Hreal. rewrite (parse_path_run C state path s real Hreal). cbn zeta.
  cbn [result].
  match goal with
  | |- context [follow_path C path state 0 ?s0] =>
      rewrite <- (parse_path_start s real);
      pose proof (follow_path_fails path state 0 s0) as Hf;
      pose proof (follow_path_returns path state 0 s0) as Hr;
      destruct (step_fails C (sim_env s0) path)
  end.
  - by rewrite Hf.
  - destruct (Hr eq_refl) as (st & tot & ->). by eexists _, _.
Qed.

(** X3: the actions of a path after the step that reports done are ignored:
    when the replay of [p] returns with the terminal flag set, the replay of
    a path that goes on after [p] is the same run. *)
Theorem parse_path_ignores_actions_after_done (state : Obs C) (p q : list action)
    (s : Agent C) (st : Obs C) (total : reward) :
  result (_parse_path C state p s) = Ok (st, total, true) ->
  _parse_path C state (p ++ q) s = _parse_path C state p s.
Proof.
  unfold _parse_path. rewrite !bind_run.
  destruct (result (sim_env_diverged C s)) as [d| |]; [|done|done].
  cbn [result final events]. rewrite !(bind_run C (if d then resync C else mret ())).
  destruct (result ((if d then resync C else mret ()) (final (sim_env_diverged C s))))
    as [[]| |]; [|done|done].
  cbn [result final events]. rewrite !(bind_run C (follow_path C _ state 0)).
  destruct (result (follow_path C p state 0 _)) as [[[st' tot'] [|]]| |] eqn:Hp;
    cbn [result]; try done.
  intros _. by rewrite (follow_path_done_app p q _ _ _ _ _ Hp), Hp.
Qed.

(** X4: the replay of a path composes with one more step: when the replay
    of [p] returns without the terminal flag, the replay of [p ++ [a]] makes
    the same calls and then the step [a] on the environment that the replay
    of [p] leaves; it returns the state of this step, the total reward of
    [p] plus the reward of the step, and the done flag of the step, or
    raises when the step does. *)
Theorem parse_path_extends_by_one_step (state : Obs C) (p : list action) (a : action)
    (s : Agent C) (st : Obs C) (total : reward) :
  result (_parse_path C state p s) = Ok (st, total, false) ->
  let o := _parse_path C state p s in
  _parse_path C state (p ++ [a]) s =
    match env_step C (sim_env (final o)) a with
    | Some (e1, (st1, r, done)) =>
        {| result := Ok (tensorize C st1, total + r, done);
           final := with_sim_env C e1 s;
           events := events o ++ [EvStep a] |}
    | None =>
        {| result := Raise EnvError; final := final o; events := events o ++ [EvStep a] |}
    end.
Proof.
  intros H. cbn zeta.
  destruct (parse_path_final C state p s) as [e He].
  assert (∀ e1, with_sim_env C e1 s = with_sim_env C e1 (final (_parse_path C state p s)))
    as Hw by (intros e1; by rewrite He).
  revert H Hw. clear He.
  unfold _parse_path. rewrite !bind_run.
  destruct (result (sim_env_diverged C s)) as [d| |]; [|done|done].
  cbn [result final events]. rewrite !(bind_run C (if d then resync C else mret ())).
  destruct (result ((if d then resync C else mret ()) (final (sim_env_diverged C s))))
    as [[]| |]; [|done|done].
  cbn [result final events]. rewrite !(bind_run C (follow_path C _ state 0)).
  destruct (result (follow_path C p state 0 _)) as [[[st' tot'] [|]]| |] eqn:Hp;
    cbn [result final events]; try done.
  intros [= <- <-] Hw. rewrite (follow_path_snoc p a _ _ _ _ _ Hp). cbn zeta.
  unfold mret, M_ret. cbn [result final events]. rewrite ?app_nil_r.
  destruct (env_step C _ a) as [[e1 [[st1 r] dn]]|]; cbn [result final events].
  - rewrite Hw. by rewrite <- !app_assoc.
  - by rewrite <- !app_assoc.
Qed.

End Replay.

(** ** More of the passes of [_mcts] *)

Section Passes.

Variable C : Collaborators.

Lemma bind_events {A B} (m : M C A) (f : A -> M C B) (s : Agent C) :
  events ((m ≫= f) s)
  = events (m s) ++ match result (m s) with
                    | Ok a => events (f a (final (m s)))
                    | _ => []
                    end.
Proof. rewrite bind_run. destruct (result (m s)); cbn; by rewrite ?app_nil_r. Qed.

Lemma mcts_trajectory_one_backup (max_steps : nat) (state : Obs C) (s : Agent C) :
  (passes (events (mcts_trajectory C max_steps state s)) ≤ 1)%nat.
Proof.
  unfold mcts_trajectory, passes.
  rewrite bind_events, backups_app, mcts_descend_no_backup.
  destruct (result (mcts_descend C max_steps state [] 0 s)) as [[node total]| |];
    rewrite ?bind_run; cbn [get_agent result final events app]; rewrite ?node_give_reward_run; cbn; lia.
Qed.

Lemma repeat_times_at_most (k : nat) (body : M C unit) (s : Agent C) :
  (∀ s', passes (events (body s')) ≤ 1)%nat ->
  (passes (events (repeat_times C k body s)) ≤ k)%nat.
Proof.
  intros Hbody. revert s. induction k as [|k IH]; intros s; cbn [repeat_times]; [done|].
  unfold passes in *. rewrite bind_events, backups_app, length_app.
  specialize (Hbody s).
  destruct (result (body s)) as [[]| |]; [|cbn; lia|cbn; lia].
  specialize (IH (final (body s))). lia.
Qed.

Lemma evaluate_policy_final (state : Obs C) (l : list action) (rs : list reward)
    (a : option action) (s : Agent C) :
  final (_evaluate_policy C state l (Some rs) a s) = s.
Proof.
  revert s. apply (inv_evaluate_policy C (λ s _ s', s' = s)); [done|].
  intros; congruence.
Qed.

Lemma evaluate_policy_events (state : Obs C) (l : list action) (rs : list reward)
    (a : option action) (s : Agent C) :
  events (_evaluate_policy C state l (Some rs) a s) = [].
Proof.
  revert s. apply (inv_evaluate_policy C (λ _ evs _, evs = [])); [done|].
  by intros ? ? ? ? ? -> ->.
Qed.

Lemma torch_log_final (v : pyval (Prob C)) (s : Agent C) : final (torch_log C v s) = s.
Proof. by destruct v. Qed.

(** The choice of the action at the end of [_mcts] calls no collaborator and
    leaves the agent as it is. *)
Lemma mcts_choice_run (state : Obs C) (s : Agent C) :
  let choice :=
    s ← get_agent C;
    a ← or_raise C ValueError (MCTSNode.select_best (mcts_head s));
    p ← _evaluate_policy C state (find_legal_actions C state)
          (Some (MCTSNode.children_q_steps (mcts_head s))) (Some a);
    log_prob ← torch_log C p;
    mret (a, log_prob) in
  events (choice s) = [] ∧ final (choice s) = s.
Proof.
  cbn zeta. rewrite bind_run. cbn [get_agent result final events app].
  destruct (MCTSNode.select_best (mcts_head s)) as [a|]; [|done].
  rewrite bind_run. cbn [or_raise mret M_ret result final events app].
  rewrite bind_run, evaluate_policy_events, evaluate_policy_final.
  destruct (result (_evaluate_policy C state _ _ _ s)) as [v| |]; [|done|done].
  cbn [result final events app]. rewrite bind_run, torch_log_events, torch_log_final.
  by destruct (result (torch_log C v s)).
Qed.

(** X5: whatever its outcome, a call of [_mcts] makes at most as many backups
    as its budget: one when the root has exactly one child, and otherwise
    [min(max(n_mc_target * len(legal actions) - root.n, n_mc_min), n_mc_max)],
    none when this is not positive. *)
Theorem mcts_never_exceeds_budget (state : Obs C) (max_steps : nat) (s : Agent C) :
  (passes (events (_mcts C state max_steps s))
   ≤ Z.to_nat (if decide (length (MCTSNode.children (mcts_head s)) = 1%nat) then 1
               else mcts_budget C state s))%nat.
Proof.
  unfold _mcts, for_range, passes. rewrite bind_run.
  cbn [get_agent result final events app]. cbn zeta.
  rewrite bind_events, backups_app, length_app.
  fold (mcts_budget C state s).
  set (n := if decide _ then 1 else mcts_budget C state s).
  pose proof (repeat_times_at_most (Z.to_nat n) (mcts_trajectory C max_steps state) s
                (mcts_trajectory_one_backup max_steps state)) as Hloop.
  unfold passes in Hloop.
  destruct (result (repeat_times C (Z.to_nat n) (mcts_trajectory C max_steps state) s))
    as [[]| |]; [|cbn; lia|cbn; lia].
  destruct (mcts_choice_run state
              (final (repeat_times C (Z.to_nat n) (mcts_trajectory C max_steps state) s)))
    as [-> _].
  cbn. lia.
Qed.

End Passes.

(** ** The evaluation of the policy *)

Section Policy.

Variable C : Collaborators.

Lemma batch_rows_given_run (state : Obs C) (legal_actions : list action) (rs : list reward)
    (s : Agent C) :
  batch_rows C state (zip legal_actions (Some <$> rs)) s
  = {| result :=
         Ok ((λ x : action * reward,
                (x.1,
                 if log_likelihood_feature s
                 then Some (clip x.2 (reward_range s).1 (reward_range s).2) else None,
                 state)) <$> zip legal_actions rs);
       final := s; events := [] |}.
Proof.
  revert rs. induction legal_actions as [|a l IH]; intros [|r rs]; try done.
  cbn [zip zip_with fmap list_fmap batch_rows].
  rewrite bind_run. cbn [get_agent result final events app].
  rewrite bind_run.
  destruct (log_likelihood_feature s) eqn:Hllf.
  - rewrite bind_run. cbn [mret M_ret result final events app].
    rewrite bind_run. fold (zip l (Some <$> rs)). rewrite IH.
    cbn [result final events app]. done.
  - cbn [mret M_ret result final events app].
    rewrite bind_run. fold (zip l (Some <$> rs)). rewrite IH.
    cbn [result final events app]. done.
Qed.

Lemma clip_bounds (x lo hi : reward) : lo <= hi -> lo <= clip x lo hi <= hi.
Proof. unfold clip. lia. Qed.

Lemma index_of_lookup (a : action) (l : list action) (i : nat) :
  index_of a l = Some i -> l !! i = Some a.
Proof.
  revert i. induction l as [|b l IH]; intros i; [done|]. cbn.
  destruct (decide (a = b)) as [->|_]; [by intros [= <-]|].
  destruct (index_of a l) as [j|]; [|done]. intros [= <-]. by apply IH.
Qed.

(** X6: with the step rewards given, [MCTSAgent._batch_state] calls no
    collaborator and leaves the agent as it is.  The batch has one row per
    pair of [zip(legal_actions, step_rewards)], in this order, so as many rows
    as the shorter of the two lists has elements; it raises when there is no
    row.  With the log-likelihood feature, the feature of a row is the step
    reward clipped at the bounds of the reward range: it lies between them
    when the lower bound is not above the upper one. *)
Theorem batch_state_rows (state : Obs C) (legal_actions : list action) (rs : list reward)
    (s : Agent C) :
  let rows :=
    (λ x : action * reward,
       (x.1,
        if log_likelihood_feature s
        then Some (clip x.2 (reward_range s).1 (reward_range s).2) else None,
        state)) <$> zip legal_actions rs in
  _batch_state C state legal_actions (Some rs) s
  = {| result := if decide (rows = []) then Raise RuntimeError else Ok rows;
       final := s; events := [] |}
  ∧ length rows = Nat.min (length legal_actions) (length rs)
  ∧ ((reward_range s).1 <= (reward_range s).2 ->
     ∀ row l, row ∈ rows -> row.1.2 = Some l ->
              (reward_range s).1 <= l <= (reward_range s).2).
Proof.
  cbn zeta. split; [|split].
  - unfold _batch_state. rewrite bind_run, batch_rows_given_run.
    cbn [result final events app]. by destruct (decide _).
  - by rewrite length_fmap, length_zip.
  - intros Hrange row l Hrow Hl.
    apply list_elem_of_fmap in Hrow as ([a r] & -> & _). cbn in Hl.
    destruct (log_likelihood_feature s); [|done].
    injection Hl as <-. by apply clip_bounds.
Qed.

Lemma evaluate_policy_for_action (state : Obs C) (legal_actions : list action)
    (rs : list reward) (a : action) (s : Agent C) (v : pyval (Prob C)) :
  result (_evaluate_policy C state legal_actions (Some rs) (Some a) s) = Ok v ->
  (cls s = MCTSAgent ∨ cls s = MCBSAgent)
  ∧ ∃ i rows p,
      legal_actions !! i = Some a
      ∧ result (_batch_state C state legal_actions (Some rs) s) = Ok rows
      ∧ actor C rows !! i = Some p
      ∧ v = PyScalar p.
Proof.
  intros H. unfold _evaluate_policy in H. rewrite bind_run in H.
  cbn [get_agent result final events app] in H. split.
  - destruct (cls s); try done; auto.
  - assert (result (MCTSAgent_evaluate_policy C state legal_actions (Some rs) (Some a) s) = Ok v)
      as H' by (by destruct (cls s)).
    clear H. unfold MCTSAgent_evaluate_policy in H'.
    apply bind_Ok in H' as (rows & Hrows & H & _). cbn zeta in H.
    destruct (index_of a legal_actions) as [i|] eqn:Hi; [|done].
    apply bind_Ok in H as (p & Hp & H & _).
    destruct (actor C rows !! i) as [p'|] eqn:Hlook; [|done].
    injection Hp as <-. injection H as <-.
    exists i, rows, p'. split; [by apply index_of_lookup|]. done.
Qed.

(** X7: with the step rewards given, the evaluation of the policy for an
    action returns only for the agents with a policy network and only for an
    action of the list of legal actions: the result is the output of the
    network at the position of the action in this list.  The call changes
    nothing of the agent. *)
Theorem evaluate_policy_scalar_for_legal_action (state : Obs C) (legal_actions : list action)
    (rs : list reward) (a : action) (s : Agent C) (v : pyval (Prob C)) :
  result (_evaluate_policy C state legal_actions (Some rs) (Some a) s) = Ok v ->
  (cls s = MCTSAgent ∨ cls s = MCBSAgent)
  ∧ final (_evaluate_policy C state legal_actions (Some rs) (Some a) s) = s
  ∧ ∃ i rows p,
      legal_actions !! i = Some a
      ∧ result (_batch_state C state legal_actions (Some rs) s) = Ok rows
      ∧ actor C rows !! i = Some p
      ∧ v = PyScalar p.
Proof.
  intros H. destruct (evaluate_policy_for_action state legal_actions rs a s v H) as [Hk Hex].
  split; [exact Hk|]. split; [apply evaluate_policy_final | exact Hex].
Qed.

End Policy.

(** ** What a decision leaves of the agent and of its tree *)

Section Decision.

Variable C : Collaborators.

Lemma with_mcts_head_same (s : Agent C) : with_mcts_head C (mcts_head s) s = s.
Proof. by destruct s. Qed.

Lemma predict_search_state_only (fuel : nat) (state : Obs C) (max_steps : nat) (s : Agent C) :
  search_state_only C s (events (_predict C fuel state max_steps s))
    (final (_predict C fuel state max_steps s)).
Proof.
  revert s. apply (inv_predict C (search_state_only C)) with (E := λ _, True);
    unfold search_state_only; try done.
  - intros s. exists (sim_env s), (mcts_head s). by destruct s.
  - intros s evs s' evs' s'' (e & t & ->) (e' & t' & ->). by exists e', t'.
  - intros s ev _. exists (sim_env s), (mcts_head s). by destruct s.
  - intros s e. exists e, (mcts_head s). by destruct s.
  - intros s p b. eexists (sim_env s), _. by destruct s.
  - intros s p actions rs. eexists (sim_env s), _. by destruct s.
  - intros s p. eexists (sim_env s), _. by destruct s.
  - intros s r p. eexists (sim_env s), _. by destruct s.
Qed.

Lemma predict_keys (fuel : nat) (state : Obs C) (max_steps : nat) (s : Agent C) :
  all_nodes well_keyed (mcts_head s) ->
  all_nodes well_keyed (mcts_head (final (_predict C fuel state max_steps s))).
Proof.
  revert s. apply (inv_predict C (keys_kept C)) with (E := λ _, True);
    unfold keys_kept; try done; cbn [mcts_head with_mcts_head].
  - intros; eauto.
  - intros. by apply well_keyed_set_terminal.
  - intros. by apply well_keyed_expand.
  - intros. by apply well_keyed_set_in_beam.
  - intros. by apply well_keyed_give_reward.
Qed.

(** *** A search only adds to the tree *)

Lemma grows_refl (t : MCTSNode.t) : grows t t.
Proof. intros p nd Hnd. exists nd. repeat split; try done; lia. Qed.

Lemma grows_trans (t1 t2 t3 : MCTSNode.t) : grows t1 t2 -> grows t2 t3 -> grows t1 t3.
Proof.
  intros H12 H23 p nd1 Hnd1.
  destruct (H12 p nd1 Hnd1) as (nd2 & Hnd2 & Hs2 & Hn2 & Hq2 & Hk2).
  destruct (H23 p nd2 Hnd2) as (nd3 & Hnd3 & Hs3 & Hn3 & Hq3 & Hk3).
  exists nd3. split; [done|]. split; [congruence|]. split; [lia|]. split; [lia|].
  by etrans.
Qed.

Lemma grows_update (p : list action) (f : MCTSNode.t -> MCTSNode.t) (t : MCTSNode.t) :
  (∀ nd, MCTSNode.q_step (f nd) = MCTSNode.q_step nd) ->
  (∀ nd, MCTSNode.n nd <= MCTSNode.n (f nd)) ->
  (∀ nd, MCTSNode.q_max nd <= MCTSNode.q_max (f nd)) ->
  (∀ nd, MCTSNode.keys nd `prefix_of` MCTSNode.keys (f nd)) ->
  (∀ nd a c, MCTSNode.child a nd = Some c -> MCTSNode.child a (f nd) = Some c) ->
  grows t (MCTSNode.update p f t).
Proof.
  intros Hs Hn Hq Hk Hc. revert t. induction p as [|a p IH]; intros t p' nd Hnd.
  - cbn [MCTSNode.update]. destruct p' as [|b p'].
    + injection Hnd as <-. exists (f t). repeat split; auto.
    + cbn in Hnd. destruct (MCTSNode.child b t) as [c|] eqn:Hchild; [|done].
      exists nd. cbn. rewrite (Hc t b c Hchild). repeat split; try done; lia.
  - cbn [MCTSNode.update]. destruct p' as [|b p'].
    + injection Hnd as <-. eexists. split; [done|]. repeat split; try done; try (cbn; lia).
      unfold MCTSNode.keys. cbn. by rewrite assoc_update_keys.
    + cbn in Hnd. unfold MCTSNode.child in Hnd.
      destruct (MCTSNode.assoc b (MCTSNode.children t)) as [c|] eqn:Hchild; [|done].
      cbn [MCTSNode.get]. unfold MCTSNode.child. cbn [MCTSNode.children MCTSNode.with_children].
      destruct (decide (a = b)) as [->|Hab].
      * rewrite assoc_update_same, Hchild. cbn. by apply IH.
      * rewrite assoc_update_other, Hchild by done. by apply grows_refl.
Qed.

Lemma grows_give_reward (r : reward) (p : list action) (t : MCTSNode.t) :
  grows t (MCTSNode.give_reward r p t).
Proof.
  assert (∀ x : MCTSNode.t, MCTSNode.q_max x <= (if MCTSNode.q_max x <? r then r else MCTSNode.q_max x))
    as Hmax by (intros x; destruct (Z.ltb_spec (MCTSNode.q_max x) r); lia).
  revert t. induction p as [|a p IH]; intros t p' nd Hnd.
  - cbn [MCTSNode.give_reward]. destruct p' as [|b p'].
    + injection Hnd as <-. eexists. split; [done|]. cbn.
      repeat split; try done; try lia; apply Hmax.
    + exists nd. split; [exact Hnd|]. repeat split; try done; lia.
  - cbn [MCTSNode.give_reward]. destruct p' as [|b p'].
    + injection Hnd as <-. eexists. split; [done|]. cbn.
      repeat split; try done; try lia; try apply Hmax.
      unfold MCTSNode.keys. cbn. by rewrite assoc_update_keys.
    + cbn in Hnd. unfold MCTSNode.child in Hnd.
      destruct (MCTSNode.assoc b (MCTSNode.children t)) as [c|] eqn:Hchild; [|done].
      cbn [MCTSNode.get]. unfold MCTSNode.child.
      cbn [MCTSNode.children MCTSNode.with_children MCTSNode.bump].
      destruct (decide (a = b)) as [->|Hab].
      * rewrite assoc_update_same, Hchild. cbn. by apply IH.
      * rewrite assoc_update_other, Hchild by done. by apply grows_refl.
Qed.

Lemma expand_kids_prefix (rmin rmax : reward) (new : list (action * reward))
    (kids : list (action * MCTSNode.t)) :
  kids `prefix_of` MCTSNode.expand_kids rmin rmax new kids.
Proof.
  revert kids. induction new as [|[a r] new IH]; intros kids; [done|]. cbn.
  etrans; [|apply IH]. destruct (decide _); [done|]. by apply prefix_app_r.
Qed.

Lemma assoc_prefix (a : action) (kids kids' : list (action * MCTSNode.t)) (c : MCTSNode.t) :
  kids `prefix_of` kids' -> MCTSNode.assoc a kids = Some c -> MCTSNode.assoc a kids' = Some c.
Proof.
  intros [new ->]. induction kids as [|[b c'] kids IH]; [done|]. cbn.
  destruct (decide (a = b)); [done | exact IH].
Qed.

Lemma grows_expand (p : list action) (actions : list action) (rs : list reward)
    (t : MCTSNode.t) :
  grows t (MCTSNode.update p (MCTSNode.expand actions rs) t).
Proof.
  apply grows_update; try done.
  - intros nd. unfold MCTSNode.keys. cbn.
    destruct (expand_kids_prefix (MCTSNode.reward_min nd) (MCTSNode.reward_max nd)
                (zip actions rs) (MCTSNode.children nd)) as [new ->].
    rewrite fmap_app. by apply prefix_app_r.
  - intros nd a c. unfold MCTSNode.child. cbn. apply assoc_prefix, expand_kids_prefix.
Qed.

Lemma predict_grows (fuel : nat) (state : Obs C) (max_steps : nat) (s : Agent C) :
  grows (mcts_head s) (mcts_head (final (_predict C fuel state max_steps s))).
Proof.
  revert s. apply (inv_predict C (λ s _ s', grows (mcts_head s) (mcts_head s')))
    with (E := λ _, True); try done; cbn [mcts_head with_mcts_head with_sim_env].
  - intros s. apply grows_refl.
  - intros s evs s' evs' s''. apply grows_trans.
  - intros s ev _. apply grows_refl.
  - intros s e. apply grows_refl.
  - intros s p b. by apply grows_update.
  - intros s p actions rs. apply grows_expand.
  - intros s p. by apply grows_update.
  - intros s r p. apply grows_give_reward.
Qed.

(** X8: a decision of an agent of any class, whatever its outcome, changes
    the simulated environment and the search tree and nothing else of the
    agent: its class, its parameters, the reward of the episode so far and
    the real environment are the ones of before. *)
Theorem decision_changes_only_search_state (fuel : nat) (state : Obs C) (max_steps : nat)
    (s : Agent C) :
  let s' := final (_predict C fuel state max_steps s) in
  (∃ e t, s' = with_mcts_head C t (with_sim_env C e s))
  ∧ cls s' = cls s
  ∧ config_of C s' = config_of C s
  ∧ episode_reward s' = episode_reward s
  ∧ env s' = env s.
Proof.
  cbn zeta. destruct (predict_search_state_only fuel state max_steps s) as (e & t & ->).
  split; [by exists e, t|]. done.
Qed.

(** X9: a decision, whatever its outcome, only adds to the search tree: every
    node of the tree of before is a node of the tree of after, under the same
    path and with the same step reward; its visit count and its maximal
    return have not decreased, and its children of before are its first
    children, in the same order. *)
Theorem decision_only_grows_tree (fuel : nat) (state : Obs C) (max_steps : nat) (s : Agent C)
    (p : list action) (nd : MCTSNode.t) :
  MCTSNode.get p (mcts_head s) = Some nd ->
  ∃ nd', MCTSNode.get p (mcts_head (final (_predict C fuel state max_steps s))) = Some nd'
         ∧ MCTSNode.q_step nd' = MCTSNode.q_step nd
         ∧ MCTSNode.n nd <= MCTSNode.n nd'
         ∧ MCTSNode.q_max nd <= MCTSNode.q_max nd'
         ∧ MCTSNode.keys nd `prefix_of` MCTSNode.keys nd'.
Proof. apply predict_grows. Qed.

End Decision.

(** ** The path of a pass of [_mcts], and the action that [_mcts] returns *)

Section Descent.

Variable C : Collaborators.

Lemma evaluate_policy_no_visit (state : Obs C) (l : list action) (rs : list reward)
    (a : option action) (s : Agent C) :
  visited (events (_evaluate_policy C state l (Some rs) a s)) = [].
Proof. by rewrite evaluate_policy_events. Qed.

Lemma visited_set_terminal (p : list action) (b : bool) (evs : list event) :
  visited (EvSetTerminal p b :: evs) = p :: visited evs.
Proof. done. Qed.






Lemma argmax_highest (score : MCTSNode.t -> Z) (kids : list (action * MCTSNode.t))
    (a : action) :
  MCTSNode.argmax score kids = Some a ->
  ∃ c, (a, c) ∈ kids ∧ ∀ x, x ∈ kids -> score x.2 <= score c.
Proof.
  unfold MCTSNode.argmax. destruct kids as [|x kids]; [done|]. intros [= <-].
  exists (MCTSNode.argmax_from score x kids).2. split.
  - rewrite <- surjective_pairing. apply argmax_from_elem_of.
  - intros y Hy. by apply argmax_from_highest.
Qed.

Lemma mcts_returns_best (state : Obs C) (max_steps : nat) (s : Agent C)
    (a : action) (log_prob : pyval (Prob C)) :
  result (_mcts C state max_steps s) = Ok (a, log_prob) ->
  let root := mcts_head (final (_mcts C state max_steps s)) in
  (cls s = MCTSAgent ∨ cls s = MCBSAgent)
  ∧ a ∈ find_legal_actions C state
  ∧ (∃ c, (a, c) ∈ MCTSNode.children root
          ∧ ∀ x, x ∈ MCTSNode.children root -> MCTSNode.q_max x.2 <= MCTSNode.q_max c)
  ∧ ∃ p, log_prob = PyScalar (log C p).
Proof.
  intros H. cbn zeta.
  assert (∃ n, final (_mcts C state max_steps s)
               = final (for_range C n (mcts_trajectory C max_steps state) s)
               ∧ result ((s ← get_agent C;
                          a ← or_raise C ValueError (MCTSNode.select_best (mcts_head s));
                          p ← _evaluate_policy C state (find_legal_actions C state)
                                (Some (MCTSNode.children_q_steps (mcts_head s))) (Some a);
                          log_prob ← torch_log C p;
                          mret (a, log_prob))
                           (final (for_range C n (mcts_trajectory C max_steps state) s)))
                 = Ok (a, log_prob)) as (n & Hfin & Hchoice).
  { unfold _mcts in *. rewrite bind_run in *. cbn [get_agent result final events app] in *.
    cbn zeta in *. eexists. rewrite bind_run in *.
    destruct (result (for_range C _ (mcts_trajectory C max_steps state) s)) as [[]| |];
      [|done|done].
    cbn [result final] in *. split; [|exact H].
    match goal with
    | |- final (_ ?s1) = ?s1 => by destruct (mcts_choice_run C state s1) as [_ ->]
    end. }
  rewrite Hfin. clear H Hfin.
  pose proof (for_range_cls C n max_steps state s) as Hcls.
  remember (final (for_range C n (mcts_trajectory C max_steps state) s)) as s1 eqn:E. clear E.
  apply bind_Ok in Hchoice as (s1' & Hs1 & H & _). injection Hs1 as <-.
  cbn [get_agent final] in H.
  apply bind_Ok in H as (a' & Ha & H & _). rewrite or_raise_final in H.
  destruct (MCTSNode.select_best (mcts_head s1)) as [a''|] eqn:Hbest; [|done].
  injection Ha as ->.
  apply bind_Ok in H as (v & Hv & H & _).
  apply evaluate_policy_for_action in Hv as (Hk & i & rows & p & Hi & _ & _ & ->).
  apply bind_Ok in H as (lp & Hlp & H & _). injection Hlp as <-.
  injection H as <- <-.
  split; [by rewrite <- Hcls|]. split; [by eapply list_elem_of_lookup_2|].
  split; [by apply argmax_highest|]. by exists p.
Qed.


End Descent.

(** ** Beam search without width *)

Section NoWidth.

Variable C : Collaborators.

Lemma beam_process_no_width (bs : Z) (this_state : Obs C) (total : reward) (s : Agent C) :
  bs <= 0 ->
  MCTSNode.terminal (mcts_head s) = false ->
  ∃ mid t,
    beam_process C bs [] this_state total s
    = {| result := Ok []; final := with_mcts_head C t s; events := mid |}
    ∧ visited mid = []
    ∧ ∀ p chosen, EvSelectBeam p chosen ∉ mid.
Proof.
  intros Hbs Hopen. unfold beam_process.
  rewrite bind_run, the_node_root. cbn [result final events app]. rewrite Hopen. cbn [negb andb].
  rewrite bind_run.
  assert (∃ mid t,
            (if bool_decide (MCTSNode.children (mcts_head s) = [])
             then expand_node C [] this_state else mret ()) s
            = {| result := Ok (); final := with_mcts_head C t s; events := mid |}
            ∧ MCTSNode.terminal t = false
            ∧ visited mid = []
            ∧ ∀ p chosen, EvSelectBeam p chosen ∉ mid) as (mid & t & -> & Ht & Hmid & Hsel).
  { destruct (bool_decide _).
    - rewrite expand_node_run. eexists _, _. split; [reflexivity|]. cbn. split; [done|].
      split; [done|]. intros p chosen [=]%list_elem_of_singleton.
    - exists [], (mcts_head s). rewrite with_mcts_head_same. split; [done|]. split; [done|].
      split; [done|]. intros p chosen. apply not_elem_of_nil. }
  cbn [result final events app].
  rewrite bind_run, the_node_root. cbn [result final events app mcts_head with_mcts_head].
  rewrite Ht. rewrite bind_run. cbn [mret M_ret result final events app].
  rewrite bind_run, the_node_root. cbn [result final events app mcts_head with_mcts_head].
  cbn zeta.
  assert ((Z.min bs (MCTSNode.len t) <=? MCTSNode.count_beam_children t) = true) as ->.
  { apply Z.leb_le. unfold MCTSNode.count_beam_children. lia. }
  cbn [mret M_ret result final events app]. rewrite !app_nil_r.
  by exists mid, t.
Qed.

Lemma beam_visit_no_width (state : Obs C) (bs : Z) (s : Agent C) (real : Obs C) :
  bs <= 0 ->
  env_state C (env s) = Some real ->
  ∃ mid s',
    beam_visit C state bs [] s = {| result := Ok []; final := s'; events := mid |}
    ∧ visited mid = [[]]
    ∧ ∀ p chosen, EvSelectBeam p chosen ∉ mid.
Proof.
  intros Hbs Hreal. unfold beam_visit. rewrite bind_run.
  destruct (parse_path_nil_run C state s real Hreal) as [Hres _].
  destruct (parse_path_final C state [] s) as [e He].
  pose proof (parse_path_no_visit C state [] s) as Hvis.
  pose proof (parse_path_sim_events C state [] s) as Hsim.
  rewrite Hres, He.
  remember (events (_parse_path C state [] s)) as pe eqn:Hpe. clear Hpe Hres He.
  cbn beta iota.
  rewrite bind_run, node_set_terminal_run. cbn [result final events app].
  match goal with
  | |- context [beam_process C bs [] ?st ?tot ?s2] =>
      destruct (beam_process_no_width bs st tot s2 Hbs eq_refl)
        as (mid & t & -> & Hmid & Hsel)
  end.
  cbn [result final events app]. eexists _, _. split; [reflexivity|]. split.
  - rewrite !visited_app, Hvis. cbn [app]. by rewrite visited_set_terminal, Hmid.
  - intros p chosen Hin.
    rewrite !elem_of_app, !elem_of_cons in Hin.
    destruct Hin as [Hin|[[=]|Hin]].
    + destruct (proj1 (Forall_forall _ _) Hsim _ Hin) as [[=]|[a [=]]].
    + by apply (Hsel p chosen).
Qed.

(** X12: with a beam width of zero or less, [_beam_search] processes the
    root and no other node: it expands the root when it has no children,
    selects no child of any node, and returns after one round. *)
Theorem beam_search_without_width_stops_at_root (fuel : nat) (state : Obs C) (bs : Z)
    (s : Agent C) (real : Obs C) :
  bs <= 0 ->
  env_state C (env s) = Some real ->
  result (_beam_search C (S fuel) state bs s) = Ok ()
  ∧ visited (events (_beam_search C (S fuel) state bs s)) = [[]]
  ∧ ∀ p chosen, EvSelectBeam p chosen ∉ events (_beam_search C (S fuel) state bs s).
Proof.
  intros Hbs Hreal.
  destruct (beam_visit_no_width state bs s real Hbs Hreal) as (mid & s' & Hrun & Hmid & Hsel).
  assert (keep_top bs [] = []) as Hkeep.
  { unfold keep_top, slice_to. cbn. destruct (0 <=? bs); apply take_nil. }
  assert (∀ f st b (s' : Agent C),
            beam_loop C f st b [] [] s' = {| result := Ok ([], []); final := s'; events := [] |})
    as Hstop by (by intros [|f] st b s'').
  assert (_beam_search C (S fuel) state bs s
          = {| result := Ok (); final := s'; events := mid ++ [EvKeep [] []] |}) as ->.
  { unfold _beam_search. rewrite bind_run. cbn [get_agent result final events app].
    rewrite bind_run. cbn [beam_loop].
    replace (bool_decide ([(episode_reward s, [])] = [])) with false
      by (symmetry; by apply bool_decide_eq_false).
    cbn [andb]. rewrite bind_run. cbn [beam_round]. rewrite bind_run, Hrun.
    cbn [result final events app beam_round mret M_ret]. cbn zeta.
    rewrite Hkeep. rewrite bind_run. cbn [emit result final events app].
    rewrite Hstop. cbn [result final events app mret M_ret].
    by rewrite !app_nil_r. }
  cbn [result events]. split; [done|]. split.
  - by rewrite visited_app, Hmid.
  - intros p chosen [Hin|[=]%list_elem_of_singleton]%elem_of_app. by apply (Hsel p chosen).
Qed.

End NoWidth.

(** ** The update after a step of the environment, and the life of the tree *)

Section Lifecycle.

Variable C : Collaborators.
Variable History : Type.
Variable history_store : History -> pyval (Prob C) -> reward -> History.
Variable history_clear : History -> History.
Variable rollout_loss : History -> res reward.

#[local] Abbreviation run_update := (update C History history_store history_clear rollout_loss).

Lemma predict_is_mcts (fuel : nat) (state : Obs C) (max_steps : nat) (s : Agent C)
    (r : action * pyval (Prob C)) :
  result (_predict C fuel state max_steps s) = Ok r ->
  ∃ s', result (_mcts C state max_steps s') = Ok r
        ∧ final (_predict C fuel state max_steps s) = final (_mcts C state max_steps s').
Proof.
  unfold _predict. rewrite bind_run. cbn [get_agent result final events app].
  destruct (cls s); try (by exists s).
  intros H.
  apply bind_Ok in H as ([] & _ & H & -> & _).
  apply bind_Ok in H as ([] & _ & H & -> & _).
  by eexists.
Qed.

Lemma new_agent_keys (k : AgentClass) (e : Env C) (cfg : Config) :
  all_nodes well_keyed (mcts_head (new_agent C k e cfg)).
Proof. constructor; [apply NoDup_nil_2 | constructor]. Qed.

Lemma update_agent (rew : reward) (a : action) (done : bool) (next_reward : reward)
    (log_prob : option (pyval (Prob C))) (l : Learner C History) :
  agent (run_update rew a done next_reward log_prob l).2
  = if done then final (_init_episode C (add_episode_reward C next_reward (agent l)))
    else match MCTSNode.child a (mcts_head (agent l)) with
         | Some c => with_mcts_head C c (add_episode_reward C next_reward (agent l))
         | None => add_episode_reward C next_reward (agent l)
         end.
Proof.
  unfold update. cbn zeta. rewrite bind_run. cbn [modify result final events app].
  destruct done.
  - cbn [_init_episode modify result final]. destruct (training l); [|done].
    destruct log_prob; [|done]. by destruct (_train _ _ _ _).
  - rewrite bind_run. cbn [get_agent result final events app mcts_head add_episode_reward].
    destruct (MCTSNode.child a (mcts_head (agent l))) as [c|]; [|done].
    rewrite bind_run. cbn [or_raise mret M_ret modify result final events app].
    destruct (training l); [|done]. by destruct log_prob.
Qed.

Lemma update_keys (rew : reward) (a : action) (done : bool) (next_reward : reward)
    (log_prob : option (pyval (Prob C))) (l : Learner C History) :
  all_nodes well_keyed (mcts_head (agent l)) ->
  all_nodes well_keyed (mcts_head (agent (run_update rew a done next_reward log_prob l).2)).
Proof.
  intros Hl. rewrite update_agent. destruct done.
  - cbn. constructor; [apply NoDup_nil_2 | constructor].
  - destruct (MCTSNode.child a (mcts_head (agent l))) as [c|] eqn:Hc; [|done].
    cbn. by eapply all_nodes_child.
Qed.

Lemma update_result (rew : reward) (a : action) (done : bool) (next_reward : reward)
    (log_prob : option (pyval (Prob C))) (l : Learner C History) :
  training l = false ->
  run_update rew a done next_reward log_prob l
  = (if done then Ok 0
     else match MCTSNode.child a (mcts_head (agent l)) with
          | Some _ => Ok 0
          | None => Raise KeyError
          end,
     {| agent := agent (run_update rew a done next_reward log_prob l).2;
        training := false; history := history l |}).
Proof.
  intros Htr. unfold update. cbn zeta. rewrite bind_run. cbn [modify result final events app].
  destruct done.
  - cbn [_init_episode modify result final training]. by rewrite Htr.
  - rewrite bind_run. cbn [get_agent result final events app mcts_head add_episode_reward].
    destruct (MCTSNode.child a (mcts_head (agent l))) as [c|]; [|by rewrite Htr].
    rewrite bind_run. cbn [or_raise mret M_ret modify result final events app training].
    by rewrite Htr.
Qed.

Lemma update_returns (rew : reward) (a : action) (next_reward : reward)
    (log_prob : option (pyval (Prob C))) (l : Learner C History) (c : MCTSNode.t) :
  MCTSNode.child a (mcts_head (agent l)) = Some c ->
  (training l = true -> is_Some log_prob) ->
  (run_update rew a false next_reward log_prob l).1 = Ok 0.
Proof.
  intros Hc Hlp. unfold update. cbn zeta. rewrite bind_run. cbn [modify result final events app].
  rewrite bind_run. cbn [get_agent result final events app mcts_head add_episode_reward].
  rewrite Hc. rewrite bind_run. cbn [or_raise mret M_ret modify result final events app training].
  destruct (training l); [|done]. by destruct (Hlp eq_refl) as [lp ->].
Qed.

Lemma mcts_returns_child (state : Obs C) (max_steps : nat) (s : Agent C)
    (a : action) (log_prob : pyval (Prob C)) :
  result (_mcts C state max_steps s) = Ok (a, log_prob) ->
  is_Some (MCTSNode.child a (mcts_head (final (_mcts C state max_steps s)))).
Proof.
  intros H.
  destruct (mcts_returns_best C state max_steps s a log_prob H)
    as (_ & _ & (c & Hc & _) & _).
  unfold MCTSNode.child.
  induction (MCTSNode.children _) as [|[b c'] kids IH]; [by apply elem_of_nil in Hc|].
  cbn. destruct (decide (a = b)); [done|].
  apply IH. apply elem_of_cons in Hc as [[= -> ->]|Hc]; done.
Qed.

(** X13: after a decision that has returned the action [a], the update for
    this action in an episode that goes on does not fail at the tree: [a]
    leads to a child of the root, the update returns the loss [0.0] and leaves
    the agent with the subtree of this child as its tree and with the reward
    of the step added to the reward of the episode.  In training mode this
    needs the keyword [log_prob]. *)
Theorem update_after_decision_reroots (fuel : nat) (state : Obs C) (max_steps : nat)
    (s : Agent C) (a : action) (lp : pyval (Prob C)) (rew next_reward : reward)
    (log_prob : option (pyval (Prob C))) (l : Learner C History) :
  result (_predict C fuel state max_steps s) = Ok (a, lp) ->
  agent l = final (_predict C fuel state max_steps s) ->
  (training l = true -> is_Some log_prob) ->
  ∃ c,
    MCTSNode.child a (mcts_head (agent l)) = Some c
    ∧ (run_update rew a false next_reward log_prob l).1 = Ok 0
    ∧ agent (run_update rew a false next_reward log_prob l).2
      = with_mcts_head C c (add_episode_reward C next_reward (agent l))
    ∧ episode_reward (agent (run_update rew a false next_reward log_prob l).2)
      = episode_reward s + next_reward.
Proof.
  intros Hres Hl Hlp.
  destruct (predict_is_mcts fuel state max_steps s _ Hres) as (s' & Hmcts & Hfin).
  destruct (mcts_returns_child state max_steps s' a lp Hmcts) as [c Hc].
  rewrite <- Hfin, <- Hl in Hc.
  exists c. split; [done|]. split; [by eapply update_returns|].
  rewrite update_agent, Hc. split; [done|].
  cbn [episode_reward with_mcts_head add_episode_reward]. rewrite Hl.
  destruct (predict_search_state_only C fuel state max_steps s) as (e & t & ->). done.
Qed.

(** X14: the update at the end of an episode starts a new one, whatever the
    action is and whether the update returns or raises: the agent has a new
    root without children and without visits, with the bounds of the reward
    range, and the reward of the episode is [0.0]; its class, its parameters
    and its environments are the ones of before.  An agent that is not in
    training mode returns the loss [0.0] and keeps its memory. *)
Theorem update_at_episode_end_resets (rew : reward) (a : action) (next_reward : reward)
    (log_prob : option (pyval (Prob C))) (l : Learner C History) :
  let l' := (run_update rew a true next_reward log_prob l).2 in
  mcts_head (agent l')
  = MCTSNode.fresh (reward_range (agent l)).1 (reward_range (agent l)).2 0
  ∧ episode_reward (agent l') = 0
  ∧ cls (agent l') = cls (agent l)
  ∧ config_of C (agent l') = config_of C (agent l)
  ∧ env (agent l') = env (agent l)
  ∧ sim_env (agent l') = sim_env (agent l)
  ∧ (training l = false ->
     (run_update rew a true next_reward log_prob l).1 = Ok 0 ∧ history l' = history l).
Proof.
  cbn zeta. rewrite update_agent.
  do 6 (split; [done|]).
  intros Htr. by rewrite (update_result rew a true next_reward log_prob l Htr).
Qed.


(** X16: an update returns a loss other than [0.0] only at the end of an
    episode, in training mode, and for an agent with a policy network; then
    the memory has been cleared.  An agent that is not in training mode keeps
    its memory in every update. *)
Theorem update_loss_only_after_training_episode (rew : reward) (a : action) (done : bool)
    (next_reward : reward) (log_prob : option (pyval (Prob C))) (l : Learner C History)
    (loss : reward) :
  (run_update rew a done next_reward log_prob l).1 = Ok loss ->
  (loss ≠ 0 ->
   training l = true ∧ done = true
   ∧ (cls (agent l) = MCTSAgent ∨ cls (agent l) = MCBSAgent)
   ∧ ∃ lp, log_prob = Some lp
           ∧ rollout_loss (history_store (history l) lp rew) = Ok loss
           ∧ history (run_update rew a done next_reward log_prob l).2
             = history_clear (history_store (history l) lp rew))
  ∧ (training l = false ->
     history (run_update rew a done next_reward log_prob l).2 = history l).
Proof.
  intros H. split.
  - intros Hloss. revert H. unfold update. cbn zeta.
    rewrite bind_run. cbn [modify result final events app].
    destruct done.
    + cbn [_init_episode modify result final training history agent].
      destruct (training l); [|by intros [= <-]].
      destruct log_prob as [lp|]; [|done].
      unfold _train. cbn [agent cls history add_episode_reward].
      destruct (cls (agent l)) eqn:Hcls; cbn [fst snd history]; try done.
      * by intros [= <-].
      * destruct (rollout_loss _) eqn:Hr; try done. intros [= ->].
        split; [done|]. split; [done|]. split; [auto|]. by exists lp.
      * destruct (rollout_loss _) eqn:Hr; try done. intros [= ->].
        split; [done|]. split; [done|]. split; [auto|]. by exists lp.
    + rewrite bind_run. cbn [get_agent result final events app mcts_head add_episode_reward].
      destruct (MCTSNode.child a (mcts_head (agent l))) as [c|]; [|done].
      rewrite bind_run. cbn [or_raise mret M_ret modify result final events app training].
      destruct (training l); [|by intros [= <-]].
      destruct log_prob; [by intros [= <-] | done].
  - intros Htr. by rewrite (update_result rew a done next_reward log_prob l Htr).
Qed.

Lemma set_env_run (e : Env C) (s : Agent C) :
  set_env C e s
  = {| result := Ok (); final := new_agent C (cls s) e (config_of C s); events := [] |}.
Proof. reflexivity. Qed.


(** X18: the children of every node of the tree of an agent have different
    actions, all its life: this holds of the agent that the constructor or
    [set_env] leaves, and a decision and an update, whatever their outcome,
    keep it. *)
Theorem tree_stays_well_keyed :
  (∀ k e cfg, all_nodes well_keyed (mcts_head (new_agent C k e cfg)))
  ∧ (∀ e s, all_nodes well_keyed (mcts_head (final (set_env C e s))))
  ∧ (∀ fuel state max_steps s,
       all_nodes well_keyed (mcts_head s) ->
       all_nodes well_keyed (mcts_head (final (_predict C fuel state max_steps s))))
  ∧ (∀ rew a done next_reward log_prob l,
       all_nodes well_keyed (mcts_head (agent l)) ->
       all_nodes well_keyed
         (mcts_head (agent (run_update rew a done next_reward log_prob l).2))).
Proof.
  split; [apply new_agent_keys|]. split; [|split].
  - intros e s. rewrite set_env_run. apply new_agent_keys.
  - intros fuel state max_steps s. apply predict_keys.
  - intros rew a done next_reward log_prob l. apply update_keys.
Qed.

End Lifecycle.

(** ** The statistics of the root *)

Section RootStatistics.

Variable C : Collaborators.

Lemma root_counts_refl (s : Agent C) : root_counts_backups C s [] s.
Proof. unfold root_counts_backups. cbn. repeat split; lia. Qed.

Lemma root_counts_trans (s : Agent C) (evs : list event) (s' : Agent C) (evs' : list event)
    (s'' : Agent C) :
  root_counts_backups C s evs s' -> root_counts_backups C s' evs' s'' ->
  root_counts_backups C s (evs ++ evs') s''.
Proof.
  unfold root_counts_backups. cbn zeta. intros (Hn & Hq & Hm) (Hn' & Hq' & Hm').
  rewrite backups_app, fmap_app, length_app, foldr_app, foldl_app.
  split; [lia|]. split.
  - rewrite Hq', Hq.
    assert (∀ (l : list Z) x, foldr Z.add x l = foldr Z.add 0 l + x) as Hsum.
    { induction l as [|y l IH]; intros x; cbn; [lia|]. rewrite IH. lia. }
    rewrite (Hsum _ (foldr Z.add 0 _)). lia.
  - by rewrite Hm', Hm.
Qed.

Lemma root_of_update (p : list action) (f : MCTSNode.t -> MCTSNode.t) (t : MCTSNode.t) :
  (∀ nd, MCTSNode.n (f nd) = MCTSNode.n nd) ->
  (∀ nd, MCTSNode.q (f nd) = MCTSNode.q nd) ->
  (∀ nd, MCTSNode.q_max (f nd) = MCTSNode.q_max nd) ->
  MCTSNode.n (MCTSNode.update p f t) = MCTSNode.n t
  ∧ MCTSNode.q (MCTSNode.update p f t) = MCTSNode.q t
  ∧ MCTSNode.q_max (MCTSNode.update p f t) = MCTSNode.q_max t.
Proof. intros Hn Hq Hm. destruct p; cbn; auto. Qed.

Lemma root_of_give_reward (r : reward) (p : list action) (t : MCTSNode.t) :
  MCTSNode.n (MCTSNode.give_reward r p t) = MCTSNode.n t + 1
  ∧ MCTSNode.q (MCTSNode.give_reward r p t) = MCTSNode.q t + r
  ∧ MCTSNode.q_max (MCTSNode.give_reward r p t) = Z.max (MCTSNode.q_max t) r.
Proof.
  assert ((if MCTSNode.q_max t <? r then r else MCTSNode.q_max t) = Z.max (MCTSNode.q_max t) r)
    as Hmax by (destruct (Z.ltb_spec (MCTSNode.q_max t) r); lia).
  destruct p; cbn; auto.
Qed.

Lemma mcts_descend_root (k : nat) (state : Obs C) (node : list action) (total : reward)
    (s : Agent C) :
  MCTSNode.n (mcts_head (final (mcts_descend C k state node total s))) = MCTSNode.n (mcts_head s)
  ∧ MCTSNode.q (mcts_head (final (mcts_descend C k state node total s)))
    = MCTSNode.q (mcts_head s)
  ∧ MCTSNode.q_max (mcts_head (final (mcts_descend C k state node total s)))
    = MCTSNode.q_max (mcts_head s).
Proof.
  revert s.
  apply (inv_mcts_descend C
           (λ s _ s', MCTSNode.n (mcts_head s') = MCTSNode.n (mcts_head s)
                      ∧ MCTSNode.q (mcts_head s') = MCTSNode.q (mcts_head s)
                      ∧ MCTSNode.q_max (mcts_head s') = MCTSNode.q_max (mcts_head s)))
    with (E := λ _, True); try done; cbn [mcts_head with_mcts_head].
  - intros s evs s' evs' s'' (? & ? & ?) (? & ? & ?). repeat split; congruence.
  - intros s p b. by apply root_of_update.
  - intros s p actions rs. by apply root_of_update.
Qed.

Lemma mcts_trajectory_root (max_steps : nat) (state : Obs C) :
  inv C (root_counts_backups C) (mcts_trajectory C max_steps state).
Proof.
  intros s. unfold mcts_trajectory. rewrite bind_run.
  pose proof (mcts_descend_root max_steps state [] 0 s) as (Hn & Hq & Hm).
  pose proof (mcts_descend_no_backup C max_steps state [] 0 s) as Hquiet.
  destruct (result (mcts_descend C max_steps state [] 0 s)) as [[node total]| |];
    cbn [result final events]; unfold root_counts_backups; cbn zeta.
  - rewrite bind_run. cbn [get_agent result final events app].
    rewrite node_give_reward_run. cbn [result final events mcts_head with_mcts_head].
    rewrite backups_app, Hquiet.
    change (backups [EvGiveReward ?p ?r]) with [(p, r)].
    cbn [app fmap list_fmap length foldr foldl snd].
    destruct (root_of_give_reward
                (episode_reward (final (mcts_descend C max_steps state [] 0 s)) + total) node
                (mcts_head (final (mcts_descend C max_steps state [] 0 s))))
      as (-> & -> & ->).
    rewrite Hn, Hq, Hm. repeat split; lia.
  - rewrite Hquiet. cbn. repeat split; lia.
  - rewrite Hquiet. cbn. repeat split; lia.
Qed.

Lemma mcts_root (state : Obs C) (max_steps : nat) :
  inv C (root_counts_backups C) (_mcts C state max_steps).
Proof.
  pose proof root_counts_refl as Hrefl. pose proof root_counts_trans as Htrans.
  unfold _mcts, for_range.
  apply inv_bind; [done | by apply inv_get_agent |]. intros s.
  apply inv_bind; [done | |].
  { apply inv_repeat_times; [done | done | apply mcts_trajectory_root]. }
  intros _. apply inv_bind; [done | by apply inv_get_agent |]. intros s'.
  apply inv_bind; [done | by apply inv_or_raise |]. intros a.
  apply inv_bind; [done | by apply inv_evaluate_policy |]. intros v.
  apply inv_bind; [done | by apply inv_torch_log |]. intros lp.
  by apply inv_ret.
Qed.

(** X19: whatever the outcome of a call of [_mcts], the statistics of the root
    account for the backups of the call: the visit count of the root has
    grown by the number of backups, the sum of its returns by the sum of the
    returns backed up, and its maximal return is the greatest of the one of
    before and of these returns.  So the visits that [_mcts] subtracts in the
    budget of a later call on the same root are the passes made so far. *)
Theorem mcts_root_counts_backups (state : Obs C) (max_steps : nat) (s : Agent C) :
  let evs := events (_mcts C state max_steps s) in
  let root := mcts_head (final (_mcts C state max_steps s)) in
  MCTSNode.n root = MCTSNode.n (mcts_head s) + Z.of_nat (passes evs)
  ∧ MCTSNode.q root = MCTSNode.q (mcts_head s) + foldr Z.add 0 (backups evs).*2
  ∧ MCTSNode.q_max root = foldl Z.max (MCTSNode.q_max (mcts_head s)) (backups evs).*2.
Proof.
  cbn zeta. destruct (mcts_root state max_steps s) as (Hn & Hq & Hm).
  unfold passes. rewrite length_fmap in Hn. done.
Qed.

End RootStatistics.


(** ** The properties at concrete runs *)

Lemma mcts_runs_budget_witness :
  length (MCTSNode.children (mcts_head (two_steps_agent MCTSAgent))) ≠ 1%nat
  ∧ result (_mcts two_steps (0 : Z) 1000 (two_steps_agent MCTSAgent)) = Ok (0, PyScalar (0 : Z))
  ∧ passes (events (_mcts two_steps (0 : Z) 1000 (two_steps_agent MCTSAgent))) = 15%nat.
Proof.
  assert (length (MCTSNode.children (mcts_head (two_steps_agent MCTSAgent))) ≠ 1%nat) as H1
    by (vm_compute; discriminate).
  assert (result (_mcts two_steps (0 : Z) 1000 (two_steps_agent MCTSAgent))
          = Ok (0, PyScalar (0 : Z))) as H2 by (vm_compute; reflexivity).
  split; [exact H1|]. split; [exact H2|].
  apply (mcts_runs_budget two_steps (0 : Z) 1000 _ _ H1 H2); reflexivity.
Defined.

Lemma mcts_single_child_one_pass_witness :
  length (MCTSNode.children (mcts_head one_action_agent)) = 1%nat
  ∧ result (_mcts one_action (0 : Z) 1000 one_action_agent) = Ok (0, PyScalar (0 : Z))
  ∧ passes (events (_mcts one_action (0 : Z) 1000 one_action_agent)) = 1%nat.
Proof.
  assert (length (MCTSNode.children (mcts_head one_action_agent)) = 1%nat) as H1
    by (vm_compute; reflexivity).
  assert (result (_mcts one_action (0 : Z) 1000 one_action_agent)
          = Ok (0, PyScalar (0 : Z))) as H2 by (vm_compute; reflexivity).
  split; [exact H1|]. split; [exact H2|].
  exact (mcts_single_child_one_pass one_action (0 : Z) 1000 _ _ H1 H2).
Defined.

Lemma parse_path_replays_witness :
  env_state two_steps (env (two_steps_agent MCTSAgent)) = Some (0 : Z)
  ∧ result (_parse_path two_steps (0 : Z) [0; 1; 2] (two_steps_agent MCTSAgent))
    = Ok (2 : Z, -3, true)
  ∧ events (_parse_path two_steps (0 : Z) [0; 1; 2] (two_steps_agent MCTSAgent))
    = [EvStep 0; EvStep 1].
Proof.
  split; [reflexivity|].
  destruct (proj2 (parse_path_replays two_steps (0 : Z) [0; 1; 2] (two_steps_agent MCTSAgent)
                     (0 : Z) [0; 1] (2 : Z) (2 : Z, -3, true) eq_refl)) as (H1 & _ & H2).
  - exists [(1 : Z, -1, false); (2 : Z, -2, true)], [2]. repeat split.
    + apply (steps_cons two_steps (0 : Z) 0 (1 : Z) (1 : Z, -1, false)); [reflexivity|].
      apply (steps_cons two_steps (1 : Z) 1 (2 : Z) (2 : Z, -2, true)); [reflexivity|].
      apply steps_nil.
    + exists [(1 : Z, -1, false)], (2 : Z, -2, true). repeat split.
      by apply Forall_singleton.
  - split; [exact H1 | exact H2].
Defined.

Lemma empty_path_marks_root_open_witness :
  result (_parse_path two_steps (0 : Z) [] (two_steps_agent MCBSAgent)) = Ok (0 : Z, 0, false)
  ∧ EvSetTerminal [] false ∈ events (_greedy two_steps 1 (0 : Z) (two_steps_agent MCBSAgent))
  ∧ EvSetTerminal [] false ∈ events (_beam_search two_steps 1 (0 : Z) 10 (two_steps_agent MCBSAgent)).
Proof.
  destruct (empty_path_marks_root_open two_steps (0 : Z) (two_steps_agent MCBSAgent) (0 : Z)
              0 0 10 eq_refl) as ((H1 & _) & _ & H2 & H3 & _).
  split; [exact H1|]. split; [exact (proj1 (H2 eq_refl)) | exact H3].
Defined.

Lemma random_agent_reports_no_log_prob_witness :
  result (_predict two_steps 10 (0 : Z) 1000 (two_steps_agent RandomMCTSAgent)) = Raise TypeError
  ∧ ∀ r, result (_predict two_steps 10 (0 : Z) 1000 (two_steps_agent RandomMCTSAgent)) ≠ Ok r.
Proof.
  split; [vm_compute; reflexivity|].
  exact (proj1 (proj2 (random_agent_reports_no_log_prob two_steps (0 : Z) 10 1000
                         (two_steps_agent RandomMCTSAgent) eq_refl))).
Defined.

(** An invalid configuration is accepted by the constructor. *)
Lemma invalid_config_is_accepted :
  ¬ valid_config bad_config
  ∧ __init__ two_steps MCBSAgent (0 : Z) bad_config
    = Ok (new_agent two_steps MCBSAgent (0 : Z) bad_config).
Proof.
  split; [|reflexivity].
  intros ([Hm|Hm] & _); discriminate Hm.
Qed.

(** A pass from a root without legal actions raises, and the root is not
    marked terminal. *)
Lemma no_legal_action_fails_mid_search :
  find_legal_actions dead_end (0 : Z) = []
  ∧ result (mcts_trajectory dead_end 1000 (0 : Z)
              (new_agent dead_end MCTSAgent (0 : Z) default_config)) = Raise RuntimeError
  ∧ MCTSNode.terminal
      (mcts_head (final (mcts_trajectory dead_end 1000 (0 : Z)
                           (new_agent dead_end MCTSAgent (0 : Z) default_config)))) = false
  ∧ result (_mcts dead_end (0 : Z) 1000
              (new_agent dead_end MCTSAgent (0 : Z) default_config)) = Raise RuntimeError.
Proof. repeat split; vm_compute; reflexivity. Qed.

Lemma zero_legal_actions_abort_search_witness :
  ∃ e, result (mcts_descend dead_end 1 (0 : Z) [] 0
                 (new_agent dead_end MCTSAgent (0 : Z) default_config)) = Raise e
       ∧ e ∈ [NotImplementedError; TypeError; RuntimeError].
Proof.
  destruct (zero_legal_actions_abort_search dead_end 0 (0 : Z) [] 0
              (new_agent dead_end MCTSAgent (0 : Z) default_config) (0 : Z) 0
              (MCTSNode.fresh (-200) 0 0) eq_refl eq_refl eq_refl eq_refl)
    as (e & Hres & He & _).
  exists e. split; [exact Hres | exact He].
Defined.


Lemma reports_done_never (e : Z) (p : list action) : reports_done endless e p = false.
Proof. revert e. induction p as [|a p IH]; intros e; [done|]. cbn. apply IH. Qed.

(** On episodes of two steps the replay of a path from the start of an
    episode reports done from the second action on. *)
Lemma two_steps_follow_path (p : list action) (s : Agent two_steps) :
  sim_env s = (0 : Z) ->
  ∃ st total dn,
    result (follow_path two_steps p (0 : Z) 0 s) = Ok (st, total, dn)
    ∧ ((2 ≤ length p)%nat -> dn = true).
Proof.
  intros He. destruct p as [|a [|b p]].
  - eexists _, _, false. split; [reflexivity | cbn; lia].
  - rewrite follow_path_cons, He. cbn. eexists _, _, false. split; [reflexivity | lia].
  - rewrite follow_path_cons, He. cbn [two_steps counter_env env_step]. cbn beta iota zeta.
    change (2 <=? 0 + 1) with false. cbn beta iota.
    rewrite follow_path_cons. cbn. eexists _, _, true. by split.
Qed.

Lemma two_steps_episodes_end (k : AgentClass) :
  episodes_end_within two_steps 2 (two_steps_agent k) (0 : Z).
Proof.
  intros s p Henv _.
  rewrite (parse_path_run two_steps (0 : Z) p s (0 : Z)) by (by rewrite Henv).
  cbn zeta.
  match goal with
  | |- context [follow_path two_steps p _ 0 ?s0] =>
      destruct (two_steps_follow_path p s0) as (st & total & dn & Hres & Hlen)
  end.
  { cbn. destruct (Z.eqb_spec (sim_env s) 0) as [He|He]; cbn; [done|]. by rewrite Henv. }
  rewrite Hres. cbn [result]. by exists st, total, dn.
Qed.

(** On episodes that never end greedy expansion does not return, whatever
    the fuel; where the states have no legal action it does not return
    either, as the selection of a child raises; and a second call of
    [_greedy] on the tree of a first one, whose path ends at a node that is
    marked terminal already, returns without a backup. *)
Lemma greedy_need_not_return_nor_back_up :
  (¬ ∃ fuel, result (_greedy endless fuel (0 : Z)
                       (new_agent endless MCBSAgent (0 : Z) default_config)) = Ok ())
  ∧ (¬ ∃ fuel, result (_greedy dead_end fuel (0 : Z)
                         (new_agent dead_end MCBSAgent (0 : Z) default_config)) = Ok ())
  ∧ backups (events (_greedy two_steps 3 (0 : Z) (two_steps_agent MCBSAgent)))
    = [([0; 0], -2)]
  ∧ result (_greedy two_steps 3 (0 : Z)
              (final (_greedy two_steps 3 (0 : Z) (two_steps_agent MCBSAgent)))) = Ok ()
  ∧ backups (events (_greedy two_steps 3 (0 : Z)
                       (final (_greedy two_steps 3 (0 : Z) (two_steps_agent MCBSAgent)))))
    = [].
Proof.
  split; [|split; [|split; [|split]; vm_compute; reflexivity]].
  - intros [fuel Hfuel]. unfold _greedy in Hfuel.
    assert (result (greedy_loop endless fuel (0 : Z) []
                      (new_agent endless MCBSAgent (0 : Z) default_config)) = OutOfFuel)
      as Hout.
    { apply (greedy_loop_endless endless (0 : Z) (0 : Z)).
      - intros e a. by eexists.
      - intros e p. apply reports_done_never.
      - done.
      - reflexivity.
      - repeat constructor.
      - by eexists. }
    by rewrite Hout in Hfuel.
  - intros [[|fuel] Hfuel]; [done|]. unfold _greedy in Hfuel.
    rewrite (greedy_step_stuck dead_end fuel (0 : Z) []
               (new_agent dead_end MCBSAgent (0 : Z) default_config)
               (MCTSNode.fresh (-200) 0 0) (0 : Z) 0) in Hfuel; done.
Qed.

Lemma greedy_descends_and_backs_up_witness :
  result (_greedy two_steps 3 (0 : Z) (two_steps_agent MCBSAgent)) = Ok ()
  ∧ ∃ p,
      (MCTSNode.terminal
         <$> MCTSNode.get p
               (mcts_head (final (_greedy two_steps 3 (0 : Z) (two_steps_agent MCBSAgent)))))
      = Some true
      ∧ ((visited (events (_greedy two_steps 3 (0 : Z) (two_steps_agent MCBSAgent)))
          = descent [] p ++ [p]
          ∧ ∃ total,
              backups (events (_greedy two_steps 3 (0 : Z) (two_steps_agent MCBSAgent)))
              = [(p, 0 + total)])
         ∨ backups (events (_greedy two_steps 3 (0 : Z) (two_steps_agent MCBSAgent))) = []).
Proof.
  destruct (greedy_descends_and_backs_up two_steps (0 : Z) (two_steps_agent MCBSAgent))
    as [Hpath Hret].
  assert (result (_greedy two_steps 3 (0 : Z) (two_steps_agent MCBSAgent)) = Ok ()) as Hok.
  { apply (Hret 2%nat 3%nat); [apply two_steps_episodes_end | lia]. }
  split; [exact Hok|].
  destruct (Hpath 3%nat Hok) as (p & _ & Hmark & Hcases).
  exists p. split; [exact Hmark|].
  destruct Hcases as [(Hvis & s_at & st & total & _ & _ & Hback & _)|(_ & _ & Hback)].
  - left. split; [exact Hvis|]. exists total. exact Hback.
  - right. exact Hback.
Defined.

Lemma parse_path_fails_only_at_a_step_witness :
  result (_parse_path fragile (0 : Z) [0; 1] (new_agent fragile MCTSAgent (0 : Z) default_config))
  = Raise EnvError.
Proof.
  exact (parse_path_fails_only_at_a_step fragile (0 : Z) [0; 1]
           (new_agent fragile MCTSAgent (0 : Z) default_config) (0 : Z) eq_refl).
Defined.

Lemma parse_path_ignores_actions_after_done_witness :
  result (_parse_path two_steps (0 : Z) [0; 1] (two_steps_agent MCTSAgent)) = Ok (2 : Z, -3, true)
  ∧ _parse_path two_steps (0 : Z) [0; 1; 2; 0] (two_steps_agent MCTSAgent)
    = _parse_path two_steps (0 : Z) [0; 1] (two_steps_agent MCTSAgent).
Proof.
  assert (result (_parse_path two_steps (0 : Z) [0; 1] (two_steps_agent MCTSAgent))
          = Ok (2 : Z, -3, true)) as H by reflexivity.
  split; [exact H|].
  exact (parse_path_ignores_actions_after_done two_steps (0 : Z) [0; 1] [2; 0] _ _ _ H).
Defined.

Lemma parse_path_extends_by_one_step_witness :
  result (_parse_path two_steps (0 : Z) [0] (two_steps_agent MCTSAgent)) = Ok (1 : Z, -1, false)
  ∧ result (_parse_path two_steps (0 : Z) [0; 1] (two_steps_agent MCTSAgent))
    = Ok (2 : Z, -3, true)
  ∧ events (_parse_path two_steps (0 : Z) [0; 1] (two_steps_agent MCTSAgent))
    = [EvStep 0; EvStep 1].
Proof.
  assert (result (_parse_path two_steps (0 : Z) [0] (two_steps_agent MCTSAgent))
          = Ok (1 : Z, -1, false)) as H by reflexivity.
  pose proof (parse_path_extends_by_one_step two_steps (0 : Z) [0] 1 _ _ _ H) as H2.
  split; [exact H|]. split; [exact (f_equal result H2) | exact (f_equal events H2)].
Defined.

Lemma batch_state_rows_witness :
  result (_batch_state two_steps (0 : Z) [0; 1; 2] (Some [-1; -300; 5]) (two_steps_agent MCTSAgent))
  = Ok [(0, Some (-1), 0 : Z); (1, Some (-200), 0 : Z); (2, Some 0, 0 : Z)]
  ∧ ∀ row l,
      row ∈ [(0, Some (-1), 0 : Z); (1, Some (-200), 0 : Z); (2, Some 0, 0 : Z)] ->
      row.1.2 = Some l -> -200 <= l <= 0.
Proof.
  destruct (batch_state_rows two_steps (0 : Z) [0; 1; 2] [-1; -300; 5]
              (two_steps_agent MCTSAgent)) as (H1 & _ & H3).
  split; [exact (f_equal result H1)|].
  apply H3. cbn. lia.
Defined.

Lemma evaluate_policy_scalar_for_legal_action_witness :
  result (_evaluate_policy two_steps (0 : Z) [0; 1; 2] (Some [-1; -2; -3]) (Some 1)
            (two_steps_agent MCTSAgent)) = Ok (PyScalar (1 : Z))
  ∧ final (_evaluate_policy two_steps (0 : Z) [0; 1; 2] (Some [-1; -2; -3]) (Some 1)
             (two_steps_agent MCTSAgent)) = two_steps_agent MCTSAgent.
Proof.
  assert (result (_evaluate_policy two_steps (0 : Z) [0; 1; 2] (Some [-1; -2; -3]) (Some 1)
                    (two_steps_agent MCTSAgent)) = Ok (PyScalar (1 : Z))) as H by reflexivity.
  split; [exact H|].
  exact (proj1 (proj2 (evaluate_policy_scalar_for_legal_action two_steps (0 : Z) _ _ 1 _ _ H))).
Defined.

Lemma decision_only_grows_tree_witness :
  ∃ nd',
    MCTSNode.get [] (mcts_head (final (_predict one_action 10 (0 : Z) 1000 one_action_agent)))
    = Some nd'
    ∧ MCTSNode.q_step nd' = MCTSNode.q_step (mcts_head one_action_agent)
    ∧ MCTSNode.n (mcts_head one_action_agent) <= MCTSNode.n nd'
    ∧ MCTSNode.q_max (mcts_head one_action_agent) <= MCTSNode.q_max nd'
    ∧ MCTSNode.keys (mcts_head one_action_agent) `prefix_of` MCTSNode.keys nd'.
Proof.
  exact (decision_only_grows_tree one_action 10 (0 : Z) 1000 one_action_agent []
           (mcts_head one_action_agent) eq_refl).
Defined.



Lemma beam_search_without_width_stops_at_root_witness :
  visited (events (_beam_search two_steps 1 (0 : Z) 0 (two_steps_agent MCBSAgent))) = [[]].
Proof.
  refine (proj1 (proj2 (beam_search_without_width_stops_at_root two_steps 0 (0 : Z) 0
                          (two_steps_agent MCBSAgent) (0 : Z) _ eq_refl))).
  lia.
Defined.

Lemma update_after_decision_reroots_witness :
  let l := {| agent := final (_predict two_steps 10 (0 : Z) 1000 (two_steps_agent MCTSAgent));
              training := true; history := [] : steps_memory |} in
  (update two_steps steps_memory steps_store steps_clear steps_loss (-1) 0 false (-1)
     (Some (PyScalar (0 : Z))) l).1 = Ok 0
  ∧ episode_reward
      (agent (update two_steps steps_memory steps_store steps_clear steps_loss (-1) 0 false (-1)
                (Some (PyScalar (0 : Z))) l).2)
    = episode_reward (two_steps_agent MCTSAgent) + -1.
Proof.
  intros l.
  assert (result (_predict two_steps 10 (0 : Z) 1000 (two_steps_agent MCTSAgent))
          = Ok (0, PyScalar (0 : Z))) as H by (vm_compute; reflexivity).
  assert (agent l = final (_predict two_steps 10 (0 : Z) 1000 (two_steps_agent MCTSAgent)))
    as Hl by (vm_compute; reflexivity).
  assert (training l = true -> is_Some (Some (PyScalar (0 : Z)))) as Hlp
    by (intros _; by eexists).
  destruct (update_after_decision_reroots two_steps steps_memory steps_store steps_clear
              steps_loss 10 (0 : Z) 1000 (two_steps_agent MCTSAgent) 0 (PyScalar (0 : Z))
              (-1) (-1) (Some (PyScalar (0 : Z))) l H Hl Hlp)
    as (c & _ & H2 & _ & H4).
  split; [exact H2 | exact H4].
Defined.

Lemma update_at_episode_end_resets_witness :
  mcts_head
    (agent (update one_action steps_memory steps_store steps_clear steps_loss (-1) 5 true (-1)
              None playing_agent).2) = MCTSNode.fresh (-200) 0 0
  ∧ (update one_action steps_memory steps_store steps_clear steps_loss (-1) 5 true (-1)
       None playing_agent).1 = Ok 0.
Proof.
  pose proof (update_at_episode_end_resets one_action steps_memory steps_store steps_clear
                steps_loss (-1) 5 (-1) None playing_agent) as H.
  cbn zeta in H. destruct H as (H1 & _ & _ & _ & _ & _ & H7).
  split; [exact H1 | exact (proj1 (H7 eq_refl))].
Defined.


Lemma update_loss_only_after_training_episode_witness :
  (update two_steps steps_memory steps_store steps_clear steps_loss (-2) 0 true (-2)
     (Some (PyScalar (-3))) training_agent).1 = Ok 4
  ∧ history (update two_steps steps_memory steps_store steps_clear steps_loss (-2) 0 true (-2)
               (Some (PyScalar (-3))) training_agent).2 = [].
Proof.
  assert ((update two_steps steps_memory steps_store steps_clear steps_loss (-2) 0 true (-2)
             (Some (PyScalar (-3))) training_agent).1 = Ok 4) as H by reflexivity.
  split; [exact H|].
  destruct (proj1 (update_loss_only_after_training_episode two_steps steps_memory steps_store
                     steps_clear steps_loss (-2) 0 true (-2) (Some (PyScalar (-3)))
                     training_agent 4 H))
    as (_ & _ & _ & lp & _ & _ & Hh).
  - lia.
  - exact Hh.
Defined.


Lemma tree_stays_well_keyed_witness :
  all_nodes well_keyed
    (mcts_head (final (_predict two_steps 10 (0 : Z) 1000 (two_steps_agent MCBSAgent)))).
Proof.
  destruct (tree_stays_well_keyed two_steps steps_memory steps_store steps_clear steps_loss)
    as (H1 & _ & H3 & _).
  exact (H3 10%nat (0 : Z) 1000%nat _ (H1 MCBSAgent (0 : Z) default_config)).
Defined.
